(** * dataframe-go: SeriesFloat64, SeriesInt64 and SimpleExponentialSmoothing

    A shallow embedding of [series_float64.go], [series_int64.go] and
    [forecast/ets.go], and the properties of the Series contract proved
    (or refuted) on it.

    Conventions of the embedding.
    - A Go [int] is a [Z]; row arguments may be negative or too large, and
      every index and slice expression of the source is bounds-checked the
      way the Go run time does it.
    - A [float64] is a primitive binary64 float, so the arithmetic of the
      forecast is the IEEE arithmetic of the source, every operation
      rounded on its own (no fused multiply-add).
    - A call ends in one of three ways, [outcome]: a normal return, the
      return of a non-nil [error], or a panic.
    - A slice is its visible elements together with its capacity.  The
      cells of the backing array between [len] and [cap] are not
      represented: the three files never read such a cell before
      overwriting it.
    - A slice handed to [Insert] as a batch is taken by its content; it is
      assumed not to share its array with the series.
    - Locks and the [DontLock] option are not represented: every method is
      modelled as run by one goroutine.
    - A panic ends the run: the state a panicking method leaves behind is
      not represented.
    - Memory is not represented beyond the size check of [make]: an
      allocation that the run time's check lets through is taken to
      succeed, and so is every reallocation by [append]. *)

From Stdlib Require Import ZArith Bool Lia DecimalString.
From Stdlib Require Import Floats.PrimFloat Floats.SpecFloat Floats.FloatOps Floats.FloatAxioms.
From stdpp Require Import base list strings.

Local Open Scope Z_scope.

(** ** Outcomes of a call *)

Inductive outcome (A : Type) : Type :=
| Ok (a : A)          (* normal return; the error result, if any, is nil *)
| Error (e : string)  (* a non-nil error value handed back to the caller *)
| Panic (p : string). (* a run-time panic *)
Arguments Ok {A} a.
Arguments Error {A} e.
Arguments Panic {A} p.

#[global] Instance outcome_ret : MRet outcome := fun A a => Ok a.
#[global] Instance outcome_bind : MBind outcome := fun A B f m =>
  match m with
  | Ok a => f a
  | Error e => Error e
  | Panic p => Panic p
  end.

#[global] Instance outcome_fmap : FMap outcome := fun A B f m =>
  match m with
  | Ok a => Ok (f a)
  | Error e => Error e
  | Panic p => Panic p
  end.

Definition is_error {A} (o : outcome A) : bool :=
  match o with Error _ => true | _ => false end.

Definition is_panic {A} (o : outcome A) : bool :=
  match o with Panic _ => true | _ => false end.

(** A loop whose body may fail, run over the list of its iterations. *)
Fixpoint foldlM {A B} (f : A -> B -> outcome A) (a : A) (l : list B)
  : outcome A :=
  match l with
  | [] => Ok a
  | x :: l => a ← f a x; foldlM f a l
  end.

(** ** Dynamic values: [interface{}] *)

(** The dynamic types the two series distinguish in their type switches;
    every other dynamic value is an [IOther]. *)
Inductive iface : Type :=
| INil                                  (* the nil interface *)
| IFloat64 (f : float)                  (* float64 *)
| IPtrFloat64 (p : option float)        (* *float64, nil or pointing to f *)
| IInt64 (z : Z)                        (* int64 *)
| IPtrInt64 (p : option Z)              (* *int64, nil or pointing to z *)
| ISliceFloat64 (l : list float)        (* []float64 *)
| ISliceInt64 (l : list Z)              (* []int64 *)
| ISlicePtrInt64 (l : list (option Z))  (* []*int64 *)
| IOther (v : string).                  (* anything else, e.g. a string *)

(** [type ValueToStringFormatter func(val interface{}) string] *)
Definition ValueToStringFormatter : Type := iface -> string.

(** [type Options struct { DontLock bool; SortDesc bool }] *)
Record Options : Type := { DontLock : bool; SortDesc : bool }.

(** [type SeriesInit struct { Size int; Capacity int }] *)
Record SeriesInit : Type := { Size : Z; Capacity : Z }.

(** [type Range struct { Start *int; End *int }]: each bound given or not. *)
Record Range : Type := { Start : option Z; End : option Z }.

(** What [Table] hands to the table writer. *)
Record table : Type :=
  { headers : list string; data : list (list string); footers : list string }.

(** ** What the three files call but do not define *)

Class Deps : Type := {
  (* run time: the capacity [append] picks when it has to reallocate,
     from the old capacity and the length needed *)
  growslice : nat -> nat -> nat;
  (* run time: the largest number of elements [makeslice] grants for the
     element types of the series, a float64 and a pointer; beyond it the
     size in bytes overflows or exceeds runtime.maxAlloc *)
  maxElems : Z;
  (* fmt.Sprintf("%v", v) *)
  Sprintf_v : iface -> string;
  (* strconv.ParseFloat(s, 64) and strconv.ParseInt(s, 10, 64); None is a
     non-nil error *)
  ParseFloat : string -> option float;
  ParseInt : string -> option Z;
  (* dataframe.DefaultValueFormatter *)
  DefaultValueFormatter : ValueToStringFormatter;
  (* Range.Limits(length), returning (start, end, err) *)
  Limits : Range -> Z -> outcome (Z * Z);
  (* tablewriter: header, rows, footer, centred, rendered to a string *)
  Render : table -> string
}.

(** Modelled from the spec: [isNaN] and [nan], helpers of the package that
    live in another file; "absence is the sentinel NaN". *)
Definition isNaN (f : float) : bool := PrimFloat.is_nan f.
Definition nan : float := PrimFloat.nan.

(** fmt.Sprintf("%d", n) *)
Definition Sprintf_d (n : Z) : string := NilZero.string_of_int (Z.to_int n).

(** ** Slices *)

Record slice (A : Type) : Type := Slice { elems : list A; cap : nat }.
Arguments Slice {A} elems cap.
Arguments elems {A} s.
Arguments cap {A} s.

(** [len(s)] *)
Definition len {A} (s : slice A) : Z := Z.of_nat (length (elems s)).

(** [make([]T, size, capacity)], with the checks of [runtime.makeslice]:
    the length is reported when it is negative or too large by itself,
    the capacity otherwise. *)
Definition make `{Deps} {A} (zero : A) (size capacity : Z) : outcome (slice A) :=
  if (size <? 0) || (maxElems <? size)
  then Panic "runtime error: makeslice: len out of range"
  else if (capacity <? size) || (maxElems <? capacity)
  then Panic "runtime error: makeslice: cap out of range"
  else Ok (Slice (replicate (Z.to_nat size) zero) (Z.to_nat capacity)).

(** [append(s, xs...)]: in place when the capacity allows, else into a new
    array whose capacity is at least the length needed. *)
Definition append `{Deps} {A} (s : slice A) (xs : list A) : slice A :=
  let n := (length (elems s) + length xs)%nat in
  Slice (elems s ++ xs)
        (if (n <=? cap s)%nat then cap s else Nat.max n (growslice (cap s) n)).

(** [l[i]] with the run-time bounds check *)
Definition index {A} (l : list A) (i : Z) : outcome A :=
  match (if 0 <=? i then l !! Z.to_nat i else None) with
  | Some x => Ok x
  | None => Panic "index out of range"
  end.

(** [l[i] = x] with the run-time bounds check *)
Definition store {A} (l : list A) (i : Z) (x : A) : outcome (list A) :=
  if (0 <=? i) && (i <? Z.of_nat (length l))
  then Ok (<[Z.to_nat i := x]> l)
  else Panic "index out of range".

(** [l[lo:]] with the run-time bounds check, as an offset into [l] *)
Definition slice_from {A} (l : list A) (lo : Z) : outcome nat :=
  if (0 <=? lo) && (lo <=? Z.of_nat (length l))
  then Ok (Z.to_nat lo)
  else Panic "slice bounds out of range".

(** [copy(l[dst:], l[src:])]: min(len - dst, len - src) elements move, as
    by memmove. *)
Definition copy_within {A} (l : list A) (dst src : nat) : list A :=
  let k := Nat.min (length l - dst) (length l - src) in
  take dst l ++ take k (drop src l) ++ drop (dst + k) l.

(** The number of absent slots of a storage. *)
Fixpoint count_absent {A} (absent : A -> bool) (l : list A) : Z :=
  match l with
  | [] => 0
  | x :: l' => (if absent x then 1 else 0) + count_absent absent l'
  end.

(** [s[:len(s)+1]]: one more cell of the backing array becomes visible.
    Its content [c] is not tracked; [Prepend], the only user, overwrites
    the cell before reading it (see [insert_copy_within]). *)
Definition reslice_up1 {A} (c : A) (s : slice A) : slice A :=
  Slice (elems s ++ [c]) (cap s).

(** ** Package sort of the Go library: [sort.SliceStable]

    [SliceStable(x, less)] runs [stable] on the pair of [less] and the
    swapper of [x]: insertion sort on blocks of 20, then rounds of
    [symMerge].  [less] is a closure over the slice being sorted, so it is
    given the current content. *)
Module sort.
Section lessSwap.
Context {A : Type} (Less : list A -> nat -> nat -> bool).

(** [data.Swap(i, j)], the function [reflect.Swapper] returns *)
Definition Swap (l : list A) (i j : nat) : list A :=
  match l !! i, l !! j with
  | Some x, Some y => <[i := y]> (<[j := x]> l)
  | _, _ => l
  end.

(** [for j := i; j > a && data.Less(j, j-1); j-- { data.Swap(j, j-1) }] *)
Fixpoint insertionSort_inner (a j : nat) (l : list A) : list A :=
  match j with
  | S j' => if (a <? j)%nat && Less l j j'
            then insertionSort_inner a j' (Swap l j j')
            else l
  | O => l
  end.

(** [for i := a + 1; i < b; i++ { ... }] *)
Definition insertionSort (l : list A) (a b : nat) : list A :=
  foldl (fun l i => insertionSort_inner a i l) l (seq (a + 1) (b - (a + 1))).

(** [for i := 0; i < n; i++ { data.Swap(a+i, b+i) }] *)
Definition swapRange (l : list A) (a b n : nat) : list A :=
  foldl (fun l i => Swap l (a + i) (b + i)) l (seq 0 n).

(** The loop of [rotate] on the block lengths [i] and [j]. *)
Fixpoint rotate_loop (fuel : nat) (l : list A) (m i j : nat) : list A :=
  match fuel with
  | O => l
  | S fuel =>
      if (i =? j)%nat then swapRange l (m - i) m i
      else if (j <? i)%nat
           then rotate_loop fuel (swapRange l (m - i) m j) m (i - j) j
           else rotate_loop fuel (swapRange l (m - i) (m + j - i) i) m i (j - i)
  end.

Definition rotate (l : list A) (a m b : nat) : list A :=
  rotate_loop (S (b - a)) l m (m - a) (b - m).

(** [for i < j { h := int(uint(i+j) >> 1); if c(h) { i = h + 1 } else { j = h } }],
    the binary search [symMerge] runs three times; the result is [i]. *)
Fixpoint search (fuel : nat) (c : nat -> bool) (i j : nat) : nat :=
  match fuel with
  | O => i
  | S fuel =>
      if (i <? j)%nat
      then let h := ((i + j) / 2)%nat in
           if c h then search fuel c (h + 1)%nat j else search fuel c i h
      else i
  end.

Fixpoint symMerge (fuel : nat) (l : list A) (a m b : nat) : list A :=
  match fuel with
  | O => l
  | S fuel =>
      if (m - a =? 1)%nat then
        let i := search (b - m) (fun h => Less l h a) m b in
        (* for k := a; k < i-1; k++ { data.Swap(k, k+1) } *)
        foldl (fun l k => Swap l k (k + 1)) l (seq a (i - 1 - a))
      else if (b - m =? 1)%nat then
        let i := search (m - a) (fun h => negb (Less l m h)) a m in
        (* for k := m; k > i; k-- { data.Swap(k, k-1) } *)
        foldl (fun l k => Swap l k (k - 1)) l (rev (seq (i + 1) (m - i)))
      else
        let mid := ((a + b) / 2)%nat in
        let n := (mid + m)%nat in
        let '(start, r) := if (mid <? m)%nat then (n - b, mid)%nat else (a, m) in
        let p := (n - 1)%nat in
        let start := search (r - start) (fun c => negb (Less l (p - c) c)) start r in
        let end_ := (n - start)%nat in
        let l := if (start <? m)%nat && (m <? end_)%nat
                 then rotate l start m end_ else l in
        let l := if (a <? start)%nat && (start <? mid)%nat
                 then symMerge fuel l a start mid else l in
        if (mid <? end_)%nat && (end_ <? b)%nat
        then symMerge fuel l mid end_ b else l
  end.

(** [for b <= n { insertionSort(data, a, b); a = b; b += blockSize }];
    returns the content and the final [a]. *)
Fixpoint stable_blocks (fuel : nat) (l : list A) (a b n blockSize : nat)
  : list A * nat :=
  match fuel with
  | O => (l, a)
  | S fuel =>
      if (b <=? n)%nat
      then stable_blocks fuel (insertionSort l a b) b (b + blockSize) n blockSize
      else (l, a)
  end.

(** [for b <= n { symMerge(data, a, a+blockSize, b); a = b; b += 2 * blockSize }] *)
Fixpoint stable_merges (fuel : nat) (l : list A) (a b n blockSize : nat)
  : list A * nat :=
  match fuel with
  | O => (l, a)
  | S fuel =>
      if (b <=? n)%nat
      then stable_merges fuel (symMerge n l a (a + blockSize) b)
                         b (b + 2 * blockSize) n blockSize
      else (l, a)
  end.

(** [for blockSize < n { ...; blockSize *= 2 }] *)
Fixpoint stable_rounds (fuel : nat) (l : list A) (n blockSize : nat) : list A :=
  match fuel with
  | O => l
  | S fuel =>
      if (blockSize <? n)%nat then
        let '(l, a) := stable_merges n l 0 (2 * blockSize) n blockSize in
        let l := if (a + blockSize <? n)%nat
                 then symMerge n l a (a + blockSize) n else l in
        stable_rounds fuel l n (2 * blockSize)
      else l
  end.

Definition stable (l : list A) (n : nat) : list A :=
  let blockSize := 20%nat in
  let '(l, a) := stable_blocks n l 0 blockSize n blockSize in
  let l := insertionSort l a n in
  stable_rounds n l n blockSize.

Definition SliceStable (x : list A) : list A := stable x (length x).
End lessSwap.
End sort.

(** ** series_float64.go *)
Module SeriesFloat64.

Record SeriesFloat64 : Type := mk {
  valFormatter : ValueToStringFormatter;
  name : string;
  Values : slice float;
  nilCount : Z
}.

Definition with_Values (s : SeriesFloat64) (v : slice float) : SeriesFloat64 :=
  mk (valFormatter s) (name s) v (nilCount s).

Definition with_nilCount (s : SeriesFloat64) (n : Z) : SeriesFloat64 :=
  mk (valFormatter s) (name s) (Values s) n.

(** The absent slots of the storage: the cells holding the sentinel. *)
Definition absent_slots (s : SeriesFloat64) : Z :=
  count_absent isNaN (elems (Values s)).

(** [a.(float64)] *)
Definition assert_float64 (a : iface) : outcome float :=
  match a with
  | IFloat64 f => Ok f
  | _ => Panic "interface conversion: interface {} is not float64"
  end.

Section Methods.
Context `{Deps}.

Definition valToPointer (v : iface) : outcome float :=
  match v with
  | INil => Ok nan
  | IPtrFloat64 None => Ok nan
  | IPtrFloat64 (Some f) => Ok f
  | IFloat64 f => Ok f
  | _ =>
      match ParseFloat (Sprintf_v v) with
      | Some f => Ok f
      | None => assert_float64 v (* Intentionally panic *)
      end
  end.

(** The loop [for idx, v := range vals] of [NewSeriesFloat64]. *)
Fixpoint NewSeriesFloat64_vals (size idx : Z) (vals : list iface)
    (s : SeriesFloat64) : outcome SeriesFloat64 :=
  match vals with
  | [] => Ok s
  | v :: vals =>
      val ← valToPointer v;
      let s := if isNaN val then with_nilCount s (nilCount s + 1) else s in
      s ← (if idx <? size
           then l ← store (elems (Values s)) idx val;
                Ok (with_Values s (Slice l (cap (Values s))))
           else Ok (with_Values s (append (Values s) [val])));
      NewSeriesFloat64_vals size (idx + 1) vals s
  end.

Definition NewSeriesFloat64 (name : string) (init : option SeriesInit)
    (vals : list iface) : outcome SeriesFloat64 :=
  let size := match init with Some i => Size i | None => 0 end in
  let capacity :=
    match init with
    | Some i => if Capacity i <? Size i then Size i else Capacity i
    | None => 0
    end in
  values ← make 0%float size capacity; (* Warning: filled with 0.0 (not NaN) *)
  s ← NewSeriesFloat64_vals size 0 vals (mk DefaultValueFormatter name values 0);
  let n := Z.of_nat (length vals) in
  if n <? size then
    (* Fill with NaN: for i := len(vals); i < size; i++ { s.Values[i] = nan() } *)
    l ← foldlM (fun l i => store l i nan) (elems (Values s)) (seqZ n (size - n));
    Ok (mk (valFormatter s) (SeriesFloat64.name s) (Slice l (cap (Values s)))
           (nilCount s + size - n))
  else Ok s.

Definition NRows (s : SeriesFloat64) : Z := len (Values s).

Definition Value (s : SeriesFloat64) (row : Z) : outcome iface :=
  val ← index (elems (Values s)) row;
  if isNaN val then Ok INil else Ok (IFloat64 val).

Definition ValueString (s : SeriesFloat64) (row : Z) : outcome string :=
  v ← Value s row;
  Ok (valFormatter s v).

Definition insert (s : SeriesFloat64) (row : Z) (val : iface)
  : outcome SeriesFloat64 :=
  match val with
  | ISliceFloat64 V =>
      (* count how many NaN *)
      let s := foldl (fun s v => if isNaN v then with_nilCount s (nilCount s + 1) else s)
                     s V in
      (* s.Values[:row], whose upper bound is the capacity *)
      if (0 <=? row) && (row <=? Z.of_nat (cap (Values s))) then
        lo ← slice_from (elems (Values s)) row;
        Ok (with_Values s
              (append (Slice (take (Z.to_nat row) (elems (Values s))) (cap (Values s)))
                      (V ++ drop lo (elems (Values s)))))
      else Panic "slice bounds out of range"
  | _ =>
      let values := append (Values s) [nan] in
      (* copy(s.Values[row+1:], s.Values[row:]) *)
      dst ← slice_from (elems values) (row + 1);
      src ← slice_from (elems values) row;
      let l := copy_within (elems values) dst src in
      v ← valToPointer val;
      let s := if isNaN v then with_nilCount s (nilCount s + 1) else s in
      l ← store l row v;
      Ok (with_Values s (Slice l (cap values)))
  end.

Definition Prepend (s : SeriesFloat64) (val : iface) : outcome SeriesFloat64 :=
  if (length (elems (Values s)) <? cap (Values s))%nat then
    (* There is already extra capacity so copy current values by 1 spot *)
    let values := reslice_up1 nan (Values s) in
    let l := copy_within (elems values) 1 0 in
    v ← valToPointer val;
    l ← store l 0 v;
    Ok (with_Values s (Slice l (cap values)))
  else
    (* No room, new slice needs to be allocated: *)
    insert s 0 val.

Definition Append (s : SeriesFloat64) (val : iface)
  : outcome (SeriesFloat64 * Z) :=
  let row := NRows s in
  s ← insert s row val;
  Ok (s, row).

Definition Insert (s : SeriesFloat64) (row : Z) (val : iface)
  : outcome SeriesFloat64 :=
  insert s row val.

Definition Remove (s : SeriesFloat64) (row : Z) : outcome SeriesFloat64 :=
  x ← index (elems (Values s)) row;
  let s := if isNaN x then with_nilCount s (nilCount s - 1) else s in
  let l := elems (Values s) in
  Ok (with_Values s
        (append (Slice (take (Z.to_nat row) l) (cap (Values s)))
                (drop (Z.to_nat (row + 1)) l))).

Definition Update (s : SeriesFloat64) (row : Z) (val : iface)
  : outcome SeriesFloat64 :=
  newVal ← valToPointer val;
  old ← index (elems (Values s)) row;
  let s := if isNaN old && negb (isNaN newVal) then with_nilCount s (nilCount s - 1)
           else if negb (isNaN old) && isNaN newVal then with_nilCount s (nilCount s + 1)
           else s in
  l ← store (elems (Values s)) row newVal;
  Ok (with_Values s (Slice l (cap (Values s)))).

Definition Swap (s : SeriesFloat64) (row1 row2 : Z) : outcome SeriesFloat64 :=
  if row1 =? row2 then Ok s
  else
    (* the right-hand side is read first, then the two cells are written *)
    x2 ← index (elems (Values s)) row2;
    x1 ← index (elems (Values s)) row1;
    l ← store (elems (Values s)) row1 x2;
    l ← store l row2 x1;
    Ok (with_Values s (Slice l (cap (Values s)))).

Definition IsEqualFunc (a b : iface) : outcome bool :=
  match a, b with
  | INil, INil => Ok true
  | INil, _ => Ok false
  | _, INil => Ok false
  | _, _ =>
      f1 ← assert_float64 a;
      f2 ← assert_float64 b;
      Ok (f1 =? f2)%float
  end.

Definition IsLessThanFunc (a b : iface) : outcome bool :=
  match a, b with
  | INil, INil => Ok true
  | INil, _ => Ok true
  | _, INil => Ok false
  | _, _ =>
      f1 ← assert_float64 a;
      f2 ← assert_float64 b;
      Ok (f1 <? f2)%float
  end.

(** The closure [Sort] passes to [sort.SliceStable]; [l] is the current
    content of [s.Values].  The sort only calls it on rows of the slice. *)
Definition Sort_less (sortDesc : bool) (l : list float) (i j : nat) : bool :=
  let vi := default nan (l !! i) in
  let vj := default nan (l !! j) in
  let ret :=
    if isNaN vi then
      if isNaN vj then true (* both are nil *) else true
    else if isNaN vj then false (* i has value and j is nil *)
    else (vi <? vj)%float in
  (* the deferred function *)
  if sortDesc then negb ret else ret.

Definition Sort (s : SeriesFloat64) (options : list Options) : SeriesFloat64 :=
  let sortDesc := match options with [] => false | o :: _ => SortDesc o end in
  with_Values s
    (Slice (sort.SliceStable (Sort_less sortDesc) (elems (Values s)))
           (cap (Values s))).

Definition Copy (s : SeriesFloat64) (r : list Range) : outcome SeriesFloat64 :=
  if len (Values s) =? 0 then
    Ok (mk (valFormatter s) (name s) (Slice [] 0) (nilCount s))
  else
    let r := match r with [] => [Build_Range None None] | _ => r end in
    r0 ← index r 0;
    match Limits r0 (len (Values s)) with
    | Ok (start, end_) =>
        (* x := s.Values[start : end+1], whose upper bound is the capacity;
           cells past len(s.Values) are not represented *)
        if (0 <=? start) && (start <=? end_ + 1)
           && (end_ + 1 <=? Z.of_nat (cap (Values s))) then
          let x := take (Z.to_nat (end_ + 1 - start))
                        (drop (Z.to_nat start) (elems (Values s))) in
          (* newSlice := append(x[:0:0], x...) *)
          let newSlice := append (Slice [] 0) x in
          Ok (mk (valFormatter s) (name s) newSlice (nilCount s))
        else Panic "slice bounds out of range"
    | Error e => Panic e
    | Panic p => Panic p
    end.

Definition Type_ : string := "float64".

Definition Table (s : SeriesFloat64) (r : list Range) : outcome string :=
  let r := match r with [] => [Build_Range None None] | _ => r end in
  let headers := [""; name s] in (* row header is blank *)
  let footers := [Sprintf_d (len (Values s)) +:+ "x" +:+ Sprintf_d 1; Type_] in
  data ←
    (if 0 <? len (Values s) then
       r0 ← index r 0;
       match Limits r0 (len (Values s)) with
       | Ok (start, end_) =>
           (* for row := start; row <= end; row++ *)
           mapM (fun row => v ← ValueString s row; Ok [Sprintf_d row +:+ ":"; v])
                (seqZ start (end_ + 1 - start))
       | Error e => Panic e
       | Panic p => Panic p
       end
     else Ok []);
  Ok (Render (Build_table headers data footers)).

Definition Name (s : SeriesFloat64) : string := name s.

Definition Rename (s : SeriesFloat64) (n : string) : SeriesFloat64 :=
  mk (valFormatter s) n (Values s) (nilCount s).

(** [f] is a function value or nil. *)
Definition SetValueToStringFormatter (s : SeriesFloat64)
    (f : option ValueToStringFormatter) : SeriesFloat64 :=
  match f with
  | None => mk DefaultValueFormatter (name s) (Values s) (nilCount s)
  | Some f => mk f (name s) (Values s) (nilCount s)
  end.

(** [out = out + s.ValueString(row, Options{true, false}) + " "] *)
Definition String_row (s : SeriesFloat64) (out : string) (row : Z) : outcome string :=
  v ← ValueString s row;
  Ok (out +:+ v +:+ " ").

Definition String (s : SeriesFloat64) : outcome string :=
  let count := len (Values s) in
  let out := "[ " in
  if 6 <? count then
    let idx := [0; 1; 2; count - 3; count - 2; count - 1] in
    (* for j, row := range idx *)
    out ← foldlM (fun out '(j, row) =>
                    let out := if (j =? 3)%nat then out +:+ "... " else out in
                    String_row s out row)
                 out (imap (fun j row => (j, row)) idx);
    Ok (out +:+ "]")
  else
    (* for row := range s.Values *)
    out ← foldlM (String_row s) out (seqZ 0 count);
    Ok (out +:+ "]").

Definition ContainsNil (s : SeriesFloat64) : bool := 0 <? nilCount s.

End Methods.
End SeriesFloat64.

(** ** series_int64.go

    A slot is a [*int64]: nil or a box.  The files never write through a
    stored pointer nor compare two of them, so a box is identified with
    the integer it holds. *)
Module SeriesInt64.

Record SeriesInt64 : Type := mk {
  valFormatter : ValueToStringFormatter;
  name : string;
  values : slice (option Z);
  nilCount : Z
}.

Definition with_values (s : SeriesInt64) (v : slice (option Z)) : SeriesInt64 :=
  mk (valFormatter s) (name s) v (nilCount s).

Definition with_nilCount (s : SeriesInt64) (n : Z) : SeriesInt64 :=
  mk (valFormatter s) (name s) (values s) n.

(** [p == nil] *)
Definition isNil (p : option Z) : bool :=
  match p with None => true | Some _ => false end.

(** The absent slots of the storage: the nil pointers. *)
Definition absent_slots (s : SeriesInt64) : Z :=
  count_absent isNil (elems (values s)).

(** [a.(int64)] *)
Definition assert_int64 (a : iface) : outcome Z :=
  match a with
  | IInt64 z => Ok z
  | _ => Panic "interface conversion: interface {} is not int64"
  end.

Section Methods.
Context `{Deps}.

Definition valToPointer (v : iface) : outcome (option Z) :=
  match v with
  | INil => Ok None
  | IPtrInt64 None => Ok None
  | IPtrInt64 (Some z) => Ok (Some z)
  | IInt64 z => Ok (Some z)
  | _ =>
      match ParseInt (Sprintf_v v) with
      | Some i => Ok (Some i)
      | None => assert_int64 v (* Intentionally panic *) ≫= fun z => Ok (Some z)
      end
  end.

(** The loop [for idx, v := range vals] of [NewSeriesInt64]. *)
Fixpoint NewSeriesInt64_vals (size idx : Z) (vals : list iface)
    (s : SeriesInt64) : outcome SeriesInt64 :=
  match vals with
  | [] => Ok s
  | v :: vals =>
      val ← valToPointer v;
      let s := if isNil val then with_nilCount s (nilCount s + 1) else s in
      s ← (if idx <? size
           then l ← store (elems (values s)) idx val;
                Ok (with_values s (Slice l (cap (values s))))
           else Ok (with_values s (append (values s) [val])));
      NewSeriesInt64_vals size (idx + 1) vals s
  end.

Definition NewSeriesInt64 (name : string) (init : option SeriesInit)
    (vals : list iface) : outcome SeriesInt64 :=
  let size := match init with Some i => Size i | None => 0 end in
  let capacity :=
    match init with
    | Some i => if Capacity i <? Size i then Size i else Capacity i
    | None => 0
    end in
  values ← make None size capacity;
  s ← NewSeriesInt64_vals size 0 vals (mk DefaultValueFormatter name values 0);
  let n := Z.of_nat (length vals) in
  if n <? size then Ok (with_nilCount s (nilCount s + size - n)) else Ok s.

Definition NRows (s : SeriesInt64) : Z := len (values s).

Definition Value (s : SeriesInt64) (row : Z) : outcome iface :=
  val ← index (elems (values s)) row;
  match val with
  | None => Ok INil
  | Some z => Ok (IInt64 z)
  end.

Definition ValueString (s : SeriesInt64) (row : Z) : outcome string :=
  v ← Value s row;
  Ok (valFormatter s v).

(** [append(s.values[:row], append(vals, s.values[row:]...)...)] *)
Definition insert_batch (s : SeriesInt64) (row : Z) (vals : list (option Z))
  : outcome SeriesInt64 :=
  if (0 <=? row) && (row <=? Z.of_nat (cap (values s))) then
    lo ← slice_from (elems (values s)) row;
    Ok (with_values s
          (append (Slice (take (Z.to_nat row) (elems (values s))) (cap (values s)))
                  (vals ++ drop lo (elems (values s)))))
  else Panic "slice bounds out of range".

Definition insert (s : SeriesInt64) (row : Z) (val : iface)
  : outcome SeriesInt64 :=
  match val with
  | ISliceInt64 V =>
      (* for _, v := range V { v := v; vals = append(vals, &v) } *)
      let vals := foldl (fun vals v => vals ++ [Some v]) [] V in
      insert_batch s row vals
  | ISlicePtrInt64 V =>
      let s := foldl (fun s v => if isNil v then with_nilCount s (nilCount s + 1) else s)
                     s V in
      insert_batch s row V
  | _ =>
      let values := append (values s) [None] in
      (* copy(s.values[row+1:], s.values[row:]) *)
      dst ← slice_from (elems values) (row + 1);
      src ← slice_from (elems values) row;
      let l := copy_within (elems values) dst src in
      v ← valToPointer val;
      let s := if isNil v then with_nilCount s (nilCount s + 1) else s in
      v' ← valToPointer (IPtrInt64 v);
      l ← store l row v';
      Ok (with_values s (Slice l (cap values)))
  end.

Definition Prepend (s : SeriesInt64) (val : iface) : outcome SeriesInt64 :=
  if (length (elems (values s)) <? cap (values s))%nat then
    (* There is already extra capacity so copy current values by 1 spot *)
    let values := reslice_up1 None (values s) in
    let l := copy_within (elems values) 1 0 in
    v ← valToPointer val;
    l ← store l 0 v;
    Ok (with_values s (Slice l (cap values)))
  else
    (* No room, new slice needs to be allocated: *)
    insert s 0 val.

Definition Append (s : SeriesInt64) (val : iface) : outcome (SeriesInt64 * Z) :=
  let row := NRows s in
  s ← insert s row val;
  Ok (s, row).

Definition Insert (s : SeriesInt64) (row : Z) (val : iface)
  : outcome SeriesInt64 :=
  insert s row val.

Definition Remove (s : SeriesInt64) (row : Z) : outcome SeriesInt64 :=
  x ← index (elems (values s)) row;
  let s := if isNil x then with_nilCount s (nilCount s - 1) else s in
  let l := elems (values s) in
  Ok (with_values s
        (append (Slice (take (Z.to_nat row) l) (cap (values s)))
                (drop (Z.to_nat (row + 1)) l))).

Definition Update (s : SeriesInt64) (row : Z) (val : iface)
  : outcome SeriesInt64 :=
  newVal ← valToPointer val;
  old ← index (elems (values s)) row;
  let s := if isNil old && negb (isNil newVal) then with_nilCount s (nilCount s - 1)
           else if negb (isNil old) && isNil newVal then with_nilCount s (nilCount s + 1)
           else s in
  l ← store (elems (values s)) row newVal;
  Ok (with_values s (Slice l (cap (values s)))).

Definition Swap (s : SeriesInt64) (row1 row2 : Z) : outcome SeriesInt64 :=
  if row1 =? row2 then Ok s
  else
    (* the right-hand side is read first, then the two cells are written *)
    x2 ← index (elems (values s)) row2;
    x1 ← index (elems (values s)) row1;
    l ← store (elems (values s)) row1 x2;
    l ← store l row2 x1;
    Ok (with_values s (Slice l (cap (values s)))).

Definition IsEqualFunc (a b : iface) : outcome bool :=
  match a, b with
  | INil, INil => Ok true
  | INil, _ => Ok false
  | _, INil => Ok false
  | _, _ =>
      t1 ← assert_int64 a;
      t2 ← assert_int64 b;
      Ok (t1 =? t2)
  end.

Definition IsLessThanFunc (a b : iface) : outcome bool :=
  match a, b with
  | INil, INil => Ok true
  | INil, _ => Ok true
  | _, INil => Ok false
  | _, _ =>
      t1 ← assert_int64 a;
      t2 ← assert_int64 b;
      Ok (t1 <? t2)
  end.

(** The closure [Sort] passes to [sort.SliceStable]; [l] is the current
    content of [s.values].  The sort only calls it on rows of the slice.
    The closure reads a box through [deref] and never looks at the box
    itself, so it is written for any representation [P] of the boxes. *)
Definition Sort_less_at {P : Type} (deref : P -> Z) (sortDesc : bool)
    (l : list (option P)) (i j : nat) : bool :=
  let ret :=
    match default None (l !! i), default None (l !! j) with
    | None, None => true (* both are nil *)
    | None, Some _ => true
    | Some _, None => false (* i has value and j is nil *)
    | Some pi, Some pj => deref pi <? deref pj
    end in
  (* the deferred function *)
  if sortDesc then negb ret else ret.

(** In the series a box is the integer it holds. *)
Definition Sort_less : bool -> list (option Z) -> nat -> nat -> bool :=
  Sort_less_at (fun z => z).

Definition Sort (s : SeriesInt64) (options : list Options) : SeriesInt64 :=
  let sortDesc := match options with [] => false | o :: _ => SortDesc o end in
  with_values s
    (Slice (sort.SliceStable (Sort_less sortDesc) (elems (values s)))
           (cap (values s))).

Definition Copy (s : SeriesInt64) (r : list Range) : outcome SeriesInt64 :=
  if len (values s) =? 0 then
    Ok (mk (valFormatter s) (name s) (Slice [] 0) (nilCount s))
  else
    let r := match r with [] => [Build_Range None None] | _ => r end in
    r0 ← index r 0;
    match Limits r0 (len (values s)) with
    | Ok (start, end_) =>
        (* x := s.values[start : end+1], whose upper bound is the capacity;
           cells past len(s.values) are not represented *)
        if (0 <=? start) && (start <=? end_ + 1)
           && (end_ + 1 <=? Z.of_nat (cap (values s))) then
          let x := take (Z.to_nat (end_ + 1 - start))
                        (drop (Z.to_nat start) (elems (values s))) in
          (* newSlice := append(x[:0:0], x...) *)
          let newSlice := append (Slice [] 0) x in
          Ok (mk (valFormatter s) (name s) newSlice (nilCount s))
        else Panic "slice bounds out of range"
    | Error e => Panic e
    | Panic p => Panic p
    end.

Definition Type_ : string := "int64".

Definition Table (s : SeriesInt64) (r : list Range) : outcome string :=
  let r := match r with [] => [Build_Range None None] | _ => r end in
  let headers := [""; name s] in (* row header is blank *)
  let footers := [Sprintf_d (len (values s)) +:+ "x" +:+ Sprintf_d 1; Type_] in
  data ←
    (if 0 <? len (values s) then
       r0 ← index r 0;
       match Limits r0 (len (values s)) with
       | Ok (start, end_) =>
           (* for row := start; row <= end; row++ *)
           mapM (fun row => v ← ValueString s row; Ok [Sprintf_d row +:+ ":"; v])
                (seqZ start (end_ + 1 - start))
       | Error e => Panic e
       | Panic p => Panic p
       end
     else Ok []);
  Ok (Render (Build_table headers data footers)).

Definition Name (s : SeriesInt64) : string := name s.

Definition Rename (s : SeriesInt64) (n : string) : SeriesInt64 :=
  mk (valFormatter s) n (values s) (nilCount s).

(** [f] is a function value or nil. *)
Definition SetValueToStringFormatter (s : SeriesInt64)
    (f : option ValueToStringFormatter) : SeriesInt64 :=
  match f with
  | None => mk DefaultValueFormatter (name s) (values s) (nilCount s)
  | Some f => mk f (name s) (values s) (nilCount s)
  end.

(** [out = out + s.ValueString(row, Options{true, false}) + " "] *)
Definition String_row (s : SeriesInt64) (out : string) (row : Z) : outcome string :=
  v ← ValueString s row;
  Ok (out +:+ v +:+ " ").

Definition String (s : SeriesInt64) : outcome string :=
  let count := len (values s) in
  let out := "[ " in
  if 6 <? count then
    let idx := [0; 1; 2; count - 3; count - 2; count - 1] in
    (* for j, row := range idx *)
    out ← foldlM (fun out '(j, row) =>
                    let out := if (j =? 3)%nat then out +:+ "... " else out in
                    String_row s out row)
                 out (imap (fun j row => (j, row)) idx);
    Ok (out +:+ "]")
  else
    (* for row := range s.values *)
    out ← foldlM (String_row s) out (seqZ 0 count);
    Ok (out +:+ "]").

Definition ContainsNil (s : SeriesInt64) : bool := 0 <? nilCount s.

End Methods.
End SeriesInt64.

(** ** forecast/ets.go *)
Module forecast.

(** A [context.Context], as far as the forecast looks at it: what the
    k-th call of [ctx.Err()] returns, [None] for nil. *)
Definition Ctx : Type := nat -> option string.

Section Methods.
Context `{Deps}.

(** The loop over the historical rows; [polls] counts the calls of
    [ctx.Err()] made so far. *)
Fixpoint SimpleExponentialSmoothing_level (ctx : Ctx) (Values : list float)
    (α : float) (start : Z) (rows : list Z) (polls : nat) (st : float)
  : outcome (float * nat) :=
  match rows with
  | [] => Ok (st, polls)
  | i :: rows =>
      match ctx polls with
      | Some err => Error err
      | None =>
          xt ← index Values i;
          let st := if i =? start then xt else (α * xt + (1 - α) * st)%float in
          SimpleExponentialSmoothing_level ctx Values α start rows (S polls) st
      end
  end.

(** [for range iter.N(m)]: the [m] forecast steps. *)
Fixpoint SimpleExponentialSmoothing_forecast (ctx : Ctx) (Values : list float)
    (α : float) (end_ : Z) (m : nat) (polls : nat) (st : float)
    (forecast : slice float) : outcome (slice float) :=
  match m with
  | O => Ok forecast
  | S m =>
      match ctx polls with
      | Some err => Error err
      | None =>
          x ← index Values end_;
          let st := (α * x + (1 - α) * st)%float in
          SimpleExponentialSmoothing_forecast ctx Values α end_ m (S polls) st
            (append forecast [st])
      end
  end.

Definition SimpleExponentialSmoothing (ctx : Ctx)
    (s : SeriesFloat64.SeriesFloat64) (α : float) (m : Z) (r : list Range)
  : outcome SeriesFloat64.SeriesFloat64 :=
  let r := match r with [] => [Build_Range None None] | _ => r end in
  let count := len (SeriesFloat64.Values s) in
  if count =? 0 then Error "no values in series range"
  else
    r0 ← index r 0;
    '(start, end_) ← Limits r0 count;
    (* Validation *)
    if end_ - start <? 1 then Error "no values in series range"
    else if m <=? 0 then Error "m must be greater than 0"
    else if (α <? 0)%float || (1 <? α)%float then Error "α must be between [0,1]"
    else
      forecast ← make 0%float 0 m;
      let Values := elems (SeriesFloat64.Values s) in
      '(st, polls) ← SimpleExponentialSmoothing_level ctx Values α start
                       (seqZ start (end_ + 1 - start)) 0%nat 0%float;
      (* Now calculate forecast *)
      forecast ← SimpleExponentialSmoothing_forecast ctx Values α end_
                   (Z.to_nat m) polls st forecast;
      fdf ← SeriesFloat64.NewSeriesFloat64 "forecast" None [];
      Ok (SeriesFloat64.with_Values fdf forecast).

End Methods.
End forecast.

(** ** The statement of the forecast, in the words of the specification

    S0 = x[start], Si = α·xi + (1−α)·Si−1 over the historical window, then
    m forward steps St+1 = α·x[end] + (1−α)·St. *)
Definition ses_step (α x S : float) : float := (α * x + (1 - α) * S)%float.

Definition ses_level (α : float) (window : list float) : float :=
  match window with
  | [] => 0%float
  | x0 :: xs => foldl (fun S x => ses_step α x S) x0 xs
  end.

Fixpoint ses_forecasts (α xend S : float) (m : nat) : list float :=
  match m with
  | O => []
  | S m => let S' := ses_step α xend S in S' :: ses_forecasts α xend S' m
  end.

(** The rows [start..end] of a storage. *)
Definition window {A} (l : list A) (start end_ : Z) : list A :=
  take (Z.to_nat (end_ + 1 - start)) (drop (Z.to_nat start) l).

(** ** An instance of what the files do not define

    Used to run the model on concrete inputs.  [Limits] and the default
    formatter follow the specification; the rest stands for library
    functions that the inputs below do not reach, and every property
    stated for all series is proved for every instance of [Deps]. *)

(** Modelled from the spec: [Range.Limits], defined in another file of the
    package.  No bound given means the whole sequence; resolving against a
    row count N fails with an error if start>end, start<0 or end>=N, and
    otherwise yields the inclusive pair. *)
Definition Limits_spec (r : Range) (N : Z) : outcome (Z * Z) :=
  let start := default 0 (Start r) in
  let end_ := default (N - 1) (End r) in
  if (end_ <? start) || (start <? 0) || (N <=? end_)
  then Error "invalid range"
  else Ok (start, end_).

(** Modelled from the spec: [DefaultValueFormatter], defined in another
    file of the package; it renders absence as the literal NaN. *)
Definition DefaultValueFormatter_spec (sprint : iface -> string) (v : iface)
  : string :=
  match v with
  | INil => "NaN"
  | _ => sprint v
  end.

Definition sample_Sprintf_v (v : iface) : string :=
  match v with
  | IInt64 z => Sprintf_d z
  | IOther s => s
  | _ => "?"
  end.

Definition sample_deps : Deps := {|
  growslice := fun _ needed => needed;
  maxElems := 2 ^ 45; (* 64-bit Linux: maxAlloc is 2^48 bytes *)
  Sprintf_v := sample_Sprintf_v;
  ParseFloat := fun _ => None;
  ParseInt := fun _ => None;
  DefaultValueFormatter := DefaultValueFormatter_spec sample_Sprintf_v;
  Limits := Limits_spec;
  Render := fun t => String.concat " " (headers t ++ concat (data t) ++ footers t)
|}.

(** ** Vocabulary of the statements *)

(** Every slice of a running program has its length within its capacity. *)
Definition slice_wf {A} (s : slice A) : Prop :=
  (length (elems s) <= cap s)%nat.

(** The range a variadic [r ...Range] stands for: its first element, or
    [Range{}] when none is given. *)
Definition first_range (r : list Range) : Range :=
  match r with
  | [] => Build_Range None None
  | r0 :: _ => r0
  end.

(** [l'] is [l] with the cells [i] and [j] exchanged and nothing else
    changed. *)
Definition exchanged {A} (l l' : list A) (i j : nat) : Prop :=
  length l' = length l /\
  l' !! i = l !! j /\
  l' !! j = l !! i /\
  (forall k, k <> i -> k <> j -> l' !! k = l !! k).

(** [l] with the block [xs] put in before cell [r]. *)
Definition insert_at {A} (l : list A) (r : nat) (xs : list A) : list A :=
  take r l ++ xs ++ drop r l.

(** The mutating operations of a series, and a sequence of them run
    from left to right; the run stops at the first panic. *)
Inductive mutation : Type :=
| DoPrepend (val : iface)
| DoAppend (val : iface)
| DoInsert (row : Z) (val : iface)
| DoRemove (row : Z)
| DoUpdate (row : Z) (val : iface).

Definition is_Prepend (o : mutation) : bool :=
  match o with DoPrepend _ => true | _ => false end.

Definition mutate_float `{Deps} (s : SeriesFloat64.SeriesFloat64) (o : mutation)
  : outcome SeriesFloat64.SeriesFloat64 :=
  match o with
  | DoPrepend val => SeriesFloat64.Prepend s val
  | DoAppend val => fst <$> SeriesFloat64.Append s val
  | DoInsert row val => SeriesFloat64.Insert s row val
  | DoRemove row => SeriesFloat64.Remove s row
  | DoUpdate row val => SeriesFloat64.Update s row val
  end.

Definition mutate_int `{Deps} (s : SeriesInt64.SeriesInt64) (o : mutation)
  : outcome SeriesInt64.SeriesInt64 :=
  match o with
  | DoPrepend val => SeriesInt64.Prepend s val
  | DoAppend val => fst <$> SeriesInt64.Append s val
  | DoInsert row val => SeriesInt64.Insert s row val
  | DoRemove row => SeriesInt64.Remove s row
  | DoUpdate row val => SeriesInt64.Update s row val
  end.

(** The central invariant: [nilCount] is the number of absent slots. *)
Definition counts_floats (s : SeriesFloat64.SeriesFloat64) : Prop :=
  SeriesFloat64.nilCount s = SeriesFloat64.absent_slots s.

Definition counts_ints (s : SeriesInt64.SeriesInt64) : Prop :=
  SeriesInt64.nilCount s = SeriesInt64.absent_slots s.

(** 1 for an absent value, 0 for a present one. *)
Definition one_if {A} (absent : A -> bool) (x : A) : Z :=
  if absent x then 1 else 0.

(** The options of an ascending and of a descending [Sort]. *)
Definition ascending : list Options := [].
Definition descending : list Options := [Build_Options false true].

(** What [Value] hands back for a cell of the storage. *)
Definition float_cell (x : float) : iface :=
  if isNaN x then INil else IFloat64 x.

Definition int_cell (p : option Z) : iface :=
  match p with None => INil | Some z => IInt64 z end.





(** The size a constructor is asked for: [init.Size], or 0 without [init]. *)
Definition init_size (init : option SeriesInit) : Z :=
  match init with Some i => Size i | None => 0 end.

(** The capacity a constructor asks [make] for: [init.Capacity], raised to
    the size when it is below it, or 0 without [init]. *)
Definition init_capacity (init : option SeriesInit) : Z :=
  match init with
  | Some i => if Capacity i <? Size i then Size i else Capacity i
  | None => 0
  end.

(** [le] holds from every earlier to every later element. *)
Inductive ordered {A} (le : A -> A -> Prop) : list A -> Prop :=
| ordered_nil : ordered le []
| ordered_cons x l : Forall (le x) l -> ordered le l -> ordered le (x :: l).

(** A list cut into ordered blocks of [bs] elements, the last one
    possibly shorter. *)
Inductive chunks {A} (le : A -> A -> Prop) (bs : nat) : list A -> Prop :=
| chunks_last B : (length B <= bs)%nat -> ordered le B -> chunks le bs B
| chunks_cons B l :
    length B = bs -> ordered le B -> chunks le bs l -> chunks le bs (B ++ l).

(** A list cut into ordered blocks of exactly [bs] elements. *)
Inductive full_chunks {A} (le : A -> A -> Prop) (bs : nat) : list A -> Prop :=
| full_chunks_nil : full_chunks le bs []
| full_chunks_cons B l :
    length B = bs -> ordered le B -> full_chunks le bs l ->
    full_chunks le bs (B ++ l).

(** The order of an ascending [Sort] on cells: an absent cell may stand
    before any cell, a present one only before a present one that is not
    smaller. *)
Definition float_le (x y : float) : Prop :=
  isNaN x = true \/ (isNaN y = false /\ (x <=? y)%float = true).

Definition int_le (x y : option Z) : Prop :=
  match x, y with
  | None, _ => True
  | Some _, None => False
  | Some a, Some b => a <= b
  end.

(** The direction [Sort] reads from its options. *)
Definition sort_descending (options : list Options) : bool :=
  match options with [] => false | o :: _ => SortDesc o end.

(** What [String] adds for a row whose text is [c]. *)
Definition String_add (out c : string) : string := out +:+ c +:+ " ".

(** A context that is never cancelled. *)
Definition background : forecast.Ctx := fun _ => None.

(** Concrete series for running the model. *)
Definition sample_formatter : ValueToStringFormatter :=
  DefaultValueFormatter_spec sample_Sprintf_v.

Definition floats (l : list float) (nilCount : Z) : SeriesFloat64.SeriesFloat64 :=
  SeriesFloat64.mk sample_formatter "x" (Slice l (length l)) nilCount.

Definition ints (l : list (option Z)) (nilCount : Z) : SeriesInt64.SeriesInt64 :=
  SeriesInt64.mk sample_formatter "x" (Slice l (length l)) nilCount.

(** * Properties *)

(** ** The comparators *)

(** C5: in both variants [IsLessThanFunc a b] is true whenever [a] is the
    absence marker, whatever [b] is (absent too, or present), and false
    whenever [a] is not the absence marker and [b] is. *)
Theorem IsLessThanFunc_absence :
  (forall b, SeriesFloat64.IsLessThanFunc INil b = Ok true) /\
  (forall a, a <> INil -> SeriesFloat64.IsLessThanFunc a INil = Ok false) /\
  (forall b, SeriesInt64.IsLessThanFunc INil b = Ok true) /\
  (forall a, a <> INil -> SeriesInt64.IsLessThanFunc a INil = Ok false).
Proof.
  repeat split.
  - intros b. destruct b; reflexivity.
  - intros a Ha. destruct a; try reflexivity. congruence.
  - intros b. destruct b; reflexivity.
  - intros a Ha. destruct a; try reflexivity. congruence.
Qed.

Lemma IsLessThanFunc_absence_witness :
  SeriesFloat64.IsLessThanFunc (IFloat64 1) INil = Ok false /\
  SeriesInt64.IsLessThanFunc (IInt64 1) INil = Ok false.
Proof.
  destruct IsLessThanFunc_absence as (_ & Hf & _ & Hi).
  split; [apply Hf | apply Hi]; discriminate.
Defined.

(** ** Indexing and storing *)

Lemma bind_Ok {A B} (a : A) (f : A -> outcome B) : (Ok a ≫= f) = f a.
Proof. reflexivity. Qed.

Section cells.
Context {A : Type}.
Implicit Types (l : list A) (i : Z) (x : A).

Lemma index_lookup l i x :
  0 <= i -> l !! Z.to_nat i = Some x -> index l i = Ok x.
Proof.
  intros Hi Hx. unfold index.
  destruct (Z.leb_spec 0 i); [|lia]. now rewrite Hx.
Qed.

Lemma index_Ok_inv l i x :
  index l i = Ok x -> 0 <= i < Z.of_nat (length l) /\ l !! Z.to_nat i = Some x.
Proof.
  unfold index. destruct (Z.leb_spec 0 i) as [Hi|Hi]; [|discriminate].
  destruct (l !! Z.to_nat i) as [y|] eqn:Hy; [|discriminate].
  intros [= ->]. apply lookup_lt_Some in Hy as Hlt. split; [lia|done].
Qed.

Lemma index_in_range l i :
  0 <= i < Z.of_nat (length l) -> exists x, index l i = Ok x /\ l !! Z.to_nat i = Some x.
Proof.
  intros Hi. destruct (lookup_lt_is_Some_2 l (Z.to_nat i)) as [x Hx]; [lia|].
  exists x. split; [apply index_lookup; [lia|done]|done].
Qed.

Lemma store_in_range l i x :
  0 <= i < Z.of_nat (length l) -> store l i x = Ok (<[Z.to_nat i := x]> l).
Proof.
  intros Hi. unfold store.
  destruct (Z.leb_spec 0 i); [|lia].
  destruct (Z.ltb_spec i (Z.of_nat (length l))); [done|lia].
Qed.

Lemma store_Ok_inv l i x l' :
  store l i x = Ok l' ->
  0 <= i < Z.of_nat (length l) /\ l' = <[Z.to_nat i := x]> l.
Proof.
  unfold store. destruct (Z.leb_spec 0 i); [|discriminate].
  destruct (Z.ltb_spec i (Z.of_nat (length l))); [|discriminate].
  intros [= <-]. split; [lia|done].
Qed.

Lemma slice_from_in_range l i :
  0 <= i <= Z.of_nat (length l) -> slice_from l i = Ok (Z.to_nat i).
Proof.
  intros Hi. unfold slice_from.
  destruct (Z.leb_spec 0 i); [|lia].
  destruct (Z.leb_spec i (Z.of_nat (length l))); [done|lia].
Qed.

Lemma slice_from_Ok_inv l i n :
  slice_from l i = Ok n -> 0 <= i <= Z.of_nat (length l) /\ n = Z.to_nat i.
Proof.
  unfold slice_from. destruct (Z.leb_spec 0 i); [|discriminate].
  destruct (Z.leb_spec i (Z.of_nat (length l))); [|discriminate].
  intros [= <-]. split; [lia|done].
Qed.

Lemma exchanged_insert l (i j : nat) x y :
  l !! i = Some x -> l !! j = Some y ->
  exchanged l (<[j := x]> (<[i := y]> l)) i j.
Proof.
  intros Hx Hy.
  assert (Hi : (i < length l)%nat) by (eapply lookup_lt_Some; eauto).
  assert (Hj : (j < length l)%nat) by (eapply lookup_lt_Some; eauto).
  unfold exchanged. rewrite !length_insert. split; [done|].
  split; [|split].
  - destruct (decide (i = j)) as [->|Hne].
    + rewrite list_lookup_insert_eq by (rewrite length_insert; lia). congruence.
    + rewrite list_lookup_insert_ne by done.
      rewrite list_lookup_insert_eq by lia. congruence.
  - rewrite list_lookup_insert_eq by (rewrite length_insert; lia). congruence.
  - intros k Hki Hkj. now rewrite !list_lookup_insert_ne by done.
Qed.

(** The cells [Swap] reads and the stores it makes after the test
    [row1 == row2]. *)
Lemma swap_cells l (row1 row2 : Z) :
  0 <= row1 < Z.of_nat (length l) -> 0 <= row2 < Z.of_nat (length l) ->
  exists x1 x2 l1 l2,
    index l row2 = Ok x2 /\ index l row1 = Ok x1 /\
    store l row1 x2 = Ok l1 /\ store l1 row2 x1 = Ok l2 /\
    exchanged l l2 (Z.to_nat row1) (Z.to_nat row2).
Proof.
  intros H1 H2.
  destruct (index_in_range l row1 H1) as (x1 & E1 & L1).
  destruct (index_in_range l row2 H2) as (x2 & E2 & L2).
  exists x1, x2, (<[Z.to_nat row1 := x2]> l),
    (<[Z.to_nat row2 := x1]> (<[Z.to_nat row1 := x2]> l)).
  repeat split; try done.
  - now apply store_in_range.
  - apply store_in_range. now rewrite length_insert.
  - now apply exchanged_insert.
  - now apply exchanged_insert.
  - now apply exchanged_insert.
  - now apply exchanged_insert.
Qed.

End cells.

(** ** Swap *)

(** C8: for valid rows [row1 <> row2], [Swap] exchanges the two cells and
    leaves every other cell, the length, the capacity, the name, the
    formatter and [nilCount] as they were; for [row1 = row2], whatever the
    integer, [Swap] returns the series unchanged.  Both variants. *)
Theorem Swap_exchanges_two_rows :
  (forall (s : SeriesFloat64.SeriesFloat64) (row1 row2 : Z),
      0 <= row1 < SeriesFloat64.NRows s ->
      0 <= row2 < SeriesFloat64.NRows s ->
      row1 <> row2 ->
      exists s', SeriesFloat64.Swap s row1 row2 = Ok s' /\
        exchanged (elems (SeriesFloat64.Values s)) (elems (SeriesFloat64.Values s'))
                  (Z.to_nat row1) (Z.to_nat row2) /\
        cap (SeriesFloat64.Values s') = cap (SeriesFloat64.Values s) /\
        SeriesFloat64.name s' = SeriesFloat64.name s /\
        SeriesFloat64.valFormatter s' = SeriesFloat64.valFormatter s /\
        SeriesFloat64.nilCount s' = SeriesFloat64.nilCount s) /\
  (forall (s : SeriesFloat64.SeriesFloat64) (row : Z),
      SeriesFloat64.Swap s row row = Ok s) /\
  (forall (s : SeriesInt64.SeriesInt64) (row1 row2 : Z),
      0 <= row1 < SeriesInt64.NRows s ->
      0 <= row2 < SeriesInt64.NRows s ->
      row1 <> row2 ->
      exists s', SeriesInt64.Swap s row1 row2 = Ok s' /\
        exchanged (elems (SeriesInt64.values s)) (elems (SeriesInt64.values s'))
                  (Z.to_nat row1) (Z.to_nat row2) /\
        cap (SeriesInt64.values s') = cap (SeriesInt64.values s) /\
        SeriesInt64.name s' = SeriesInt64.name s /\
        SeriesInt64.valFormatter s' = SeriesInt64.valFormatter s /\
        SeriesInt64.nilCount s' = SeriesInt64.nilCount s) /\
  (forall (s : SeriesInt64.SeriesInt64) (row : Z),
      SeriesInt64.Swap s row row = Ok s).
Proof.
  split; [|split; [|split]].
  - intros s row1 row2 H1 H2 Hne. unfold SeriesFloat64.Swap.
    destruct (Z.eqb_spec row1 row2); [done|].
    destruct (swap_cells (elems (SeriesFloat64.Values s)) row1 row2 H1 H2)
      as (x1 & x2 & l1 & l2 & E2 & E1 & S1 & S2 & Hex).
    exists (SeriesFloat64.with_Values s (Slice l2 (cap (SeriesFloat64.Values s)))).
    split; [|split; [exact Hex|by repeat split]].
    now rewrite E2, bind_Ok, E1, bind_Ok, S1, bind_Ok, S2, bind_Ok.
  - intros s row. unfold SeriesFloat64.Swap. now rewrite Z.eqb_refl.
  - intros s row1 row2 H1 H2 Hne. unfold SeriesInt64.Swap.
    destruct (Z.eqb_spec row1 row2); [done|].
    destruct (swap_cells (elems (SeriesInt64.values s)) row1 row2 H1 H2)
      as (x1 & x2 & l1 & l2 & E2 & E1 & S1 & S2 & Hex).
    exists (SeriesInt64.with_values s (Slice l2 (cap (SeriesInt64.values s)))).
    split; [|split; [exact Hex|by repeat split]].
    now rewrite E2, bind_Ok, E1, bind_Ok, S1, bind_Ok, S2, bind_Ok.
  - intros s row. unfold SeriesInt64.Swap. now rewrite Z.eqb_refl.
Qed.

Lemma Swap_exchanges_two_rows_witness :
  let s := floats [3%float; nan; 1%float] 1 in
  (0 <= 0 < SeriesFloat64.NRows s) /\ (0 <= 2 < SeriesFloat64.NRows s) /\ 0 <> 2 /\
  exists s', SeriesFloat64.Swap s 0 2 = Ok s' /\
    exchanged (elems (SeriesFloat64.Values s)) (elems (SeriesFloat64.Values s')) 0 2 /\
    cap (SeriesFloat64.Values s') = cap (SeriesFloat64.Values s) /\
    SeriesFloat64.name s' = SeriesFloat64.name s /\
    SeriesFloat64.valFormatter s' = SeriesFloat64.valFormatter s /\
    SeriesFloat64.nilCount s' = SeriesFloat64.nilCount s.
Proof.
  intros s.
  assert (H0 : 0 <= 0 < SeriesFloat64.NRows s) by (vm_compute; split; congruence).
  assert (H2 : 0 <= 2 < SeriesFloat64.NRows s) by (vm_compute; split; congruence).
  assert (Hne : 0 <> 2) by discriminate.
  split; [exact H0|]. split; [exact H2|]. split; [exact Hne|].
  exact (proj1 Swap_exchanges_two_rows s 0 2 H0 H2 Hne).
Defined.

(** ** Copy, Table and the forecast on a series without rows *)

Section empty_series.
Context `{D : Deps}.

Lemma first_range_index (r : list Range) :
  index (match r with [] => [Build_Range None None] | _ => r end) 0
  = Ok (first_range r).
Proof. destruct r; reflexivity. Qed.

Lemma Copy_float_empty (s : SeriesFloat64.SeriesFloat64) (r : list Range) :
  SeriesFloat64.NRows s = 0 ->
  SeriesFloat64.Copy s r
  = Ok (SeriesFloat64.mk (SeriesFloat64.valFormatter s) (SeriesFloat64.name s)
          (Slice [] 0) (SeriesFloat64.nilCount s)).
Proof.
  unfold SeriesFloat64.NRows, SeriesFloat64.Copy. intros ->. reflexivity.
Qed.

Lemma Copy_int_empty (s : SeriesInt64.SeriesInt64) (r : list Range) :
  SeriesInt64.NRows s = 0 ->
  SeriesInt64.Copy s r
  = Ok (SeriesInt64.mk (SeriesInt64.valFormatter s) (SeriesInt64.name s)
          (Slice [] 0) (SeriesInt64.nilCount s)).
Proof.
  unfold SeriesInt64.NRows, SeriesInt64.Copy. intros ->. reflexivity.
Qed.

Lemma Table_float_empty (s : SeriesFloat64.SeriesFloat64) (r : list Range) :
  SeriesFloat64.NRows s = 0 ->
  SeriesFloat64.Table s r
  = Ok (Render (Build_table [""; SeriesFloat64.name s] [] ["0x1"; "float64"])).
Proof.
  unfold SeriesFloat64.NRows, SeriesFloat64.Table. intros ->. reflexivity.
Qed.

Lemma Table_int_empty (s : SeriesInt64.SeriesInt64) (r : list Range) :
  SeriesInt64.NRows s = 0 ->
  SeriesInt64.Table s r
  = Ok (Render (Build_table [""; SeriesInt64.name s] [] ["0x1"; "int64"])).
Proof.
  unfold SeriesInt64.NRows, SeriesInt64.Table. intros ->. reflexivity.
Qed.

Lemma SimpleExponentialSmoothing_empty (ctx : forecast.Ctx)
    (s : SeriesFloat64.SeriesFloat64) (α : float) (m : Z) (r : list Range) :
  SeriesFloat64.NRows s = 0 ->
  forecast.SimpleExponentialSmoothing ctx s α m r
  = Error "no values in series range".
Proof.
  unfold SeriesFloat64.NRows, forecast.SimpleExponentialSmoothing.
  intros ->. reflexivity.
Qed.

End empty_series.

(** C10: [Copy] of a series without rows returns, for every range
    argument and whatever [Limits] would answer, the empty series that
    carries the name, the formatter and the [nilCount] of the source; it
    neither panics nor returns an error.  Both variants. *)
Theorem Copy_of_series_without_rows (D : Deps) :
  (forall (s : SeriesFloat64.SeriesFloat64) (r : list Range),
      SeriesFloat64.NRows s = 0 ->
      SeriesFloat64.Copy s r
      = Ok (SeriesFloat64.mk (SeriesFloat64.valFormatter s) (SeriesFloat64.name s)
              (Slice [] 0) (SeriesFloat64.nilCount s))) /\
  (forall (s : SeriesInt64.SeriesInt64) (r : list Range),
      SeriesInt64.NRows s = 0 ->
      SeriesInt64.Copy s r
      = Ok (SeriesInt64.mk (SeriesInt64.valFormatter s) (SeriesInt64.name s)
              (Slice [] 0) (SeriesInt64.nilCount s))).
Proof.
  split; intros s r Hs.
  - now apply Copy_float_empty.
  - now apply Copy_int_empty.
Qed.

(** The range of the witness is out of bounds and has its start after
    its end: resolving it would fail. *)
Lemma Copy_of_series_without_rows_witness :
  let s := floats [] 3 in
  let r := [Build_Range (Some 5) (Some 2)] in
  SeriesFloat64.NRows s = 0 /\
  Limits_spec (first_range r) (SeriesFloat64.NRows s) = Error "invalid range" /\
  @SeriesFloat64.Copy sample_deps s r
  = Ok (SeriesFloat64.mk sample_formatter "x" (Slice [] 0) 3).
Proof.
  intros s r.
  assert (Hs : SeriesFloat64.NRows s = 0) by reflexivity.
  split; [exact Hs|]. split; [reflexivity|].
  exact (proj1 (Copy_of_series_without_rows sample_deps) s r Hs).
Defined.

(** C3, as the code has it: on a series without rows none of the three
    callers resolves the range.  [Copy] returns the empty series and
    [Table] the rendering of a table without rows, both normally;
    [SimpleExponentialSmoothing] returns the error "no values in series
    range".  None of them panics. *)
Theorem callers_on_series_without_rows (D : Deps) :
  forall (sf : SeriesFloat64.SeriesFloat64) (si : SeriesInt64.SeriesInt64)
         (r : list Range) (ctx : forecast.Ctx) (α : float) (m : Z),
    SeriesFloat64.NRows sf = 0 ->
    SeriesInt64.NRows si = 0 ->
    SeriesFloat64.Copy sf r
    = Ok (SeriesFloat64.mk (SeriesFloat64.valFormatter sf) (SeriesFloat64.name sf)
            (Slice [] 0) (SeriesFloat64.nilCount sf)) /\
    SeriesInt64.Copy si r
    = Ok (SeriesInt64.mk (SeriesInt64.valFormatter si) (SeriesInt64.name si)
            (Slice [] 0) (SeriesInt64.nilCount si)) /\
    SeriesFloat64.Table sf r
    = Ok (Render (Build_table [""; SeriesFloat64.name sf] [] ["0x1"; "float64"])) /\
    SeriesInt64.Table si r
    = Ok (Render (Build_table [""; SeriesInt64.name si] [] ["0x1"; "int64"])) /\
    forecast.SimpleExponentialSmoothing ctx sf α m r
    = Error "no values in series range".
Proof.
  intros sf si r ctx α m Hf Hi. repeat split.
  - now apply Copy_float_empty.
  - now apply Copy_int_empty.
  - now apply Table_float_empty.
  - now apply Table_int_empty.
  - now apply SimpleExponentialSmoothing_empty.
Qed.

Lemma callers_on_series_without_rows_witness :
  let sf := floats [] 0 in
  let si := ints [] 0 in
  let r := [Build_Range None None] in
  SeriesFloat64.NRows sf = 0 /\ SeriesInt64.NRows si = 0 /\
  is_error (@SeriesFloat64.Copy sample_deps sf r) = false /\
  is_panic (@SeriesFloat64.Copy sample_deps sf r) = false /\
  is_error (@SeriesFloat64.Table sample_deps sf r) = false /\
  is_panic (@SeriesFloat64.Table sample_deps sf r) = false /\
  is_error (@forecast.SimpleExponentialSmoothing sample_deps background sf 0.5 2 r)
  = true.
Proof.
  intros sf si r.
  assert (Hf : SeriesFloat64.NRows sf = 0) by reflexivity.
  assert (Hi : SeriesInt64.NRows si = 0) by reflexivity.
  split; [exact Hf|]. split; [exact Hi|].
  destruct (callers_on_series_without_rows sample_deps sf si r background 0.5 2 Hf Hi)
    as (Hc & _ & Ht & _ & Hs).
  rewrite Hc, Ht, Hs. repeat split.
Defined.

(** C3, as stated, fails: with the default range on a series without
    rows, [Copy] hands back a series and [Table] a string, not an error. *)
Lemma Copy_Table_without_rows_return_no_error :
  is_error (@SeriesFloat64.Copy sample_deps (floats [] 0) [Build_Range None None])
  = false /\
  is_error (@SeriesFloat64.Table sample_deps (floats [] 0) [Build_Range None None])
  = false.
Proof. split; reflexivity. Qed.

(** ** Copy of a range *)

(** The limits modelled from the specification are within the rows. *)
Lemma Limits_spec_bounds (r : Range) (N start end_ : Z) :
  Limits_spec r N = Ok (start, end_) -> 0 <= start <= end_ /\ end_ < N.
Proof.
  unfold Limits_spec.
  destruct (Z.ltb_spec (default (N - 1) (End r)) (default 0 (Start r)));
    [discriminate|].
  destruct (Z.ltb_spec (default 0 (Start r)) 0); [discriminate|].
  destruct (Z.leb_spec N (default (N - 1) (End r))); [discriminate|].
  intros [= <- <-]. lia.
Qed.

Section copy_range.
Context `{D : Deps}.

Lemma Copy_float_range (s : SeriesFloat64.SeriesFloat64) (r : list Range)
    (start end_ : Z) :
  slice_wf (SeriesFloat64.Values s) ->
  Limits (first_range r) (SeriesFloat64.NRows s) = Ok (start, end_) ->
  0 <= start <= end_ -> end_ < SeriesFloat64.NRows s ->
  SeriesFloat64.Copy s r
  = Ok (SeriesFloat64.mk (SeriesFloat64.valFormatter s) (SeriesFloat64.name s)
          (append (Slice [] 0) (window (elems (SeriesFloat64.Values s)) start end_))
          (SeriesFloat64.nilCount s)).
Proof.
  unfold slice_wf, SeriesFloat64.NRows, SeriesFloat64.Copy, len.
  intros Hwf HL Hse He.
  destruct (Z.eqb_spec (Z.of_nat (length (elems (SeriesFloat64.Values s)))) 0);
    [lia|].
  rewrite first_range_index, bind_Ok. unfold len. rewrite HL.
  destruct (Z.leb_spec 0 start); [|lia].
  destruct (Z.leb_spec start (end_ + 1)); [|lia].
  destruct (Z.leb_spec (end_ + 1) (Z.of_nat (cap (SeriesFloat64.Values s)))); [|lia].
  reflexivity.
Qed.

Lemma Copy_int_range (s : SeriesInt64.SeriesInt64) (r : list Range)
    (start end_ : Z) :
  slice_wf (SeriesInt64.values s) ->
  Limits (first_range r) (SeriesInt64.NRows s) = Ok (start, end_) ->
  0 <= start <= end_ -> end_ < SeriesInt64.NRows s ->
  SeriesInt64.Copy s r
  = Ok (SeriesInt64.mk (SeriesInt64.valFormatter s) (SeriesInt64.name s)
          (append (Slice [] 0) (window (elems (SeriesInt64.values s)) start end_))
          (SeriesInt64.nilCount s)).
Proof.
  unfold slice_wf, SeriesInt64.NRows, SeriesInt64.Copy, len.
  intros Hwf HL Hse He.
  destruct (Z.eqb_spec (Z.of_nat (length (elems (SeriesInt64.values s)))) 0);
    [lia|].
  rewrite first_range_index, bind_Ok. unfold len. rewrite HL.
  destruct (Z.leb_spec 0 start); [|lia].
  destruct (Z.leb_spec start (end_ + 1)); [|lia].
  destruct (Z.leb_spec (end_ + 1) (Z.of_nat (cap (SeriesInt64.values s)))); [|lia].
  reflexivity.
Qed.

End copy_range.

(** C9: when the range resolves to rows [start..end] of a series with
    rows, [Copy] returns a series holding exactly these rows whose
    [nilCount] is the [nilCount] of the whole source, in both variants;
    and there is a series that counts its absent slots exactly whose copy
    of a range has a [nilCount] above the number of absent slots the copy
    holds. *)
Theorem Copy_keeps_the_source_nilCount :
  (forall (D : Deps) (s : SeriesFloat64.SeriesFloat64) (r : list Range)
          (start end_ : Z),
      slice_wf (SeriesFloat64.Values s) ->
      Limits (first_range r) (SeriesFloat64.NRows s) = Ok (start, end_) ->
      0 <= start <= end_ -> end_ < SeriesFloat64.NRows s ->
      exists c, SeriesFloat64.Copy s r = Ok c /\
        elems (SeriesFloat64.Values c)
        = window (elems (SeriesFloat64.Values s)) start end_ /\
        SeriesFloat64.nilCount c = SeriesFloat64.nilCount s) /\
  (forall (D : Deps) (s : SeriesInt64.SeriesInt64) (r : list Range)
          (start end_ : Z),
      slice_wf (SeriesInt64.values s) ->
      Limits (first_range r) (SeriesInt64.NRows s) = Ok (start, end_) ->
      0 <= start <= end_ -> end_ < SeriesInt64.NRows s ->
      exists c, SeriesInt64.Copy s r = Ok c /\
        elems (SeriesInt64.values c)
        = window (elems (SeriesInt64.values s)) start end_ /\
        SeriesInt64.nilCount c = SeriesInt64.nilCount s) /\
  (exists s r c,
      SeriesFloat64.nilCount s = SeriesFloat64.absent_slots s /\
      @SeriesFloat64.Copy sample_deps s r = Ok c /\
      SeriesFloat64.absent_slots c < SeriesFloat64.nilCount c) /\
  (exists s r c,
      SeriesInt64.nilCount s = SeriesInt64.absent_slots s /\
      @SeriesInt64.Copy sample_deps s r = Ok c /\
      SeriesInt64.absent_slots c < SeriesInt64.nilCount c).
Proof.
  split; [|split; [|split]].
  - intros D s r start end_ Hwf HL Hse He. eexists. split.
    + apply Copy_float_range; eassumption.
    + split; [apply app_nil_l|reflexivity].
  - intros D s r start end_ Hwf HL Hse He. eexists. split.
    + apply Copy_int_range; eassumption.
    + split; [apply app_nil_l|reflexivity].
  - exists (floats [nan; 1%float] 1), [Build_Range (Some 1) (Some 1)].
    eexists. split; [reflexivity|]. split; [reflexivity|]. reflexivity.
  - exists (ints [None; Some 1] 1), [Build_Range (Some 1) (Some 1)].
    eexists. split; [reflexivity|]. split; [reflexivity|]. reflexivity.
Qed.

Lemma Copy_keeps_the_source_nilCount_witness :
  let s := floats [nan; 1%float; nan] 2 in
  let r := [Build_Range (Some 1) (Some 1)] in
  slice_wf (SeriesFloat64.Values s) /\
  @Limits sample_deps (first_range r) (SeriesFloat64.NRows s) = Ok (1, 1) /\
  exists c, @SeriesFloat64.Copy sample_deps s r = Ok c /\
    elems (SeriesFloat64.Values c) = [1%float] /\
    SeriesFloat64.nilCount c = 2.
Proof.
  intros s r.
  assert (Hwf : slice_wf (SeriesFloat64.Values s)) by (vm_compute; lia).
  assert (HL : @Limits sample_deps (first_range r) (SeriesFloat64.NRows s) = Ok (1, 1))
    by reflexivity.
  split; [exact Hwf|]. split; [exact HL|].
  refine (proj1 Copy_keeps_the_source_nilCount sample_deps s r 1 1 Hwf HL _ _).
  - lia.
  - reflexivity.
Defined.

(** ** Insertion of a scalar *)

Lemma length_copy_within {A} (l : list A) (d s : nat) :
  length (copy_within l d s) = length l.
Proof.
  unfold copy_within. rewrite !length_app, !length_take, !length_drop. lia.
Qed.

Lemma insert_copy_within {A} (l : list A) (r : nat) (c v : A) :
  (r <= length l)%nat ->
  <[r := v]> (copy_within (l ++ [c]) (S r) r) = insert_at l r [v].
Proof.
  intros Hr. unfold copy_within, insert_at.
  rewrite length_app. simpl length.
  replace (Nat.min (length l + 1 - S r) (length l + 1 - r))
    with (length l - r)%nat by lia.
  rewrite drop_app_le by lia.
  rewrite (take_app_length' (drop r l)) by (rewrite length_drop; lia).
  rewrite (drop_ge (l ++ [c])) by (rewrite length_app; simpl; lia).
  rewrite app_nil_r.
  destruct (lookup_lt_is_Some_2 (l ++ [c]) r) as [y Hy];
    [rewrite length_app; simpl; lia|].
  rewrite (take_S_r _ _ _ Hy), take_app_le by lia.
  rewrite <- app_assoc. simpl.
  replace r with (length (take r l) + 0)%nat at 1 by (rewrite length_take; lia).
  rewrite insert_app_r. reflexivity.
Qed.

(** What a scalar insert does to the storage: one more cell, the rows
    from [row] on moved up, the store. *)
Lemma scalar_insert_cells {A} (l : list A) (row : Z) (c v : A) :
  0 <= row <= Z.of_nat (length l) ->
  slice_from (l ++ [c]) (row + 1) = Ok (S (Z.to_nat row)) /\
  slice_from (l ++ [c]) row = Ok (Z.to_nat row) /\
  store (copy_within (l ++ [c]) (S (Z.to_nat row)) (Z.to_nat row)) row v
  = Ok (insert_at l (Z.to_nat row) [v]).
Proof.
  intros Hr. split; [|split].
  - rewrite slice_from_in_range by (rewrite length_app; simpl; lia).
    f_equal. lia.
  - apply slice_from_in_range. rewrite length_app; simpl; lia.
  - rewrite store_in_range
      by (rewrite length_copy_within, length_app; simpl; lia).
    f_equal. apply insert_copy_within. lia.
Qed.

Lemma insert_at_end {A} (l : list A) (xs : list A) :
  insert_at l (length l) xs = l ++ xs.
Proof.
  unfold insert_at. now rewrite take_ge, drop_ge, app_nil_r by lia.
Qed.

Lemma index_app_end {A} (l : list A) (x : A) :
  index (l ++ [x]) (Z.of_nat (length l)) = Ok x.
Proof.
  apply index_lookup; [lia|].
  rewrite Nat2Z.id. now rewrite lookup_app_r, Nat.sub_diag by lia.
Qed.

Section scalar_insert.
Context `{D : Deps}.

Lemma insert_float_scalar (s : SeriesFloat64.SeriesFloat64) (row : Z)
    (val : iface) (v : float) :
  (forall V, val <> ISliceFloat64 V) ->
  SeriesFloat64.valToPointer val = Ok v ->
  0 <= row <= SeriesFloat64.NRows s ->
  SeriesFloat64.insert s row val
  = Ok (SeriesFloat64.mk (SeriesFloat64.valFormatter s) (SeriesFloat64.name s)
          (Slice (insert_at (elems (SeriesFloat64.Values s)) (Z.to_nat row) [v])
                 (cap (append (SeriesFloat64.Values s) [nan])))
          (SeriesFloat64.nilCount s + (if isNaN v then 1 else 0))).
Proof.
  intros Hb Hv Hr.
  destruct (scalar_insert_cells (elems (SeriesFloat64.Values s)) row nan v Hr)
    as (E1 & E2 & E3).
  unfold SeriesFloat64.insert.
  destruct val; try (exfalso; eapply Hb; reflexivity);
    cbn [elems append]; rewrite E1, bind_Ok, E2, bind_Ok, Hv, bind_Ok;
    (destruct (isNaN v); cbn -[append];
     rewrite E3, bind_Ok; unfold SeriesFloat64.with_Values; cbn -[append];
     rewrite ?Z.add_0_r; reflexivity).
Qed.

(** The second [valToPointer] of the integer [insert] copies the box. *)
Lemma valToPointer_int_again (v : option Z) :
  SeriesInt64.valToPointer (IPtrInt64 v) = Ok v.
Proof. destruct v; reflexivity. Qed.

Lemma insert_int_scalar (s : SeriesInt64.SeriesInt64) (row : Z)
    (val : iface) (v : option Z) :
  (forall V, val <> ISliceInt64 V) ->
  (forall V, val <> ISlicePtrInt64 V) ->
  SeriesInt64.valToPointer val = Ok v ->
  0 <= row <= SeriesInt64.NRows s ->
  SeriesInt64.insert s row val
  = Ok (SeriesInt64.mk (SeriesInt64.valFormatter s) (SeriesInt64.name s)
          (Slice (insert_at (elems (SeriesInt64.values s)) (Z.to_nat row) [v])
                 (cap (append (SeriesInt64.values s) [None])))
          (SeriesInt64.nilCount s + (if SeriesInt64.isNil v then 1 else 0))).
Proof.
  intros Hb Hb' Hv Hr.
  destruct (scalar_insert_cells (elems (SeriesInt64.values s)) row None v Hr)
    as (E1 & E2 & E3).
  unfold SeriesInt64.insert.
  destruct val;
    try (exfalso; eapply Hb; reflexivity);
    try (exfalso; eapply Hb'; reflexivity);
    cbn [elems append]; rewrite E1, bind_Ok, E2, bind_Ok, Hv, bind_Ok;
    rewrite valToPointer_int_again, bind_Ok;
    (destruct (SeriesInt64.isNil v); cbn -[append];
     rewrite E3, bind_Ok; unfold SeriesInt64.with_values; cbn -[append];
     rewrite ?Z.add_0_r; reflexivity).
Qed.

(** [Append] of a scalar: the row returned is the old row count, and the
    new storage is the old one followed by the value. *)
Lemma Append_float_scalar (s : SeriesFloat64.SeriesFloat64) (val : iface)
    (v : float) :
  (forall V, val <> ISliceFloat64 V) ->
  SeriesFloat64.valToPointer val = Ok v ->
  exists s', SeriesFloat64.Append s val = Ok (s', SeriesFloat64.NRows s) /\
    elems (SeriesFloat64.Values s') = elems (SeriesFloat64.Values s) ++ [v] /\
    SeriesFloat64.Value s' (SeriesFloat64.NRows s)
    = Ok (if isNaN v then INil else IFloat64 v).
Proof.
  intros Hb Hv. unfold SeriesFloat64.Append.
  rewrite (insert_float_scalar s _ val v Hb Hv), bind_Ok
    by (unfold SeriesFloat64.NRows, len; lia).
  eexists. split; [reflexivity|].
  unfold SeriesFloat64.NRows, len, SeriesFloat64.Value. cbn -[append].
  rewrite Nat2Z.id, insert_at_end. split; [reflexivity|].
  rewrite index_app_end, bind_Ok. now destruct (isNaN v).
Qed.

Lemma Append_int_scalar (s : SeriesInt64.SeriesInt64) (val : iface)
    (v : option Z) :
  (forall V, val <> ISliceInt64 V) ->
  (forall V, val <> ISlicePtrInt64 V) ->
  SeriesInt64.valToPointer val = Ok v ->
  exists s', SeriesInt64.Append s val = Ok (s', SeriesInt64.NRows s) /\
    elems (SeriesInt64.values s') = elems (SeriesInt64.values s) ++ [v] /\
    SeriesInt64.Value s' (SeriesInt64.NRows s)
    = Ok (match v with None => INil | Some z => IInt64 z end).
Proof.
  intros Hb Hb' Hv. unfold SeriesInt64.Append.
  rewrite (insert_int_scalar s _ val v Hb Hb' Hv), bind_Ok
    by (unfold SeriesInt64.NRows, len; lia).
  eexists. split; [reflexivity|].
  unfold SeriesInt64.NRows, len, SeriesInt64.Value. cbn -[append].
  rewrite Nat2Z.id, insert_at_end. split; [reflexivity|].
  rewrite index_app_end, bind_Ok. now destruct v.
Qed.

End scalar_insert.

(** C6: on a series that holds N rows before the call, N being the
    length of its storage, [Append v] returns N and leaves the N rows as
    they were with one new row behind them; [Value] at the returned row
    then yields [v] when [v] is a present value of the native type and
    the absence marker when [v] is the absence marker (nil, or for the
    float variant the sentinel itself).  Both variants; [Append] does not
    fail. *)
Theorem Append_then_Value (D : Deps) :
  (forall (s : SeriesFloat64.SeriesFloat64),
      let N := Z.of_nat (length (elems (SeriesFloat64.Values s))) in
      exists s', SeriesFloat64.Append s INil = Ok (s', N) /\
        elems (SeriesFloat64.Values s') = elems (SeriesFloat64.Values s) ++ [nan] /\
        SeriesFloat64.Value s' N = Ok INil) /\
  (forall (s : SeriesFloat64.SeriesFloat64) (f : float),
      let N := Z.of_nat (length (elems (SeriesFloat64.Values s))) in
      isNaN f = false ->
      exists s', SeriesFloat64.Append s (IFloat64 f) = Ok (s', N) /\
        elems (SeriesFloat64.Values s') = elems (SeriesFloat64.Values s) ++ [f] /\
        SeriesFloat64.Value s' N = Ok (IFloat64 f)) /\
  (forall (s : SeriesFloat64.SeriesFloat64) (f : float),
      let N := Z.of_nat (length (elems (SeriesFloat64.Values s))) in
      isNaN f = true ->
      exists s', SeriesFloat64.Append s (IFloat64 f) = Ok (s', N) /\
        elems (SeriesFloat64.Values s') = elems (SeriesFloat64.Values s) ++ [f] /\
        SeriesFloat64.Value s' N = Ok INil) /\
  (forall (s : SeriesInt64.SeriesInt64),
      let N := Z.of_nat (length (elems (SeriesInt64.values s))) in
      exists s', SeriesInt64.Append s INil = Ok (s', N) /\
        elems (SeriesInt64.values s') = elems (SeriesInt64.values s) ++ [None] /\
        SeriesInt64.Value s' N = Ok INil) /\
  (forall (s : SeriesInt64.SeriesInt64) (z : Z),
      let N := Z.of_nat (length (elems (SeriesInt64.values s))) in
      exists s', SeriesInt64.Append s (IInt64 z) = Ok (s', N) /\
        elems (SeriesInt64.values s') = elems (SeriesInt64.values s) ++ [Some z] /\
        SeriesInt64.Value s' N = Ok (IInt64 z)).
Proof.
  split; [|split; [|split; [|split]]].
  - intros s N.
    destruct (Append_float_scalar s INil nan) as (s' & Ha & He & Hv);
      [discriminate|reflexivity|].
    exists s'. split; [exact Ha|split; [exact He|exact Hv]].
  - intros s f N Hf.
    destruct (Append_float_scalar s (IFloat64 f) f) as (s' & Ha & He & Hv);
      [discriminate|reflexivity|].
    exists s'. split; [exact Ha|split; [exact He|]].
    unfold SeriesFloat64.NRows, len in Hv. now rewrite Hf in Hv.
  - intros s f N Hf.
    destruct (Append_float_scalar s (IFloat64 f) f) as (s' & Ha & He & Hv);
      [discriminate|reflexivity|].
    exists s'. split; [exact Ha|split; [exact He|]].
    unfold SeriesFloat64.NRows, len in Hv. now rewrite Hf in Hv.
  - intros s N.
    destruct (Append_int_scalar s INil None) as (s' & Ha & He & Hv);
      [discriminate|discriminate|reflexivity|].
    exists s'. split; [exact Ha|split; [exact He|exact Hv]].
  - intros s z N.
    destruct (Append_int_scalar s (IInt64 z) (Some z)) as (s' & Ha & He & Hv);
      [discriminate|discriminate|reflexivity|].
    exists s'. split; [exact Ha|split; [exact He|exact Hv]].
Qed.

Lemma Append_then_Value_witness :
  let s := floats [1%float; nan] 1 in
  let t := ints [Some 4; None; Some 6] 1 in
  isNaN 2%float = false /\
  (exists s', @SeriesFloat64.Append sample_deps s (IFloat64 2) = Ok (s', 2) /\
     elems (SeriesFloat64.Values s') = [1%float; nan; 2%float] /\
     SeriesFloat64.Value s' 2 = Ok (IFloat64 2)) /\
  (exists t', @SeriesInt64.Append sample_deps t (IInt64 7) = Ok (t', 3) /\
     elems (SeriesInt64.values t') = [Some 4; None; Some 6; Some 7] /\
     SeriesInt64.Value t' 3 = Ok (IInt64 7)) /\
  (exists t', @SeriesInt64.Append sample_deps t INil = Ok (t', 3) /\
     elems (SeriesInt64.values t') = [Some 4; None; Some 6; None] /\
     SeriesInt64.Value t' 3 = Ok INil).
Proof.
  intros s t.
  assert (Hf : isNaN 2%float = false) by reflexivity.
  split; [exact Hf|]. split; [|split].
  - exact (proj1 (proj2 (Append_then_Value sample_deps)) s 2%float Hf).
  - exact (proj2 (proj2 (proj2 (proj2 (Append_then_Value sample_deps)))) t 7).
  - exact (proj1 (proj2 (proj2 (proj2 (Append_then_Value sample_deps)))) t).
Defined.

(** ** Sort *)

(** C2, as the code has it: sorting [3.0, absent, 1.0, absent] ascending
    yields [absent, absent, 1.0, 3.0]; sorting it with the descending flag
    yields [3.0, 1.0, absent, absent].  Absent entries come first when
    ascending and last when descending. *)
Theorem Sort_absent_first_ascending_last_descending :
  let s := floats [3%float; nan; 1%float; nan] 2 in
  elems (SeriesFloat64.Values (SeriesFloat64.Sort s ascending))
  = [nan; nan; 1%float; 3%float] /\
  elems (SeriesFloat64.Values (SeriesFloat64.Sort s descending))
  = [3%float; 1%float; nan; nan].
Proof. split; vm_compute; reflexivity. Qed.

(** C2, as stated, fails: the descending sort does not yield
    [absent, absent, 3.0, 1.0]. *)
Lemma Sort_descending_not_absent_first :
  elems (SeriesFloat64.Values
           (SeriesFloat64.Sort (floats [3%float; nan; 1%float; nan] 2) descending))
  <> [nan; nan; 3%float; 1%float].
Proof.
  intros E.
  apply (f_equal (fun l => match l with x :: _ => isNaN x | [] => false end)) in E.
  vm_compute in E. discriminate E.
Qed.

(** Past 20 rows [sort.SliceStable] merges its blocks: 45 integers in
    falling order followed by two absent slots come out absent first and
    rising when ascending, and falling with the absent slots last when
    descending. *)
Example Sort_45_rows :
  let s := ints ((Some <$> reverse (seqZ 0 45)) ++ [None; None]) 2 in
  elems (SeriesInt64.values (SeriesInt64.Sort s ascending))
  = [None; None] ++ (Some <$> seqZ 0 45) /\
  elems (SeriesInt64.values (SeriesInt64.Sort s descending))
  = (Some <$> reverse (seqZ 0 45)) ++ [None; None].
Proof. split; vm_compute; reflexivity. Qed.

(** On two rows holding equal present values the closure of a descending
    [Sort] answers "less" in both directions; the closure of an ascending
    [Sort] answers "not less".  Both variants. *)
Lemma Sort_less_on_equal_values :
  (forall (l : list float) (i j : nat) (x y : float),
      l !! i = Some x -> l !! j = Some y ->
      isNaN x = false -> isNaN y = false ->
      (x <? y)%float = false ->
      SeriesFloat64.Sort_less true l i j = true /\
      SeriesFloat64.Sort_less false l i j = false) /\
  (forall (l : list (option Z)) (i j : nat) (z : Z),
      l !! i = Some (Some z) -> l !! j = Some (Some z) ->
      SeriesInt64.Sort_less true l i j = true /\
      SeriesInt64.Sort_less false l i j = false).
Proof.
  split.
  - intros l i j x y Hi Hj Hx Hy Hlt. unfold SeriesFloat64.Sort_less.
    rewrite Hi, Hj. cbv [default from_option id]. rewrite Hx, Hy, Hlt. now split.
  - intros l i j z Hi Hj. unfold SeriesInt64.Sort_less, SeriesInt64.Sort_less_at.
    rewrite Hi, Hj. cbv [default from_option id]. rewrite Z.ltb_irrefl. now split.
Qed.

(** C4 at failing inputs.  0.0 and -0.0 are two present values that are
    equal ([IsEqualFunc] says so) and can be told apart; the descending
    sort exchanges them, the ascending sort keeps their order.  Likewise
    two boxes that hold 5, told apart by their addresses 1 and 2 (a box
    being a pair of its content and its address), are exchanged by the
    descending sort of the integer series and kept by the ascending one. *)
Theorem Sort_descending_reverses_equal_values :
  let s := floats [0%float; (-0)%float] 0 in
  let boxes := [Some (5, 1%nat); Some (5, 2%nat)] in
  SeriesFloat64.IsEqualFunc (IFloat64 0) (IFloat64 (-0)) = Ok true /\
  0%float <> (-0)%float /\
  elems (SeriesFloat64.Values (SeriesFloat64.Sort s descending))
  = [(-0)%float; 0%float] /\
  elems (SeriesFloat64.Values (SeriesFloat64.Sort s ascending))
  = [0%float; (-0)%float] /\
  sort.SliceStable (SeriesInt64.Sort_less_at fst true) boxes
  = [Some (5, 2%nat); Some (5, 1%nat)] /\
  sort.SliceStable (SeriesInt64.Sort_less_at fst false) boxes = boxes.
Proof.
  split; [reflexivity|]. split.
  - intros E. apply (f_equal PrimFloat.classify) in E. vm_compute in E.
    discriminate E.
  - repeat split; vm_compute; reflexivity.
Qed.

(** ** The count of absent slots *)

Section counting.
Context {A : Type} (absent : A -> bool).
Local Abbreviation one_if := (one_if absent).

Lemma count_absent_app (l k : list A) :
  count_absent absent (l ++ k) = count_absent absent l + count_absent absent k.
Proof. induction l as [|x l IH]; simpl; [done|]. rewrite IH. lia. Qed.

Lemma count_absent_insert_at (l : list A) (r : nat) (xs : list A) :
  count_absent absent (insert_at l r xs)
  = count_absent absent l + count_absent absent xs.
Proof.
  unfold insert_at. rewrite !count_absent_app.
  rewrite <- (take_drop r l) at 3. rewrite count_absent_app. lia.
Qed.

Lemma count_absent_without (l : list A) (i : nat) (x : A) :
  l !! i = Some x ->
  count_absent absent (take i l ++ drop (S i) l)
  = count_absent absent l - one_if x.
Proof.
  intros Hx. rewrite <- (take_drop_middle l i x Hx) at 3.
  rewrite !count_absent_app. unfold one_if. simpl. lia.
Qed.

Lemma count_absent_update (l : list A) (i : nat) (x v : A) :
  l !! i = Some x ->
  count_absent absent (<[i := v]> l)
  = count_absent absent l - one_if x + one_if v.
Proof.
  revert i. induction l as [|y l IH]; intros [|i] Hx; try discriminate.
  - injection Hx as ->. unfold one_if. simpl. lia.
  - simpl in *. rewrite (IH i Hx). lia.
Qed.

Lemma count_absent_nonneg (l : list A) : 0 <= count_absent absent l.
Proof. induction l as [|x l IH]; simpl; [lia|]. destruct (absent x); lia. Qed.

End counting.

(** Unfolds the first step of a sequence of calls that ended normally. *)
Tactic Notation "step_Ok" hyp(H) "as" ident(x) ident(E) :=
  match type of H with
  | (?m ≫= _) = Ok _ =>
      destruct m as [x| |] eqn:E;
      [rewrite bind_Ok in H | discriminate H | discriminate H]
  end.

(** ** The mutating operations of SeriesFloat64 and the invariant *)

Section float_mutations.
Context `{D : Deps}.
Import SeriesFloat64.

Lemma count_loop_float (V : list float) (s : SeriesFloat64) :
  foldl (fun s v => if isNaN v then with_nilCount s (nilCount s + 1) else s) s V
  = with_nilCount s (nilCount s + count_absent isNaN V).
Proof.
  revert s. induction V as [|v V IH]; intros s; simpl.
  - destruct s. unfold with_nilCount. cbn. f_equal. lia.
  - rewrite IH. destruct (isNaN v); unfold with_nilCount; cbn; f_equal; lia.
Qed.

(** Whatever [insert] is given, if it returns, a block went in before
    [row] and [nilCount] grew by the absent values of the block. *)
Lemma insert_float_Ok (s s' : SeriesFloat64) (row : Z) (val : iface) :
  insert s row val = Ok s' ->
  exists xs,
    elems (Values s') = insert_at (elems (Values s)) (Z.to_nat row) xs /\
    nilCount s' = nilCount s + count_absent isNaN xs.
Proof.
  intros H.
  assert (Hscalar : (forall V, val <> ISliceFloat64 V) ->
    exists xs,
      elems (Values s') = insert_at (elems (Values s)) (Z.to_nat row) xs /\
      nilCount s' = nilCount s + count_absent isNaN xs).
  { intros Hb.
    assert (Hbody :
      (dst ← slice_from (elems (append (Values s) [nan])) (row + 1);
       src ← slice_from (elems (append (Values s) [nan])) row;
       v ← valToPointer val;
       l ← store (copy_within (elems (append (Values s) [nan])) dst src) row v;
       Ok (with_Values (if isNaN v then with_nilCount s (nilCount s + 1) else s)
             (Slice l (cap (append (Values s) [nan]))))) = Ok s').
    { destruct val; try (exfalso; eapply Hb; reflexivity); exact H. }
    step_Ok Hbody as dst Edst. step_Ok Hbody as src Esrc.
    step_Ok Hbody as v Ev.
    apply slice_from_Ok_inv in Edst as [Hr _].
    apply slice_from_Ok_inv in Esrc as [Hr' _].
    cbn [elems append] in Hr. rewrite length_app in Hr. cbn [length] in Hr.
    assert (Hrow : 0 <= row <= NRows s) by (unfold NRows, len; lia).
    rewrite (insert_float_scalar s row val v Hb Ev Hrow) in H.
    injection H as <-. exists [v]. cbn [elems Values nilCount count_absent].
    split; [reflexivity|]. destruct (isNaN v); lia. }
  destruct val; try (apply Hscalar; discriminate).
  clear Hscalar. unfold insert in H. rewrite count_loop_float in H.
  cbn [Values with_nilCount] in H.
  destruct ((0 <=? row) && (row <=? Z.of_nat (cap (Values s)))); [|discriminate].
  step_Ok H as lo Elo. apply slice_from_Ok_inv in Elo as [Hr ->].
  injection H as <-. exists l. split; reflexivity.
Qed.

(** [Prepend] when the capacity has room: the value goes in front and
    [nilCount] is not touched. *)
Lemma Prepend_float_spare (s : SeriesFloat64) (val : iface) (v : float) :
  (length (elems (Values s)) < cap (Values s))%nat ->
  valToPointer val = Ok v ->
  Prepend s val
  = Ok (mk (valFormatter s) (name s)
          (Slice (v :: elems (Values s)) (cap (Values s))) (nilCount s)).
Proof.
  intros Hcap Hv. unfold Prepend.
  destruct (Nat.ltb_spec (length (elems (Values s))) (cap (Values s))); [|lia].
  rewrite Hv, bind_Ok. cbn [reslice_up1 elems cap].
  rewrite store_in_range
    by (rewrite length_copy_within, length_app; cbn [length]; lia).
  rewrite bind_Ok. change (Z.to_nat 0) with 0%nat.
  rewrite insert_copy_within by lia. reflexivity.
Qed.

Lemma insert_float_preserves (s s' : SeriesFloat64) (row : Z) (val : iface) :
  counts_floats s -> insert s row val = Ok s' -> counts_floats s'.
Proof.
  unfold counts_floats, absent_slots. intros Hs H.
  destruct (insert_float_Ok s s' row val H) as (xs & -> & ->).
  rewrite count_absent_insert_at. lia.
Qed.

Lemma Append_float_preserves (s s' : SeriesFloat64) (val : iface) (row : Z) :
  counts_floats s -> Append s val = Ok (s', row) -> counts_floats s'.
Proof.
  unfold Append. intros Hs H. step_Ok H as s1 E1. injection H as <- _.
  eapply insert_float_preserves; eauto.
Qed.

Lemma Remove_float_preserves (s s' : SeriesFloat64) (row : Z) :
  counts_floats s -> Remove s row = Ok s' -> counts_floats s'.
Proof.
  unfold counts_floats, absent_slots, Remove. intros Hs H.
  step_Ok H as x Ex. apply index_Ok_inv in Ex as [Hr Hx].
  injection H as <-.
  replace (Z.to_nat (row + 1)) with (S (Z.to_nat row)) by lia.
  destruct (isNaN x) eqn:Hnan; cbn [Values nilCount with_nilCount with_Values elems append];
    rewrite (count_absent_without isNaN _ _ x Hx); unfold one_if; rewrite Hnan; lia.
Qed.

Lemma Update_float_preserves (s s' : SeriesFloat64) (row : Z) (val : iface) :
  counts_floats s -> Update s row val = Ok s' -> counts_floats s'.
Proof.
  unfold counts_floats, absent_slots, Update. intros Hs H.
  step_Ok H as newVal Ev. step_Ok H as old Eold.
  apply index_Ok_inv in Eold as [Hr Hold].
  assert (Hl : exists l,
    store (elems (Values s)) row newVal = Ok l /\
    l = <[Z.to_nat row := newVal]> (elems (Values s))).
  { eexists. split; [apply store_in_range; lia|reflexivity]. }
  destruct Hl as (l & Hst & ->).
  destruct (isNaN old) eqn:Ho, (isNaN newVal) eqn:Hn;
    cbn [andb negb Values nilCount with_nilCount with_Values elems] in H;
    rewrite Hst, bind_Ok in H; injection H as <-;
    cbn [Values nilCount with_nilCount with_Values elems];
    rewrite (count_absent_update isNaN _ _ old newVal Hold);
    unfold one_if; rewrite Ho, Hn; lia.
Qed.

(** [Prepend] keeps the invariant when it has to reallocate, and when the
    value is present. *)
Lemma Prepend_float_preserves (s s' : SeriesFloat64) (val : iface) :
  counts_floats s -> Prepend s val = Ok s' ->
  (cap (Values s) <= length (elems (Values s)))%nat
  \/ (exists v, valToPointer val = Ok v /\ isNaN v = false) ->
  counts_floats s'.
Proof.
  intros Hs H Hcase.
  destruct (Nat.ltb_spec (length (elems (Values s))) (cap (Values s))) as [Hlt|Hge].
  - destruct Hcase as [Hge|(v & Hv & Hnan)]; [lia|].
    rewrite (Prepend_float_spare s val v Hlt Hv) in H. injection H as <-.
    unfold counts_floats, absent_slots in *. simpl. rewrite Hnan. lia.
  - unfold Prepend in H.
    destruct (Nat.ltb_spec (length (elems (Values s))) (cap (Values s))); [lia|].
    eapply insert_float_preserves; eauto.
Qed.

(** The invariant survives every sequence of Append, Insert (scalar or
    batch), Remove and Update. *)
Lemma mutations_float_preserve (ops : list mutation) (s s' : SeriesFloat64) :
  forallb (fun o => negb (is_Prepend o)) ops = true ->
  counts_floats s -> foldlM mutate_float s ops = Ok s' -> counts_floats s'.
Proof.
  revert s. induction ops as [|o ops IH]; intros s Hops Hs H; simpl in *.
  - now injection H as <-.
  - apply andb_prop in Hops as [Ho Hops]. step_Ok H as s1 E1.
    apply (IH s1 Hops); [|exact H].
    destruct o; simpl in *; try discriminate.
    + destruct (Append s val) as [[s2 row]| |] eqn:Ea; try discriminate.
      injection E1 as <-. eapply Append_float_preserves; eauto.
    + eapply insert_float_preserves; eauto.
    + eapply Remove_float_preserves; eauto.
    + eapply Update_float_preserves; eauto.
Qed.

End float_mutations.

(** ** The mutating operations of SeriesInt64 and the invariant *)

Section int_mutations.
Context `{D : Deps}.
Import SeriesInt64.

Lemma count_loop_int (V : list (option Z)) (s : SeriesInt64) :
  foldl (fun s v => if isNil v then with_nilCount s (nilCount s + 1) else s) s V
  = with_nilCount s (nilCount s + count_absent isNil V).
Proof.
  revert s. induction V as [|v V IH]; intros s; simpl.
  - destruct s. unfold with_nilCount. cbn. f_equal. lia.
  - rewrite IH. destruct (isNil v); unfold with_nilCount; cbn; f_equal; lia.
Qed.

(** The boxes made for a batch of raw integers: none is nil. *)
Lemma boxes_present (V : list Z) (acc : list (option Z)) :
  count_absent isNil (foldl (fun vals v => vals ++ [Some v]) acc V)
  = count_absent isNil acc.
Proof.
  revert acc. induction V as [|v V IH]; intros acc; simpl; [done|].
  rewrite IH, count_absent_app. simpl. lia.
Qed.

Lemma insert_batch_Ok (s s' : SeriesInt64) (row : Z) (vals : list (option Z)) :
  insert_batch s row vals = Ok s' ->
  elems (values s') = insert_at (elems (values s)) (Z.to_nat row) vals /\
  nilCount s' = nilCount s.
Proof.
  unfold insert_batch. intros H.
  destruct ((0 <=? row) && (row <=? Z.of_nat (cap (values s)))); [|discriminate].
  step_Ok H as lo Elo. apply slice_from_Ok_inv in Elo as [Hr ->].
  injection H as <-. split; reflexivity.
Qed.

Lemma insert_int_Ok (s s' : SeriesInt64) (row : Z) (val : iface) :
  insert s row val = Ok s' ->
  exists xs,
    elems (values s') = insert_at (elems (values s)) (Z.to_nat row) xs /\
    nilCount s' = nilCount s + count_absent isNil xs.
Proof.
  intros H.
  assert (Hscalar :
    (forall V, val <> ISliceInt64 V) -> (forall V, val <> ISlicePtrInt64 V) ->
    exists xs,
      elems (values s') = insert_at (elems (values s)) (Z.to_nat row) xs /\
      nilCount s' = nilCount s + count_absent isNil xs).
  { intros Hb Hb'.
    assert (Hbody :
      (dst ← slice_from (elems (append (values s) [None])) (row + 1);
       src ← slice_from (elems (append (values s) [None])) row;
       v ← valToPointer val;
       v' ← valToPointer (IPtrInt64 v);
       l ← store (copy_within (elems (append (values s) [None])) dst src) row v';
       Ok (with_values (if isNil v then with_nilCount s (nilCount s + 1) else s)
             (Slice l (cap (append (values s) [None]))))) = Ok s').
    { destruct val;
        try (exfalso; eapply Hb; reflexivity);
        try (exfalso; eapply Hb'; reflexivity); exact H. }
    step_Ok Hbody as dst Edst. step_Ok Hbody as src Esrc.
    step_Ok Hbody as v Ev.
    apply slice_from_Ok_inv in Edst as [Hr _].
    apply slice_from_Ok_inv in Esrc as [Hr' _].
    cbn [elems append] in Hr. rewrite length_app in Hr. cbn [length] in Hr.
    assert (Hrow : 0 <= row <= NRows s) by (unfold NRows, len; lia).
    rewrite (insert_int_scalar s row val v Hb Hb' Ev Hrow) in H.
    injection H as <-. exists [v]. cbn [elems values nilCount count_absent].
    split; [reflexivity|]. destruct (isNil v); lia. }
  destruct val; try (apply Hscalar; discriminate); clear Hscalar.
  - unfold insert in H. apply insert_batch_Ok in H as [-> ->].
    eexists. split; [reflexivity|].
    rewrite boxes_present. simpl. lia.
  - unfold insert in H. rewrite count_loop_int in H.
    apply insert_batch_Ok in H as [-> ->].
    exists l. split; reflexivity.
Qed.

Lemma Prepend_int_spare (s : SeriesInt64) (val : iface) (v : option Z) :
  (length (elems (values s)) < cap (values s))%nat ->
  valToPointer val = Ok v ->
  Prepend s val
  = Ok (mk (valFormatter s) (name s)
          (Slice (v :: elems (values s)) (cap (values s))) (nilCount s)).
Proof.
  intros Hcap Hv. unfold Prepend.
  destruct (Nat.ltb_spec (length (elems (values s))) (cap (values s))); [|lia].
  rewrite Hv, bind_Ok. cbn [reslice_up1 elems cap].
  rewrite store_in_range
    by (rewrite length_copy_within, length_app; cbn [length]; lia).
  rewrite bind_Ok. change (Z.to_nat 0) with 0%nat.
  rewrite insert_copy_within by lia. reflexivity.
Qed.

Lemma insert_int_preserves (s s' : SeriesInt64) (row : Z) (val : iface) :
  counts_ints s -> insert s row val = Ok s' -> counts_ints s'.
Proof.
  unfold counts_ints, absent_slots. intros Hs H.
  destruct (insert_int_Ok s s' row val H) as (xs & -> & ->).
  rewrite count_absent_insert_at. lia.
Qed.

Lemma Append_int_preserves (s s' : SeriesInt64) (val : iface) (row : Z) :
  counts_ints s -> Append s val = Ok (s', row) -> counts_ints s'.
Proof.
  unfold Append. intros Hs H. step_Ok H as s1 E1. injection H as <- _.
  eapply insert_int_preserves; eauto.
Qed.

Lemma Remove_int_preserves (s s' : SeriesInt64) (row : Z) :
  counts_ints s -> Remove s row = Ok s' -> counts_ints s'.
Proof.
  unfold counts_ints, absent_slots, Remove. intros Hs H.
  step_Ok H as x Ex. apply index_Ok_inv in Ex as [Hr Hx].
  injection H as <-.
  replace (Z.to_nat (row + 1)) with (S (Z.to_nat row)) by lia.
  destruct (isNil x) eqn:Hnil; cbn [values nilCount with_nilCount with_values elems append];
    rewrite (count_absent_without isNil _ _ x Hx); unfold one_if; rewrite Hnil; lia.
Qed.

Lemma Update_int_preserves (s s' : SeriesInt64) (row : Z) (val : iface) :
  counts_ints s -> Update s row val = Ok s' -> counts_ints s'.
Proof.
  unfold counts_ints, absent_slots, Update. intros Hs H.
  step_Ok H as newVal Ev. step_Ok H as old Eold.
  apply index_Ok_inv in Eold as [Hr Hold].
  assert (Hl : exists l,
    store (elems (values s)) row newVal = Ok l /\
    l = <[Z.to_nat row := newVal]> (elems (values s))).
  { eexists. split; [apply store_in_range; lia|reflexivity]. }
  destruct Hl as (l & Hst & ->).
  destruct (isNil old) eqn:Ho, (isNil newVal) eqn:Hn;
    cbn [andb negb values nilCount with_nilCount with_values elems] in H;
    rewrite Hst, bind_Ok in H; injection H as <-;
    cbn [values nilCount with_nilCount with_values elems];
    rewrite (count_absent_update isNil _ _ old newVal Hold);
    unfold one_if; rewrite Ho, Hn; lia.
Qed.

Lemma Prepend_int_preserves (s s' : SeriesInt64) (val : iface) :
  counts_ints s -> Prepend s val = Ok s' ->
  (cap (values s) <= length (elems (values s)))%nat
  \/ (exists z, valToPointer val = Ok (Some z)) ->
  counts_ints s'.
Proof.
  intros Hs H Hcase.
  destruct (Nat.ltb_spec (length (elems (values s))) (cap (values s))) as [Hlt|Hge].
  - destruct Hcase as [Hge|(z & Hv)]; [lia|].
    rewrite (Prepend_int_spare s val (Some z) Hlt Hv) in H. injection H as <-.
    unfold counts_ints, absent_slots in *. simpl. lia.
  - unfold Prepend in H.
    destruct (Nat.ltb_spec (length (elems (values s))) (cap (values s))); [lia|].
    eapply insert_int_preserves; eauto.
Qed.

Lemma mutations_int_preserve (ops : list mutation) (s s' : SeriesInt64) :
  forallb (fun o => negb (is_Prepend o)) ops = true ->
  counts_ints s -> foldlM mutate_int s ops = Ok s' -> counts_ints s'.
Proof.
  revert s. induction ops as [|o ops IH]; intros s Hops Hs H; simpl in *.
  - now injection H as <-.
  - apply andb_prop in Hops as [Ho Hops]. step_Ok H as s1 E1.
    apply (IH s1 Hops); [|exact H].
    destruct o; simpl in *; try discriminate.
    + destruct (Append s val) as [[s2 row]| |] eqn:Ea; try discriminate.
      injection E1 as <-. eapply Append_int_preserves; eauto.
    + eapply insert_int_preserves; eauto.
    + eapply Remove_int_preserves; eauto.
    + eapply Update_int_preserves; eauto.
Qed.

End int_mutations.

(** ** Prepend into spare capacity *)

(** Whenever the capacity has room, [Prepend] of the absence marker adds an
    absent slot and leaves [nilCount] as it was, so the invariant is lost. *)
Lemma Prepend_nil_into_spare_capacity (D : Deps) :
  (forall s : SeriesFloat64.SeriesFloat64,
      (length (elems (SeriesFloat64.Values s)) < cap (SeriesFloat64.Values s))%nat ->
      exists s', SeriesFloat64.Prepend s INil = Ok s' /\
        SeriesFloat64.nilCount s' = SeriesFloat64.nilCount s /\
        SeriesFloat64.absent_slots s' = SeriesFloat64.absent_slots s + 1) /\
  (forall s : SeriesInt64.SeriesInt64,
      (length (elems (SeriesInt64.values s)) < cap (SeriesInt64.values s))%nat ->
      exists s', SeriesInt64.Prepend s INil = Ok s' /\
        SeriesInt64.nilCount s' = SeriesInt64.nilCount s /\
        SeriesInt64.absent_slots s' = SeriesInt64.absent_slots s + 1).
Proof.
  split; intros s Hcap.
  - eexists. split; [now apply (Prepend_float_spare s INil nan)|].
    split; [reflexivity|].
    unfold SeriesFloat64.absent_slots. cbn [SeriesFloat64.Values elems count_absent].
    change (isNaN nan) with true. cbv iota. lia.
  - eexists. split; [now apply (Prepend_int_spare s INil None)|].
    split; [reflexivity|].
    unfold SeriesInt64.absent_slots. cbn [SeriesInt64.values elems count_absent].
    cbn [SeriesInt64.isNil]. lia.
Qed.

(** C1 at failing inputs.  A series made with capacity 1 and no rows, or
    one whose [Remove] has left a free cell, counts its absent slots
    exactly; after [Prepend(nil)] the storage holds one absent slot more
    and [nilCount] is unchanged.  Both variants. *)
Theorem Prepend_nil_miscounts :
  (exists s0 s1,
      @SeriesFloat64.NewSeriesFloat64 sample_deps "x" (Some (Build_SeriesInit 0 1)) []
      = Ok s0 /\
      counts_floats s0 /\
      @SeriesFloat64.Prepend sample_deps s0 INil = Ok s1 /\
      SeriesFloat64.nilCount s1 = 0 /\ SeriesFloat64.absent_slots s1 = 1) /\
  (exists s0 s1,
      @SeriesFloat64.NewSeriesFloat64 sample_deps "x" None [IFloat64 1; IFloat64 2]
      = Ok s0 /\
      counts_floats s0 /\
      foldlM (@mutate_float sample_deps) s0 [DoRemove 0; DoPrepend INil] = Ok s1 /\
      SeriesFloat64.nilCount s1 = 0 /\ SeriesFloat64.absent_slots s1 = 1) /\
  (exists s0 s1,
      @SeriesInt64.NewSeriesInt64 sample_deps "x" (Some (Build_SeriesInit 0 1)) []
      = Ok s0 /\
      counts_ints s0 /\
      @SeriesInt64.Prepend sample_deps s0 INil = Ok s1 /\
      SeriesInt64.nilCount s1 = 0 /\ SeriesInt64.absent_slots s1 = 1) /\
  (exists s0 s1,
      @SeriesInt64.NewSeriesInt64 sample_deps "x" None [IInt64 1; IInt64 2]
      = Ok s0 /\
      counts_ints s0 /\
      foldlM (@mutate_int sample_deps) s0 [DoRemove 0; DoPrepend INil] = Ok s1 /\
      SeriesInt64.nilCount s1 = 0 /\ SeriesInt64.absent_slots s1 = 1).
Proof.
  repeat split; do 2 eexists; repeat split; vm_compute; reflexivity.
Qed.

(** ** Allocation *)

Section allocation.
Context `{D : Deps} {A : Type}.

(** [make] returns exactly when the length is not negative, the capacity
    covers it and the run time grants the capacity. *)
Lemma make_Ok (zero : A) (size capacity : Z) :
  0 <= size -> size <= capacity -> capacity <= maxElems ->
  make zero size capacity
  = Ok (Slice (replicate (Z.to_nat size) zero) (Z.to_nat capacity)).
Proof.
  intros H0 H1 H2. unfold make.
  destruct (Z.ltb_spec size 0); [lia|]. destruct (Z.ltb_spec maxElems size); [lia|].
  destruct (Z.ltb_spec capacity size); [lia|].
  destruct (Z.ltb_spec maxElems capacity); [lia|]. reflexivity.
Qed.

Lemma make_Ok_inv (zero : A) (size capacity : Z) (v : slice A) :
  make zero size capacity = Ok v ->
  0 <= size /\ size <= capacity /\ capacity <= maxElems /\
  v = Slice (replicate (Z.to_nat size) zero) (Z.to_nat capacity).
Proof.
  unfold make.
  destruct (Z.ltb_spec size 0); [discriminate|].
  destruct (Z.ltb_spec maxElems size); [discriminate|].
  destruct (Z.ltb_spec capacity size); [discriminate|].
  destruct (Z.ltb_spec maxElems capacity); [discriminate|].
  cbn [orb]. intros [= <-]. repeat split; lia.
Qed.

(** Beyond the limit of the run time [make] panics, and so it does on a
    negative length. *)
Lemma make_too_large (zero : A) (size capacity : Z) :
  size < 0 \/ maxElems < size \/ maxElems < capacity ->
  is_panic (make zero size capacity) = true.
Proof.
  intros H. unfold make.
  destruct (Z.ltb_spec size 0); [reflexivity|].
  destruct (Z.ltb_spec maxElems size); [reflexivity|].
  destruct (Z.ltb_spec capacity size); [reflexivity|].
  destruct (Z.ltb_spec maxElems capacity); [reflexivity|]. lia.
Qed.

Lemma make_no_error (zero : A) (size capacity : Z) :
  is_error (make zero size capacity) = false.
Proof.
  unfold make.
  destruct ((size <? 0) || (maxElems <? size)); [reflexivity|].
  now destruct ((capacity <? size) || (maxElems <? capacity)).
Qed.

End allocation.

(** The series the forecast starts from, [NewSeriesFloat64("forecast", nil)]. *)
Lemma NewSeriesFloat64_without_rows `{D : Deps} (name : string) :
  0 <= maxElems ->
  SeriesFloat64.NewSeriesFloat64 name None []
  = Ok (SeriesFloat64.mk DefaultValueFormatter name (Slice [] 0) 0).
Proof.
  intros H. unfold SeriesFloat64.NewSeriesFloat64.
  rewrite make_Ok by lia. reflexivity.
Qed.

(** ** The forecast *)

(** Binary64 comparison: what is at most [y] is not above [y]. *)
Lemma SFleb_not_SFltb (x y : spec_float) :
  SFleb x y = true -> SFltb y x = false.
Proof.
  unfold SFleb, SFltb.
  destruct x as [sx|sx| |sx mx ex], y as [sy|sy| |sy my ey]; simpl.
  16: { change (PosDef.Pos.compare_cont Eq mx my) with (Pos.compare mx my).
        change (PosDef.Pos.compare_cont Eq my mx) with (Pos.compare my mx).
        rewrite (Z.compare_antisym ex ey), (Pos.compare_antisym mx my).
        destruct sx, sy; simpl; try congruence;
          destruct (ex ?= ey); simpl; try congruence;
          destruct (mx ?= my)%positive; simpl; congruence. }
  all: try destruct sx; try destruct sy; simpl; congruence.
Qed.

Lemma float_leb_not_ltb (x y : float) :
  (x <=? y)%float = true -> (y <? x)%float = false.
Proof. rewrite leb_spec, ltb_spec. apply SFleb_not_SFltb. Qed.

Lemma length_ses_forecasts (α xend S : float) (m : nat) :
  length (ses_forecasts α xend S m) = m.
Proof. revert S. induction m as [|m IH]; intros S; simpl; [done|]. now rewrite IH. Qed.

(** The rows [a .. a+k-1] read the cells of the window, in order. *)
Lemma rows_window (Values : list float) (k : nat) (a : Z) :
  0 <= a -> a + Z.of_nat k <= Z.of_nat (length Values) ->
  Forall2 (fun i x => a <= i /\ index Values i = Ok x)
          (seqZ a (Z.of_nat k)) (take k (drop (Z.to_nat a) Values)).
Proof.
  revert a. induction k as [|k IH]; intros a Ha Hk.
  - rewrite seqZ_nil by lia. constructor.
  - rewrite seqZ_cons by lia.
    replace (Z.pred (Z.of_nat (S k))) with (Z.of_nat k) by lia.
    destruct (index_in_range Values a) as (x & Ex & Lx); [lia|].
    rewrite (drop_S _ _ _ Lx). cbn [take]. constructor; [split; [lia|done]|].
    replace (S (Z.to_nat a)) with (Z.to_nat (Z.succ a)) by lia.
    eapply Forall2_impl; [apply IH; lia|]. intros i y [Hi Hy]. split; [lia|done].
Qed.

Section forecast_loops.
Context `{D : Deps} (ctx : forecast.Ctx) (Values : list float) (α : float).
Hypothesis alive : forall k, ctx k = None.

Lemma level_after_start (start : Z) (rows : list Z) (xs : list float)
    (polls : nat) (st : float) :
  Forall2 (fun i x => start + 1 <= i /\ index Values i = Ok x) rows xs ->
  forecast.SimpleExponentialSmoothing_level ctx Values α start rows polls st
  = Ok (foldl (fun S x => ses_step α x S) st xs, (polls + length rows)%nat).
Proof.
  intros H. revert polls st.
  induction H as [|i x rows xs [Hi Hx] _ IH]; intros polls st; simpl.
  - f_equal. f_equal. lia.
  - rewrite alive, Hx, bind_Ok.
    destruct (Z.eqb_spec i start); [lia|].
    rewrite IH. f_equal. f_equal. lia.
Qed.

Lemma level_of_window (start end_ : Z) :
  0 <= start -> start <= end_ -> end_ < Z.of_nat (length Values) ->
  forecast.SimpleExponentialSmoothing_level ctx Values α start
    (seqZ start (end_ + 1 - start)) 0%nat 0%float
  = Ok (ses_level α (window Values start end_), Z.to_nat (end_ + 1 - start)).
Proof.
  intros Hs Hse He. unfold window.
  destruct (Z.to_nat (end_ + 1 - start)) as [|k] eqn:Hk; [lia|].
  replace (end_ + 1 - start) with (Z.of_nat (S k)) by lia.
  rewrite seqZ_cons by lia.
  replace (Z.pred (Z.of_nat (S k))) with (Z.of_nat k) by lia.
  destruct (index_in_range Values start) as (x0 & Ex & Lx); [lia|].
  rewrite (drop_S _ _ _ Lx). cbn [take ses_level].
  cbn [forecast.SimpleExponentialSmoothing_level].
  rewrite alive, Ex, bind_Ok, Z.eqb_refl.
  rewrite (level_after_start start _ (take k (drop (S (Z.to_nat start)) Values))).
  - rewrite length_seqZ. f_equal. f_equal. lia.
  - replace (S (Z.to_nat start)) with (Z.to_nat (Z.succ start)) by lia.
    eapply Forall2_impl; [apply rows_window; lia|].
    intros i y [Hi Hy]. split; [lia|done].
Qed.

Lemma forecast_steps (end_ : Z) (xend : float) (m polls : nat) (st : float)
    (forecast : slice float) :
  index Values end_ = Ok xend ->
  exists c,
    forecast.SimpleExponentialSmoothing_forecast ctx Values α end_ m polls st forecast
    = Ok (Slice (elems forecast ++ ses_forecasts α xend st m) c).
Proof.
  intros Hx. revert polls st forecast.
  induction m as [|m IH]; intros polls st forecast; simpl.
  - exists (cap forecast). rewrite app_nil_r. now destruct forecast.
  - rewrite alive, Hx, bind_Ok.
    destruct (IH (S polls) (α * xend + (1 - α) * st)%float
                 (append forecast [(α * xend + (1 - α) * st)%float])) as (c & ->).
    exists c. cbn [elems append]. now rewrite <- app_assoc.
Qed.

End forecast_loops.

(** The forecast allocates its result right after the validation: a
    number of steps that the run time does not grant is a panic, before
    the context is looked at. *)
Lemma forecast_refused `{D : Deps} (ctx : forecast.Ctx)
    (s : SeriesFloat64.SeriesFloat64) (α : float) (m : Z) (r : list Range)
    (start end_ : Z) :
  0 < SeriesFloat64.NRows s ->
  Limits (first_range r) (SeriesFloat64.NRows s) = Ok (start, end_) ->
  start < end_ ->
  (α <? 0)%float = false -> (1 <? α)%float = false ->
  0 <= maxElems -> maxElems < m ->
  forecast.SimpleExponentialSmoothing ctx s α m r
  = Panic "runtime error: makeslice: cap out of range".
Proof.
  intros Hn HL Hse Hα0 Hα1 Hm Hmax.
  unfold forecast.SimpleExponentialSmoothing, SeriesFloat64.NRows, len in *.
  destruct (Z.eqb_spec (Z.of_nat (length (elems (SeriesFloat64.Values s)))) 0);
    [lia|].
  rewrite first_range_index, bind_Ok, HL, bind_Ok.
  destruct (Z.ltb_spec (end_ - start) 1); [lia|].
  destruct (Z.leb_spec m 0); [lia|].
  rewrite Hα0, Hα1. cbn [orb]. unfold make.
  destruct (Z.ltb_spec 0 0); [lia|].
  destruct (Z.ltb_spec maxElems 0); [lia|].
  destruct (Z.ltb_spec m 0); [lia|].
  destruct (Z.ltb_spec maxElems m); [|lia]. reflexivity.
Qed.

(** C7, as the code has it: when the range resolves to rows [start..end]
    holding at least two values, α is in [0,1], m >= 1 is a number of
    elements the run time grants to [make], and the context is not
    cancelled, [SimpleExponentialSmoothing] returns a series of exactly m
    values: the m forward steps St+1 = α·x[end] + (1−α)·St taken from the
    level of the window, S0 = x[start], Si = α·xi + (1−α)·Si−1.  With m
    beyond what the run time grants the call panics in [make] instead.
    On the values [10, 12, 13, 12, 15] with α = 0.5 and m = 2 the level
    is 13.5 and the forecasts are 14.25 and 14.625. *)
Theorem SimpleExponentialSmoothing_forecasts :
  (forall (D : Deps) (ctx : forecast.Ctx) (s : SeriesFloat64.SeriesFloat64)
          (α : float) (m : Z) (r : list Range) (start end_ : Z),
      (forall k, ctx k = None) ->
      Limits (first_range r) (SeriesFloat64.NRows s) = Ok (start, end_) ->
      0 <= start -> start < end_ -> end_ < SeriesFloat64.NRows s ->
      (0 <=? α)%float = true -> (α <=? 1)%float = true ->
      1 <= m -> m <= maxElems ->
      exists fdf xend,
        forecast.SimpleExponentialSmoothing ctx s α m r = Ok fdf /\
        elems (SeriesFloat64.Values s) !! Z.to_nat end_ = Some xend /\
        elems (SeriesFloat64.Values fdf)
        = ses_forecasts α xend
            (ses_level α (window (elems (SeriesFloat64.Values s)) start end_))
            (Z.to_nat m) /\
        SeriesFloat64.NRows fdf = m) /\
  (forall (D : Deps) (ctx : forecast.Ctx) (s : SeriesFloat64.SeriesFloat64)
          (α : float) (m : Z) (r : list Range) (start end_ : Z),
      Limits (first_range r) (SeriesFloat64.NRows s) = Ok (start, end_) ->
      0 <= start -> start < end_ -> end_ < SeriesFloat64.NRows s ->
      (0 <=? α)%float = true -> (α <=? 1)%float = true ->
      0 <= maxElems -> maxElems < m ->
      forecast.SimpleExponentialSmoothing ctx s α m r
      = Panic "runtime error: makeslice: cap out of range") /\
  (exists s fdf,
      @SeriesFloat64.NewSeriesFloat64 sample_deps "x" None
        [IFloat64 10; IFloat64 12; IFloat64 13; IFloat64 12; IFloat64 15] = Ok s /\
      ses_level 0.5 (elems (SeriesFloat64.Values s)) = 13.5%float /\
      @forecast.SimpleExponentialSmoothing sample_deps background s 0.5 2 [] = Ok fdf /\
      elems (SeriesFloat64.Values fdf) = [14.25%float; 14.625%float]).
Proof.
  split; [|split].
  - intros D ctx s α m r start end_ Hctx HL Hs Hse He Hα0 Hα1 Hm Hmax.
    unfold SeriesFloat64.NRows, len in *.
    destruct (index_in_range (elems (SeriesFloat64.Values s)) end_)
      as (xend & Ex & Lx); [lia|].
    destruct (forecast_steps ctx (elems (SeriesFloat64.Values s)) α Hctx end_ xend
                (Z.to_nat m) (Z.to_nat (end_ + 1 - start))
                (ses_level α (window (elems (SeriesFloat64.Values s)) start end_))
                (Slice [] (Z.to_nat m)) Ex) as (c & Hsteps).
    exists (SeriesFloat64.mk DefaultValueFormatter "forecast"
              (Slice (ses_forecasts α xend
                        (ses_level α (window (elems (SeriesFloat64.Values s)) start end_))
                        (Z.to_nat m)) c) 0), xend.
    split; [|split; [exact Lx|split; [reflexivity|]]].
    + unfold forecast.SimpleExponentialSmoothing, len.
      destruct (Z.eqb_spec (Z.of_nat (length (elems (SeriesFloat64.Values s)))) 0);
        [lia|].
      rewrite first_range_index, bind_Ok, HL, bind_Ok.
      destruct (Z.ltb_spec (end_ - start) 1); [lia|].
      destruct (Z.leb_spec m 0); [lia|].
      rewrite (float_leb_not_ltb 0 α Hα0), (float_leb_not_ltb α 1 Hα1).
      cbn [orb]. rewrite make_Ok, bind_Ok by lia.
      rewrite (level_of_window ctx _ α Hctx start end_) by lia.
      rewrite bind_Ok.
      change (replicate (Z.to_nat 0) 0%float) with (@nil float).
      rewrite Hsteps, bind_Ok.
      rewrite NewSeriesFloat64_without_rows, bind_Ok by lia. reflexivity.
    + unfold SeriesFloat64.NRows, len. cbn [SeriesFloat64.Values elems].
      rewrite length_ses_forecasts. lia.
  - intros D ctx s α m r start end_ HL Hs Hse He Hα0 Hα1 H0 Hmax.
    apply (forecast_refused ctx s α m r start end_); try done; try lia.
    + now apply float_leb_not_ltb.
    + now apply float_leb_not_ltb.
  - do 2 eexists. repeat split; vm_compute; reflexivity.
Qed.

(** C7, as stated, fails: "every m >= 1" takes in numbers of elements that
    [make([]float64, 0, m)] refuses.  On the values of the scenario with
    α = 0.5 and m = 2^62 the call returns no series, it panics. *)
Lemma SimpleExponentialSmoothing_huge_m_panics :
  let s := floats [10%float; 12%float; 13%float; 12%float; 15%float] 0 in
  1 <= 2 ^ 62 /\
  @forecast.SimpleExponentialSmoothing sample_deps background s 0.5 (2 ^ 62) []
  = Panic "runtime error: makeslice: cap out of range".
Proof. split; [lia|vm_compute; reflexivity]. Qed.

Lemma SimpleExponentialSmoothing_forecasts_witness :
  let s := floats [10%float; 12%float; 13%float; 12%float; 15%float] 0 in
  (forall k, background k = None) /\
  Limits_spec (first_range []) (SeriesFloat64.NRows s) = Ok (0, 4) /\
  (0 <=? 0.5)%float = true /\ (0.5 <=? 1)%float = true /\
  2 <= @maxElems sample_deps /\
  exists fdf xend,
    @forecast.SimpleExponentialSmoothing sample_deps background s 0.5 2 [] = Ok fdf /\
    elems (SeriesFloat64.Values s) !! Z.to_nat 4 = Some xend /\
    elems (SeriesFloat64.Values fdf)
    = ses_forecasts 0.5 xend
        (ses_level 0.5 (window (elems (SeriesFloat64.Values s)) 0 4)) (Z.to_nat 2) /\
    SeriesFloat64.NRows fdf = 2.
Proof.
  intros s.
  assert (Hctx : forall k, background k = None) by reflexivity.
  assert (HL : Limits_spec (first_range []) (SeriesFloat64.NRows s) = Ok (0, 4))
    by reflexivity.
  assert (H0 : (0 <=? 0.5)%float = true) by reflexivity.
  assert (H1 : (0.5 <=? 1)%float = true) by reflexivity.
  assert (Hmax : 2 <= @maxElems sample_deps) by (vm_compute; discriminate).
  split; [exact Hctx|]. split; [exact HL|]. split; [exact H0|]. split; [exact H1|].
  split; [exact Hmax|].
  refine (proj1 SimpleExponentialSmoothing_forecasts sample_deps background s
            0.5%float 2 [] 0 4 Hctx HL _ _ _ H0 H1 _ Hmax).
  - lia.
  - lia.
  - reflexivity.
  - lia.
Defined.

(** ** The invariant after construction *)

Lemma count_absent_replicate {A} (absent : A -> bool) (x : A) (k : nat) :
  count_absent absent (replicate k x) = Z.of_nat k * one_if absent x.
Proof.
  induction k as [|k IH]; [reflexivity|].
  cbn [replicate count_absent]. rewrite IH. unfold one_if. lia.
Qed.

(** The loop that fills the cells from [len(vals)] on with a value. *)
Lemma fill_cells {A} (z x : A) (k : nat) (stored : list A) :
  foldlM (fun l i => store l i x) (stored ++ replicate k z)
         (seqZ (Z.of_nat (length stored)) (Z.of_nat k))
  = Ok (stored ++ replicate k x).
Proof.
  revert stored. induction k as [|k IH]; intros stored.
  - now rewrite seqZ_nil by lia.
  - rewrite seqZ_cons by lia. cbn [foldlM].
    rewrite store_in_range
      by (rewrite length_app, length_replicate; lia).
    rewrite bind_Ok, Nat2Z.id. cbn [replicate].
    replace (length stored) with (length stored + 0)%nat at 1 by lia.
    rewrite insert_app_r. cbn [insert list_insert].
    replace (Z.pred (Z.of_nat (S k))) with (Z.of_nat k) by lia.
    replace (Z.succ (Z.of_nat (length stored)))
      with (Z.of_nat (length (stored ++ [x])))
      by (rewrite length_app; cbn [length]; lia).
    rewrite (cons_middle x stored (replicate k z)).
    rewrite (cons_middle x stored (replicate k x)).
    rewrite !app_assoc. apply IH.
Qed.

Section construction.
Context `{D : Deps}.

(** The loop over the initial values keeps: the values seen so far are
    stored in front, zero cells follow, and [nilCount] counts the absent
    values stored. *)
Lemma NewSeriesFloat64_vals_Ok (size : Z) (vals : list iface) :
  forall (stored : list float) (s s' : SeriesFloat64.SeriesFloat64),
    elems (SeriesFloat64.Values s)
    = stored ++ replicate (Z.to_nat size - length stored) 0%float ->
    SeriesFloat64.nilCount s = count_absent isNaN stored ->
    SeriesFloat64.NewSeriesFloat64_vals size (Z.of_nat (length stored)) vals s = Ok s' ->
    exists stored',
      length stored' = (length stored + length vals)%nat /\
      elems (SeriesFloat64.Values s')
      = stored' ++ replicate (Z.to_nat size - length stored') 0%float /\
      SeriesFloat64.nilCount s' = count_absent isNaN stored'.
Proof.
  induction vals as [|v vals IH]; intros stored s s' Hel Hn H; simpl in H.
  - injection H as <-. exists stored. split; [simpl; lia|done].
  - step_Ok H as val Ev. step_Ok H as s1 E1.
    replace (Z.of_nat (length stored) + 1)
      with (Z.of_nat (length (stored ++ [val]))) in H
      by (rewrite length_app; cbn [length]; lia).
    apply IH in H.
    + destruct H as (stored' & Hlen & Hel' & Hn'). exists stored'.
      split; [|done]. rewrite Hlen, length_app. cbn [length]. lia.
    + destruct (Z.ltb_spec (Z.of_nat (length stored)) size) as [Hlt|Hge].
      * step_Ok E1 as l El. injection E1 as <-.
        apply store_Ok_inv in El as [_ ->].
        assert (Hcells : elems (SeriesFloat64.Values
                  (if isNaN val
                   then SeriesFloat64.with_nilCount s (SeriesFloat64.nilCount s + 1)
                   else s)) = elems (SeriesFloat64.Values s))
          by (now destruct (isNaN val)).
        cbn [SeriesFloat64.with_Values SeriesFloat64.Values elems].
        rewrite Hcells, Hel, Nat2Z.id.
        replace (Z.to_nat size - length stored)%nat
          with (S (Z.to_nat size - length (stored ++ [val])))
          by (rewrite length_app; cbn [length]; lia).
        cbn [replicate].
        replace (length stored) with (length stored + 0)%nat at 1 by lia.
        rewrite insert_app_r. cbn [insert list_insert].
        now rewrite (cons_middle val), app_assoc.
      * injection E1 as <-.
        cbn [SeriesFloat64.with_Values SeriesFloat64.Values elems append].
        assert (Hcells : elems (SeriesFloat64.Values
                  (if isNaN val
                   then SeriesFloat64.with_nilCount s (SeriesFloat64.nilCount s + 1)
                   else s)) = elems (SeriesFloat64.Values s))
          by (now destruct (isNaN val)).
        rewrite Hcells, Hel.
        replace (Z.to_nat size - length stored)%nat with 0%nat by lia.
        replace (Z.to_nat size - length (stored ++ [val]))%nat with 0%nat
          by (rewrite length_app; cbn [length]; lia).
        cbn [replicate]. now rewrite !app_nil_r.
    + assert (Hcount : SeriesFloat64.nilCount s1
                       = SeriesFloat64.nilCount s + one_if isNaN val).
      { unfold one_if.
        destruct (Z.ltb_spec (Z.of_nat (length stored)) size).
        - step_Ok E1 as l El. injection E1 as <-.
          destruct (isNaN val); simpl; lia.
        - injection E1 as <-. destruct (isNaN val); simpl; lia. }
      rewrite Hcount, Hn, count_absent_app. unfold one_if. simpl. lia.
Qed.

(** A series that [NewSeriesFloat64] returns counts its absent slots. *)
Lemma NewSeriesFloat64_counts (name : string) (init : option SeriesInit)
    (vals : list iface) (s : SeriesFloat64.SeriesFloat64) :
  SeriesFloat64.NewSeriesFloat64 name init vals = Ok s -> counts_floats s.
Proof.
  unfold SeriesFloat64.NewSeriesFloat64.
  set (size := match init with Some i => Size i | None => 0 end).
  set (capacity := match init with
                   | Some i => if Capacity i <? Size i then Size i else Capacity i
                   | None => 0 end).
  intros H. step_Ok H as values0 Em.
  apply make_Ok_inv in Em as (Hsz & _ & _ & ->).
  step_Ok H as s1 E1.
  apply (NewSeriesFloat64_vals_Ok size vals []) in E1;
    [|cbn; f_equal; lia|reflexivity].
  destruct E1 as (stored & Hlen & Hel & Hn). cbn [length] in Hlen.
  unfold counts_floats, SeriesFloat64.absent_slots.
  destruct (Z.ltb_spec (Z.of_nat (length vals)) size) as [Hlt|Hge].
  - step_Ok H as l El. injection H as <-.
    cbn [SeriesFloat64.Values SeriesFloat64.nilCount elems].
    rewrite Hel in El.
    replace (Z.of_nat (length vals)) with (Z.of_nat (length stored)) in El by lia.
    replace (size - Z.of_nat (length stored))
      with (Z.of_nat (Z.to_nat size - length stored)) in El by lia.
    rewrite fill_cells in El. injection El as <-.
    rewrite count_absent_app, count_absent_replicate, Hn.
    unfold one_if. change (isNaN nan) with true. lia.
  - injection H as <-. rewrite Hel, Hn, count_absent_app.
    replace (Z.to_nat size - length stored)%nat with 0%nat by lia.
    simpl. lia.
Qed.

Lemma NewSeriesInt64_vals_Ok (size : Z) (vals : list iface) :
  forall (stored : list (option Z)) (s s' : SeriesInt64.SeriesInt64),
    elems (SeriesInt64.values s)
    = stored ++ replicate (Z.to_nat size - length stored) None ->
    SeriesInt64.nilCount s = count_absent SeriesInt64.isNil stored ->
    SeriesInt64.NewSeriesInt64_vals size (Z.of_nat (length stored)) vals s = Ok s' ->
    exists stored',
      length stored' = (length stored + length vals)%nat /\
      elems (SeriesInt64.values s')
      = stored' ++ replicate (Z.to_nat size - length stored') None /\
      SeriesInt64.nilCount s' = count_absent SeriesInt64.isNil stored'.
Proof.
  induction vals as [|v vals IH]; intros stored s s' Hel Hn H; simpl in H.
  - injection H as <-. exists stored. split; [simpl; lia|done].
  - step_Ok H as val Ev. step_Ok H as s1 E1.
    replace (Z.of_nat (length stored) + 1)
      with (Z.of_nat (length (stored ++ [val]))) in H
      by (rewrite length_app; cbn [length]; lia).
    apply IH in H.
    + destruct H as (stored' & Hlen & Hel' & Hn'). exists stored'.
      split; [|done]. rewrite Hlen, length_app. cbn [length]. lia.
    + destruct (Z.ltb_spec (Z.of_nat (length stored)) size) as [Hlt|Hge].
      * step_Ok E1 as l El. injection E1 as <-.
        apply store_Ok_inv in El as [_ ->].
        assert (Hcells : elems (SeriesInt64.values
                  (if SeriesInt64.isNil val
                   then SeriesInt64.with_nilCount s (SeriesInt64.nilCount s + 1)
                   else s)) = elems (SeriesInt64.values s))
          by (now destruct (SeriesInt64.isNil val)).
        cbn [SeriesInt64.with_values SeriesInt64.values elems].
        rewrite Hcells, Hel, Nat2Z.id.
        replace (Z.to_nat size - length stored)%nat
          with (S (Z.to_nat size - length (stored ++ [val])))
          by (rewrite length_app; cbn [length]; lia).
        cbn [replicate].
        replace (length stored) with (length stored + 0)%nat at 1 by lia.
        rewrite insert_app_r. cbn [insert list_insert].
        now rewrite (cons_middle val), app_assoc.
      * injection E1 as <-.
        cbn [SeriesInt64.with_values SeriesInt64.values elems append].
        assert (Hcells : elems (SeriesInt64.values
                  (if SeriesInt64.isNil val
                   then SeriesInt64.with_nilCount s (SeriesInt64.nilCount s + 1)
                   else s)) = elems (SeriesInt64.values s))
          by (now destruct (SeriesInt64.isNil val)).
        rewrite Hcells, Hel.
        replace (Z.to_nat size - length stored)%nat with 0%nat by lia.
        replace (Z.to_nat size - length (stored ++ [val]))%nat with 0%nat
          by (rewrite length_app; cbn [length]; lia).
        cbn [replicate]. now rewrite !app_nil_r.
    + assert (Hcount : SeriesInt64.nilCount s1
                       = SeriesInt64.nilCount s + one_if SeriesInt64.isNil val).
      { unfold one_if.
        destruct (Z.ltb_spec (Z.of_nat (length stored)) size).
        - step_Ok E1 as l El. injection E1 as <-.
          destruct (SeriesInt64.isNil val); simpl; lia.
        - injection E1 as <-. destruct (SeriesInt64.isNil val); simpl; lia. }
      rewrite Hcount, Hn, count_absent_app. unfold one_if. simpl. lia.
Qed.

(** A series that [NewSeriesInt64] returns counts its absent slots. *)
Lemma NewSeriesInt64_counts (name : string) (init : option SeriesInit)
    (vals : list iface) (s : SeriesInt64.SeriesInt64) :
  SeriesInt64.NewSeriesInt64 name init vals = Ok s -> counts_ints s.
Proof.
  unfold SeriesInt64.NewSeriesInt64.
  set (size := match init with Some i => Size i | None => 0 end).
  set (capacity := match init with
                   | Some i => if Capacity i <? Size i then Size i else Capacity i
                   | None => 0 end).
  intros H. step_Ok H as values0 Em.
  apply make_Ok_inv in Em as (Hsz & _ & _ & ->).
  step_Ok H as s1 E1.
  apply (NewSeriesInt64_vals_Ok size vals []) in E1;
    [|cbn; f_equal; lia|reflexivity].
  destruct E1 as (stored & Hlen & Hel & Hn). cbn [length] in Hlen.
  unfold counts_ints, SeriesInt64.absent_slots.
  destruct (Z.ltb_spec (Z.of_nat (length vals)) size) as [Hlt|Hge].
  - injection H as <-.
    cbn [SeriesInt64.with_nilCount SeriesInt64.values SeriesInt64.nilCount].
    rewrite Hel, count_absent_app, count_absent_replicate, Hn.
    unfold one_if. cbn [SeriesInt64.isNil]. lia.
  - injection H as <-. rewrite Hel, Hn, count_absent_app.
    replace (Z.to_nat size - length stored)%nat with 0%nat by lia.
    simpl. lia.
Qed.

End construction.

(** From construction on, the invariant holds after every sequence of
    Append, Insert, Remove and Update that runs to its end. *)
Lemma nilCount_exact_without_Prepend (D : Deps) (name : string)
    (init : option SeriesInit) (vals : list iface) (ops : list mutation) :
  forallb (fun o => negb (is_Prepend o)) ops = true ->
  (forall s s',
      SeriesFloat64.NewSeriesFloat64 name init vals = Ok s ->
      foldlM mutate_float s ops = Ok s' -> counts_floats s') /\
  (forall s s',
      SeriesInt64.NewSeriesInt64 name init vals = Ok s ->
      foldlM mutate_int s ops = Ok s' -> counts_ints s').
Proof.
  intros Hops. split; intros s s' Hnew Hrun.
  - eapply mutations_float_preserve; eauto using NewSeriesFloat64_counts.
  - eapply mutations_int_preserve; eauto using NewSeriesInt64_counts.
Qed.

(** * Further properties of the three files *)

(** ** Cells of a storage after an insertion or a removal *)

Section more_cells.
Context {A : Type}.
Implicit Types (l xs : list A) (k : Z) (r : nat).

Lemma index_out_of_range l k :
  ~ (0 <= k < Z.of_nat (length l)) -> index l k = Panic "index out of range".
Proof.
  intros Hk. unfold index. destruct (Z.leb_spec 0 k); [|done].
  now rewrite lookup_ge_None_2 by lia.
Qed.

Lemma store_out_of_range l k x :
  ~ (0 <= k < Z.of_nat (length l)) -> store l k x = Panic "index out of range".
Proof.
  intros Hk. unfold store. destruct (Z.leb_spec 0 k); [|done].
  destruct (Z.ltb_spec k (Z.of_nat (length l))); [lia|done].
Qed.

Lemma slice_from_out_of_range l k :
  ~ (0 <= k <= Z.of_nat (length l)) ->
  slice_from l k = Panic "slice bounds out of range".
Proof.
  intros Hk. unfold slice_from. destruct (Z.leb_spec 0 k); [|done].
  destruct (Z.leb_spec k (Z.of_nat (length l))); [lia|done].
Qed.

Lemma index_no_error l k : is_error (index l k) = false.
Proof.
  unfold index. destruct (0 <=? k); [|reflexivity].
  now destruct (l !! Z.to_nat k).
Qed.

(** Two reads agree when the cells they reach agree. *)
Lemma index_agree l l' k k' :
  (0 <= k <-> 0 <= k') ->
  (0 <= k -> l !! Z.to_nat k = l' !! Z.to_nat k') ->
  index l k = index l' k'.
Proof.
  intros Hs Hc. unfold index.
  destruct (Z.leb_spec 0 k), (Z.leb_spec 0 k'); try lia; [|done].
  now rewrite Hc by lia.
Qed.

Lemma length_insert_at l r xs :
  (r <= length l)%nat -> length (insert_at l r xs) = (length l + length xs)%nat.
Proof.
  intros Hr. unfold insert_at.
  rewrite !length_app, length_take, length_drop. lia.
Qed.

Lemma index_insert_at_before l r xs k :
  (r <= length l)%nat -> k < Z.of_nat r ->
  index (insert_at l r xs) k = index l k.
Proof.
  intros Hr Hk. apply index_agree; [done|]. intros H0. unfold insert_at.
  rewrite lookup_app_l by (rewrite length_take; lia).
  apply lookup_take_lt. lia.
Qed.

Lemma index_insert_at_block l r xs k :
  (r <= length l)%nat -> 0 <= k ->
  index (insert_at l r xs) (Z.of_nat r + k) = index xs k \/
  (Z.of_nat (length xs) <= k).
Proof.
  intros Hr Hk.
  destruct (Z.lt_ge_cases k (Z.of_nat (length xs))) as [Hlt|Hge]; [left|now right].
  apply index_agree; [lia|]. intros _. unfold insert_at.
  rewrite lookup_app_r by (rewrite length_take; lia).
  rewrite length_take, lookup_app_l by lia. f_equal. lia.
Qed.

Lemma index_insert_at_after l r xs k :
  (r <= length l)%nat -> Z.of_nat r <= k ->
  index (insert_at l r xs) (k + Z.of_nat (length xs)) = index l k.
Proof.
  intros Hr Hk. apply index_agree; [lia|]. intros _. unfold insert_at.
  rewrite lookup_app_r by (rewrite length_take; lia).
  rewrite lookup_app_r by (rewrite length_take; lia).
  rewrite lookup_drop, length_take. f_equal. lia.
Qed.

Lemma index_without_before l r k :
  k < Z.of_nat r -> (r < length l)%nat ->
  index (take r l ++ drop (S r) l) k = index l k.
Proof.
  intros Hk Hr. apply index_agree; [done|]. intros H0.
  rewrite lookup_app_l by (rewrite length_take; lia).
  apply lookup_take_lt. lia.
Qed.

Lemma index_without_after l r k :
  Z.of_nat r <= k -> (r < length l)%nat ->
  index (take r l ++ drop (S r) l) k = index l (k + 1).
Proof.
  intros Hk Hr. apply index_agree; [lia|]. intros H0.
  rewrite lookup_app_r by (rewrite length_take; lia).
  rewrite lookup_drop, length_take. f_equal. lia.
Qed.

(** Taking out the cell just put in gives the storage back. *)
Lemma without_insert_at l r x :
  (r <= length l)%nat ->
  take r (insert_at l r [x]) ++ drop (S r) (insert_at l r [x]) = l.
Proof.
  intros Hr. unfold insert_at.
  rewrite take_app_length' by (rewrite length_take; lia).
  replace (take r l ++ [x] ++ drop r l) with ((take r l ++ [x]) ++ drop r l)
    by (now rewrite <- app_assoc).
  rewrite drop_app_length' by (rewrite length_app, length_take; simpl; lia).
  apply take_drop.
Qed.

End more_cells.

(** ** Rows of SeriesFloat64 after Insert, Prepend, Remove and Update *)

Section float_rows.
Context `{D : Deps}.
Import SeriesFloat64.

Lemma Value_float_cell (s : SeriesFloat64) (k : Z) :
  Value s k = index (elems (Values s)) k ≫= fun x => Ok (float_cell x).
Proof.
  unfold Value, float_cell.
  destruct (index (elems (Values s)) k) as [x| |]; try reflexivity.
  rewrite !bind_Ok. now destruct (isNaN x).
Qed.

Lemma valToPointer_float_no_error (val : iface) :
  is_error (valToPointer val) = false.
Proof.
  unfold valToPointer.
  destruct val as [|f|[f|]|z|p|l|l|l|t]; try reflexivity;
    destruct (ParseFloat _); reflexivity.
Qed.

Lemma Insert_float_scalar_rows (s : SeriesFloat64) (row : Z) (val : iface) (v : float) :
  (forall V, val <> ISliceFloat64 V) ->
  valToPointer val = Ok v ->
  0 <= row <= NRows s ->
  exists s', Insert s row val = Ok s' /\
    elems (Values s') = insert_at (elems (Values s)) (Z.to_nat row) [v] /\
    NRows s' = NRows s + 1 /\
    Value s' row = Ok (float_cell v) /\
    (forall k, k < row -> Value s' k = Value s k) /\
    (forall k, row <= k -> Value s' (k + 1) = Value s k) /\
    nilCount s' = nilCount s + one_if isNaN v /\
    name s' = name s /\ valFormatter s' = valFormatter s.
Proof.
  intros Hb Hv Hr. unfold Insert.
  rewrite (insert_float_scalar s row val v Hb Hv Hr).
  unfold NRows, len in *. eexists. split; [reflexivity|].
  cbn [Values elems nilCount name valFormatter].
  assert (Hrn : (Z.to_nat row <= length (elems (Values s)))%nat) by lia.
  split; [reflexivity|]. split; [rewrite length_insert_at by done; simpl; lia|].
  split; [|split; [|split; [|done]]].
  - rewrite Value_float_cell. cbn [Values elems].
    destruct (index_insert_at_block (elems (Values s)) (Z.to_nat row) [v] 0 Hrn)
      as [E|E]; [lia| |simpl in E; lia].
    replace (Z.of_nat (Z.to_nat row) + 0) with row in E by lia.
    now rewrite E.
  - intros k Hk. rewrite !Value_float_cell. cbn [Values elems].
    now rewrite index_insert_at_before by lia.
  - intros k Hk. rewrite !Value_float_cell. cbn [Values elems].
    change 1 with (Z.of_nat (length [v])).
    now rewrite index_insert_at_after by lia.
Qed.



Lemma Remove_float_rows (s : SeriesFloat64) (row : Z) :
  0 <= row < NRows s ->
  exists s' x, elems (Values s) !! Z.to_nat row = Some x /\
    Remove s row = Ok s' /\
    elems (Values s')
    = take (Z.to_nat row) (elems (Values s)) ++ drop (S (Z.to_nat row)) (elems (Values s)) /\
    NRows s' = NRows s - 1 /\
    (forall k, k < row -> Value s' k = Value s k) /\
    (forall k, row <= k -> Value s' k = Value s (k + 1)) /\
    nilCount s' = nilCount s - one_if isNaN x /\
    name s' = name s /\ valFormatter s' = valFormatter s.
Proof.
  unfold NRows, len. intros Hr.
  destruct (index_in_range (elems (Values s)) row Hr) as (x & Ex & Lx).
  unfold Remove. rewrite Ex, bind_Ok.
  replace (Z.to_nat (row + 1)) with (S (Z.to_nat row)) by lia.
  eexists _, x. split; [exact Lx|]. split; [reflexivity|].
  assert (Hlt : (Z.to_nat row < length (elems (Values s)))%nat) by lia.
  assert (Hcells : forall b : bool,
    elems (Values (if b then with_nilCount s (nilCount s - 1) else s))
    = elems (Values s)) by (now intros []).
  cbn [with_Values Values elems append name valFormatter nilCount].
  rewrite !Hcells. split; [reflexivity|].
  split; [rewrite length_app, length_take, length_drop; lia|].
  split; [|split; [|split]].
  - intros k Hk. rewrite !Value_float_cell.
    cbn [with_Values Values elems append]. rewrite ?Hcells.
    now rewrite index_without_before by lia.
  - intros k Hk. rewrite !Value_float_cell.
    cbn [with_Values Values elems append]. rewrite ?Hcells.
    now rewrite index_without_after by lia.
  - unfold one_if. destruct (isNaN x); cbn; lia.
  - now destruct (isNaN x).
Qed.

Lemma Update_float_rows (s : SeriesFloat64) (row : Z) (val : iface) (v : float) :
  valToPointer val = Ok v ->
  0 <= row < NRows s ->
  exists s' old, elems (Values s) !! Z.to_nat row = Some old /\
    Update s row val = Ok s' /\
    elems (Values s') = <[Z.to_nat row := v]> (elems (Values s)) /\
    Value s' row = Ok (float_cell v) /\
    (forall k, k <> row -> Value s' k = Value s k) /\
    NRows s' = NRows s /\ cap (Values s') = cap (Values s) /\
    nilCount s' = nilCount s - one_if isNaN old + one_if isNaN v /\
    name s' = name s /\ valFormatter s' = valFormatter s.
Proof.
  unfold NRows, len. intros Hv Hr.
  destruct (index_in_range (elems (Values s)) row Hr) as (old & Eo & Lo).
  unfold Update. rewrite Hv, bind_Ok, Eo, bind_Ok. cbv zeta.
  set (s1 := if isNaN old && negb (isNaN v) then with_nilCount s (nilCount s - 1)
             else if negb (isNaN old) && isNaN v then with_nilCount s (nilCount s + 1)
             else s).
  assert (Hs1 : Values s1 = Values s /\ name s1 = name s /\
                valFormatter s1 = valFormatter s /\
                nilCount s1 = nilCount s - one_if isNaN old + one_if isNaN v).
  { unfold s1, one_if. destruct (isNaN old), (isNaN v); simpl; repeat split; lia. }
  destruct Hs1 as (Hvals & Hname & Hfmt & Hcount).
  eexists _, old. split; [exact Lo|].
  rewrite Hvals, store_in_range, bind_Ok by done.
  split; [reflexivity|].
  cbn [with_Values Values elems cap name valFormatter nilCount].
  split; [reflexivity|].
  split; [|split; [|split; [now rewrite length_insert|repeat split; done]]].
  - rewrite Value_float_cell. cbn [Values elems].
    rewrite (index_lookup _ row v); [reflexivity|lia|].
    apply list_lookup_insert_eq. lia.
  - intros k Hk. rewrite !Value_float_cell. cbn [Values elems].
    f_equal. apply index_agree; [done|]. intros H0.
    apply list_lookup_insert_ne. lia.
Qed.

Lemma float_rows_out_of_range (s : SeriesFloat64) (row : Z) :
  ~ (0 <= row < NRows s) ->
  is_panic (Value s row) = true /\
  is_panic (Remove s row) = true /\
  (forall val, is_panic (Update s row val) = true) /\
  (forall row2, row2 <> row ->
     is_panic (Swap s row row2) = true /\ is_panic (Swap s row2 row) = true).
Proof.
  unfold NRows, len. intros Hr.
  pose proof (index_out_of_range (elems (Values s)) row Hr) as Ei.
  split; [|split; [|split]].
  - unfold Value. now rewrite Ei.
  - unfold Remove. now rewrite Ei.
  - intros val. unfold Update.
    pose proof (valToPointer_float_no_error val) as Hne.
    destruct (valToPointer val) as [v| |]; [|discriminate|reflexivity].
    now rewrite bind_Ok, Ei.
  - intros row2 Hne. unfold Swap.
    destruct (Z.eqb_spec row row2); [congruence|].
    destruct (Z.eqb_spec row2 row); [congruence|].
    rewrite Ei. split; [|reflexivity].
    pose proof (index_no_error (elems (Values s)) row2) as Hne2.
    destruct (index (elems (Values s)) row2); [reflexivity|discriminate|reflexivity].
Qed.

Lemma Insert_float_out_of_range (s : SeriesFloat64) (row : Z) (val : iface) :
  ~ (0 <= row <= NRows s) -> is_panic (Insert s row val) = true.
Proof.
  unfold NRows, len. intros Hr.
  assert (Hscalar :
    is_panic
      (dst ← slice_from (elems (append (Values s) [nan])) (row + 1);
       src ← slice_from (elems (append (Values s) [nan])) row;
       v ← valToPointer val;
       l ← store (copy_within (elems (append (Values s) [nan])) dst src) row v;
       Ok (with_Values (if isNaN v then with_nilCount s (nilCount s + 1) else s)
             (Slice l (cap (append (Values s) [nan]))))) = true).
  { cbn [elems append].
    destruct (Z.lt_ge_cases row 0).
    - destruct (Z.eq_dec row (-1)) as [->|Hm].
      + rewrite (slice_from_in_range _ (-1 + 1))
          by (rewrite length_app; cbn [length]; lia).
        rewrite bind_Ok, slice_from_out_of_range by lia. reflexivity.
      + rewrite (slice_from_out_of_range _ (row + 1)) by lia. reflexivity.
    - rewrite (slice_from_out_of_range _ (row + 1)); [reflexivity|].
      rewrite length_app. cbn [length]. lia. }
  unfold Insert, insert.
  destruct val; try exact Hscalar. clear Hscalar.
  rewrite count_loop_float. cbn [Values with_nilCount].
  destruct ((0 <=? row) && (row <=? Z.of_nat (cap (Values s)))); [|reflexivity].
  now rewrite slice_from_out_of_range by lia.
Qed.


End float_rows.

(** ** Rows of SeriesInt64 after Insert, Prepend, Remove and Update *)

Section int_rows.
Context `{D : Deps}.
Import SeriesInt64.

Lemma Value_int_cell (s : SeriesInt64) (k : Z) :
  Value s k = index (elems (values s)) k ≫= fun x => Ok (int_cell x).
Proof.
  unfold Value, int_cell.
  destruct (index (elems (values s)) k) as [x| |]; try reflexivity.
  rewrite !bind_Ok. now destruct x.
Qed.

Lemma valToPointer_int_no_error (val : iface) :
  is_error (valToPointer val) = false.
Proof.
  unfold valToPointer.
  destruct val as [|f|p|z|[z|]|l|l|l|t]; try reflexivity;
    destruct (ParseInt _); reflexivity.
Qed.

Lemma Insert_int_scalar_rows (s : SeriesInt64) (row : Z) (val : iface) (v : option Z) :
  (forall V, val <> ISliceInt64 V) ->
  (forall V, val <> ISlicePtrInt64 V) ->
  valToPointer val = Ok v ->
  0 <= row <= NRows s ->
  exists s', Insert s row val = Ok s' /\
    elems (values s') = insert_at (elems (values s)) (Z.to_nat row) [v] /\
    NRows s' = NRows s + 1 /\
    Value s' row = Ok (int_cell v) /\
    (forall k, k < row -> Value s' k = Value s k) /\
    (forall k, row <= k -> Value s' (k + 1) = Value s k) /\
    nilCount s' = nilCount s + one_if isNil v /\
    name s' = name s /\ valFormatter s' = valFormatter s.
Proof.
  intros Hb Hb' Hv Hr. unfold Insert.
  rewrite (insert_int_scalar s row val v Hb Hb' Hv Hr).
  unfold NRows, len in *. eexists. split; [reflexivity|].
  cbn [values elems nilCount name valFormatter].
  assert (Hrn : (Z.to_nat row <= length (elems (values s)))%nat) by lia.
  split; [reflexivity|]. split; [rewrite length_insert_at by done; simpl; lia|].
  split; [|split; [|split; [|done]]].
  - rewrite Value_int_cell. cbn [values elems].
    destruct (index_insert_at_block (elems (values s)) (Z.to_nat row) [v] 0 Hrn)
      as [E|E]; [lia| |simpl in E; lia].
    replace (Z.of_nat (Z.to_nat row) + 0) with row in E by lia.
    now rewrite E.
  - intros k Hk. rewrite !Value_int_cell. cbn [values elems].
    now rewrite index_insert_at_before by lia.
  - intros k Hk. rewrite !Value_int_cell. cbn [values elems].
    change 1 with (Z.of_nat (length [v])).
    now rewrite index_insert_at_after by lia.
Qed.





Lemma Remove_int_rows (s : SeriesInt64) (row : Z) :
  0 <= row < NRows s ->
  exists s' x, elems (values s) !! Z.to_nat row = Some x /\
    Remove s row = Ok s' /\
    elems (values s')
    = take (Z.to_nat row) (elems (values s)) ++ drop (S (Z.to_nat row)) (elems (values s)) /\
    NRows s' = NRows s - 1 /\
    (forall k, k < row -> Value s' k = Value s k) /\
    (forall k, row <= k -> Value s' k = Value s (k + 1)) /\
    nilCount s' = nilCount s - one_if isNil x /\
    name s' = name s /\ valFormatter s' = valFormatter s.
Proof.
  unfold NRows, len. intros Hr.
  destruct (index_in_range (elems (values s)) row Hr) as (x & Ex & Lx).
  unfold Remove. rewrite Ex, bind_Ok.
  replace (Z.to_nat (row + 1)) with (S (Z.to_nat row)) by lia.
  eexists _, x. split; [exact Lx|]. split; [reflexivity|].
  assert (Hlt : (Z.to_nat row < length (elems (values s)))%nat) by lia.
  assert (Hcells : forall b : bool,
    elems (values (if b then with_nilCount s (nilCount s - 1) else s))
    = elems (values s)) by (now intros []).
  cbn [with_values values elems append name valFormatter nilCount].
  rewrite !Hcells. split; [reflexivity|].
  split; [rewrite length_app, length_take, length_drop; lia|].
  split; [|split; [|split]].
  - intros k Hk. rewrite !Value_int_cell.
    cbn [with_values values elems append]. rewrite ?Hcells.
    now rewrite index_without_before by lia.
  - intros k Hk. rewrite !Value_int_cell.
    cbn [with_values values elems append]. rewrite ?Hcells.
    now rewrite index_without_after by lia.
  - unfold one_if. destruct (isNil x); cbn; lia.
  - now destruct (isNil x).
Qed.

Lemma Update_int_rows (s : SeriesInt64) (row : Z) (val : iface) (v : option Z) :
  valToPointer val = Ok v ->
  0 <= row < NRows s ->
  exists s' old, elems (values s) !! Z.to_nat row = Some old /\
    Update s row val = Ok s' /\
    elems (values s') = <[Z.to_nat row := v]> (elems (values s)) /\
    Value s' row = Ok (int_cell v) /\
    (forall k, k <> row -> Value s' k = Value s k) /\
    NRows s' = NRows s /\ cap (values s') = cap (values s) /\
    nilCount s' = nilCount s - one_if isNil old + one_if isNil v /\
    name s' = name s /\ valFormatter s' = valFormatter s.
Proof.
  unfold NRows, len. intros Hv Hr.
  destruct (index_in_range (elems (values s)) row Hr) as (old & Eo & Lo).
  unfold Update. rewrite Hv, bind_Ok, Eo, bind_Ok. cbv zeta.
  set (s1 := if isNil old && negb (isNil v) then with_nilCount s (nilCount s - 1)
             else if negb (isNil old) && isNil v then with_nilCount s (nilCount s + 1)
             else s).
  assert (Hs1 : values s1 = values s /\ name s1 = name s /\
                valFormatter s1 = valFormatter s /\
                nilCount s1 = nilCount s - one_if isNil old + one_if isNil v).
  { unfold s1, one_if. destruct (isNil old), (isNil v); simpl; repeat split; lia. }
  destruct Hs1 as (Hvals & Hname & Hfmt & Hcount).
  eexists _, old. split; [exact Lo|].
  rewrite Hvals, store_in_range, bind_Ok by done.
  split; [reflexivity|].
  cbn [with_values values elems cap name valFormatter nilCount].
  split; [reflexivity|].
  split; [|split; [|split; [now rewrite length_insert|repeat split; done]]].
  - rewrite Value_int_cell. cbn [values elems].
    rewrite (index_lookup _ row v); [reflexivity|lia|].
    apply list_lookup_insert_eq. lia.
  - intros k Hk. rewrite !Value_int_cell. cbn [values elems].
    f_equal. apply index_agree; [done|]. intros H0.
    apply list_lookup_insert_ne. lia.
Qed.

Lemma int_rows_out_of_range (s : SeriesInt64) (row : Z) :
  ~ (0 <= row < NRows s) ->
  is_panic (Value s row) = true /\
  is_panic (Remove s row) = true /\
  (forall val, is_panic (Update s row val) = true) /\
  (forall row2, row2 <> row ->
     is_panic (Swap s row row2) = true /\ is_panic (Swap s row2 row) = true).
Proof.
  unfold NRows, len. intros Hr.
  pose proof (index_out_of_range (elems (values s)) row Hr) as Ei.
  split; [|split; [|split]].
  - unfold Value. now rewrite Ei.
  - unfold Remove. now rewrite Ei.
  - intros val. unfold Update.
    pose proof (valToPointer_int_no_error val) as Hne.
    destruct (valToPointer val) as [v| |]; [|discriminate|reflexivity].
    now rewrite bind_Ok, Ei.
  - intros row2 Hne. unfold Swap.
    destruct (Z.eqb_spec row row2); [congruence|].
    destruct (Z.eqb_spec row2 row); [congruence|].
    rewrite Ei. split; [|reflexivity].
    pose proof (index_no_error (elems (values s)) row2) as Hne2.
    destruct (index (elems (values s)) row2); [reflexivity|discriminate|reflexivity].
Qed.

Lemma Insert_int_out_of_range (s : SeriesInt64) (row : Z) (val : iface) :
  ~ (0 <= row <= NRows s) -> is_panic (Insert s row val) = true.
Proof.
  unfold NRows, len. intros Hr.
  assert (Hscalar :
    is_panic
      (dst ← slice_from (elems (append (values s) [None])) (row + 1);
       src ← slice_from (elems (append (values s) [None])) row;
       v ← valToPointer val;
       v' ← valToPointer (IPtrInt64 v);
       l ← store (copy_within (elems (append (values s) [None])) dst src) row v';
       Ok (with_values (if isNil v then with_nilCount s (nilCount s + 1) else s)
             (Slice l (cap (append (values s) [None]))))) = true).
  { cbn [elems append].
    destruct (Z.lt_ge_cases row 0).
    - destruct (Z.eq_dec row (-1)) as [->|Hm].
      + rewrite (slice_from_in_range _ (-1 + 1))
          by (rewrite length_app; cbn [length]; lia).
        rewrite bind_Ok, slice_from_out_of_range by lia. reflexivity.
      + rewrite (slice_from_out_of_range _ (row + 1)) by lia. reflexivity.
    - rewrite (slice_from_out_of_range _ (row + 1)); [reflexivity|].
      rewrite length_app. cbn [length]. lia. }
  unfold Insert, insert.
  destruct val; try exact Hscalar; clear Hscalar.
  - unfold insert_batch.
    destruct ((0 <=? row) && (row <=? Z.of_nat (cap (values s)))); [|reflexivity].
    now rewrite slice_from_out_of_range by lia.
  - rewrite count_loop_int. unfold insert_batch. cbn [values with_nilCount].
    destruct ((0 <=? row) && (row <=? Z.of_nat (cap (values s)))); [|reflexivity].
    now rewrite slice_from_out_of_range by lia.
Qed.


End int_rows.

Lemma lookup_insert_at_here {A} (l : list A) (r : nat) (x : A) (xs : list A) :
  (r <= length l)%nat -> insert_at l r (x :: xs) !! r = Some x.
Proof.
  intros Hr. unfold insert_at.
  rewrite lookup_app_r by (rewrite length_take; lia).
  rewrite length_take. now replace (r - r `min` length l)%nat with 0%nat by lia.
Qed.

(** ** The mutating operations, row by row *)







(** X5: [Remove] of a valid row returns normally; the series has one row
    less, the rows before the removed one are untouched, the rows after
    it have moved down by one, and [nilCount] has dropped by one exactly
    when the removed cell was absent.  Both variants. *)
Theorem Remove_closes_the_gap (D : Deps) :
  (forall (s : SeriesFloat64.SeriesFloat64) (row : Z),
      0 <= row < SeriesFloat64.NRows s ->
      exists s' x,
        elems (SeriesFloat64.Values s) !! Z.to_nat row = Some x /\
        SeriesFloat64.Remove s row = Ok s' /\
        SeriesFloat64.NRows s' = SeriesFloat64.NRows s - 1 /\
        (forall k, k < row -> SeriesFloat64.Value s' k = SeriesFloat64.Value s k) /\
        (forall k, row <= k ->
           SeriesFloat64.Value s' k = SeriesFloat64.Value s (k + 1)) /\
        SeriesFloat64.nilCount s' = SeriesFloat64.nilCount s - one_if isNaN x) /\
  (forall (s : SeriesInt64.SeriesInt64) (row : Z),
      0 <= row < SeriesInt64.NRows s ->
      exists s' x,
        elems (SeriesInt64.values s) !! Z.to_nat row = Some x /\
        SeriesInt64.Remove s row = Ok s' /\
        SeriesInt64.NRows s' = SeriesInt64.NRows s - 1 /\
        (forall k, k < row -> SeriesInt64.Value s' k = SeriesInt64.Value s k) /\
        (forall k, row <= k ->
           SeriesInt64.Value s' k = SeriesInt64.Value s (k + 1)) /\
        SeriesInt64.nilCount s' = SeriesInt64.nilCount s - one_if SeriesInt64.isNil x).
Proof.
  split.
  - intros s row Hr.
    destruct (Remove_float_rows s row Hr)
      as (s' & x & H1 & H2 & _ & H3 & H4 & H5 & H6 & _).
    exists s', x. repeat split; assumption.
  - intros s row Hr.
    destruct (Remove_int_rows s row Hr)
      as (s' & x & H1 & H2 & _ & H3 & H4 & H5 & H6 & _).
    exists s', x. repeat split; assumption.
Qed.

Lemma Remove_closes_the_gap_witness :
  let s := floats [1%float; nan; 3%float] 1 in
  0 <= 1 < SeriesFloat64.NRows s /\
  exists s' x,
    elems (SeriesFloat64.Values s) !! Z.to_nat 1 = Some x /\
    @SeriesFloat64.Remove sample_deps s 1 = Ok s' /\
    SeriesFloat64.NRows s' = SeriesFloat64.NRows s - 1 /\
    (forall k, k < 1 -> SeriesFloat64.Value s' k = SeriesFloat64.Value s k) /\
    (forall k, 1 <= k -> SeriesFloat64.Value s' k = SeriesFloat64.Value s (k + 1)) /\
    SeriesFloat64.nilCount s' = SeriesFloat64.nilCount s - one_if isNaN x.
Proof.
  intros s.
  assert (Hr : 0 <= 1 < SeriesFloat64.NRows s) by (vm_compute; split; congruence).
  split; [exact Hr|].
  exact (proj1 (Remove_closes_the_gap sample_deps) s 1 Hr).
Defined.

(** X6: [Remove] undoes [Insert]: putting a scalar in at a row and taking
    that row out again gives back the storage, [nilCount], the name and
    the formatter.  Both variants. *)
Theorem Remove_undoes_Insert (D : Deps) :
  (forall (s : SeriesFloat64.SeriesFloat64) (row : Z) (val : iface) (v : float),
      (forall V, val <> ISliceFloat64 V) ->
      SeriesFloat64.valToPointer val = Ok v ->
      0 <= row <= SeriesFloat64.NRows s ->
      exists s1 s2,
        SeriesFloat64.Insert s row val = Ok s1 /\
        SeriesFloat64.Remove s1 row = Ok s2 /\
        elems (SeriesFloat64.Values s2) = elems (SeriesFloat64.Values s) /\
        SeriesFloat64.nilCount s2 = SeriesFloat64.nilCount s /\
        SeriesFloat64.name s2 = SeriesFloat64.name s /\
        SeriesFloat64.valFormatter s2 = SeriesFloat64.valFormatter s) /\
  (forall (s : SeriesInt64.SeriesInt64) (row : Z) (val : iface) (v : option Z),
      (forall V, val <> ISliceInt64 V) ->
      (forall V, val <> ISlicePtrInt64 V) ->
      SeriesInt64.valToPointer val = Ok v ->
      0 <= row <= SeriesInt64.NRows s ->
      exists s1 s2,
        SeriesInt64.Insert s row val = Ok s1 /\
        SeriesInt64.Remove s1 row = Ok s2 /\
        elems (SeriesInt64.values s2) = elems (SeriesInt64.values s) /\
        SeriesInt64.nilCount s2 = SeriesInt64.nilCount s /\
        SeriesInt64.name s2 = SeriesInt64.name s /\
        SeriesInt64.valFormatter s2 = SeriesInt64.valFormatter s).
Proof.
  split.
  - intros s row val v Hb Hv Hr.
    destruct (Insert_float_scalar_rows s row val v Hb Hv Hr)
      as (s1 & Hi & Hel & Hn & _ & _ & _ & Hc & Hname & Hfmt).
    destruct (Remove_float_rows s1 row) as (s2 & x & Hx & Hrm & Hel2 & _ & _ & _ & Hc2 & Hname2 & Hfmt2);
      [lia|].
    assert (Hrn : (Z.to_nat row <= length (elems (SeriesFloat64.Values s)))%nat)
      by (unfold SeriesFloat64.NRows, len in Hr; lia).
    rewrite Hel, lookup_insert_at_here in Hx by done. injection Hx as <-.
    exists s1, s2. split; [exact Hi|]. split; [exact Hrm|].
    split; [rewrite Hel2, Hel; now apply without_insert_at|].
    split; [lia|]. split; congruence.
  - intros s row val v Hb Hb' Hv Hr.
    destruct (Insert_int_scalar_rows s row val v Hb Hb' Hv Hr)
      as (s1 & Hi & Hel & Hn & _ & _ & _ & Hc & Hname & Hfmt).
    destruct (Remove_int_rows s1 row) as (s2 & x & Hx & Hrm & Hel2 & _ & _ & _ & Hc2 & Hname2 & Hfmt2);
      [lia|].
    assert (Hrn : (Z.to_nat row <= length (elems (SeriesInt64.values s)))%nat)
      by (unfold SeriesInt64.NRows, len in Hr; lia).
    rewrite Hel, lookup_insert_at_here in Hx by done. injection Hx as <-.
    exists s1, s2. split; [exact Hi|]. split; [exact Hrm|].
    split; [rewrite Hel2, Hel; now apply without_insert_at|].
    split; [lia|]. split; congruence.
Qed.

Lemma Remove_undoes_Insert_witness :
  let s := ints [Some 1; None; Some 3] 1 in
  (forall V, INil <> ISliceInt64 V) /\
  (forall V, INil <> ISlicePtrInt64 V) /\
  @SeriesInt64.valToPointer sample_deps INil = Ok None /\
  0 <= 3 <= SeriesInt64.NRows s /\
  exists s1 s2,
    @SeriesInt64.Insert sample_deps s 3 INil = Ok s1 /\
    @SeriesInt64.Remove sample_deps s1 3 = Ok s2 /\
    elems (SeriesInt64.values s2) = elems (SeriesInt64.values s) /\
    SeriesInt64.nilCount s2 = SeriesInt64.nilCount s /\
    SeriesInt64.name s2 = SeriesInt64.name s /\
    SeriesInt64.valFormatter s2 = SeriesInt64.valFormatter s.
Proof.
  intros s.
  assert (Hb : forall V, INil <> ISliceInt64 V) by discriminate.
  assert (Hb' : forall V, INil <> ISlicePtrInt64 V) by discriminate.
  assert (Hv : @SeriesInt64.valToPointer sample_deps INil = Ok None) by reflexivity.
  assert (Hr : 0 <= 3 <= SeriesInt64.NRows s) by (vm_compute; split; discriminate).
  split; [exact Hb|]. split; [exact Hb'|]. split; [exact Hv|]. split; [exact Hr|].
  exact (proj2 (Remove_undoes_Insert sample_deps) s 3 INil None Hb Hb' Hv Hr).
Defined.

(** X7: [Update] of a valid row returns normally; the new value is read
    back at that row, every other row, the row count and the capacity
    are unchanged, and [nilCount] is reconciled: one less when an absent
    cell becomes present, one more when a present cell becomes absent,
    unchanged otherwise.  Both variants. *)
Theorem Update_overwrites_one_row (D : Deps) :
  (forall (s : SeriesFloat64.SeriesFloat64) (row : Z) (val : iface) (v : float),
      SeriesFloat64.valToPointer val = Ok v ->
      0 <= row < SeriesFloat64.NRows s ->
      exists s' old,
        elems (SeriesFloat64.Values s) !! Z.to_nat row = Some old /\
        SeriesFloat64.Update s row val = Ok s' /\
        SeriesFloat64.Value s' row = Ok (float_cell v) /\
        (forall k, k <> row -> SeriesFloat64.Value s' k = SeriesFloat64.Value s k) /\
        SeriesFloat64.NRows s' = SeriesFloat64.NRows s /\
        cap (SeriesFloat64.Values s') = cap (SeriesFloat64.Values s) /\
        SeriesFloat64.nilCount s'
        = SeriesFloat64.nilCount s - one_if isNaN old + one_if isNaN v) /\
  (forall (s : SeriesInt64.SeriesInt64) (row : Z) (val : iface) (v : option Z),
      SeriesInt64.valToPointer val = Ok v ->
      0 <= row < SeriesInt64.NRows s ->
      exists s' old,
        elems (SeriesInt64.values s) !! Z.to_nat row = Some old /\
        SeriesInt64.Update s row val = Ok s' /\
        SeriesInt64.Value s' row = Ok (int_cell v) /\
        (forall k, k <> row -> SeriesInt64.Value s' k = SeriesInt64.Value s k) /\
        SeriesInt64.NRows s' = SeriesInt64.NRows s /\
        cap (SeriesInt64.values s') = cap (SeriesInt64.values s) /\
        SeriesInt64.nilCount s'
        = SeriesInt64.nilCount s - one_if SeriesInt64.isNil old
          + one_if SeriesInt64.isNil v).
Proof.
  split.
  - intros s row val v Hv Hr.
    destruct (Update_float_rows s row val v Hv Hr)
      as (s' & old & H1 & H2 & _ & H3 & H4 & H5 & H6 & H7 & _).
    exists s', old. repeat split; assumption.
  - intros s row val v Hv Hr.
    destruct (Update_int_rows s row val v Hv Hr)
      as (s' & old & H1 & H2 & _ & H3 & H4 & H5 & H6 & H7 & _).
    exists s', old. repeat split; assumption.
Qed.

Lemma Update_overwrites_one_row_witness :
  let s := floats [1%float; nan; 3%float] 1 in
  @SeriesFloat64.valToPointer sample_deps (IFloat64 2) = Ok 2%float /\
  0 <= 1 < SeriesFloat64.NRows s /\
  exists s' old,
    elems (SeriesFloat64.Values s) !! Z.to_nat 1 = Some old /\
    @SeriesFloat64.Update sample_deps s 1 (IFloat64 2) = Ok s' /\
    SeriesFloat64.Value s' 1 = Ok (float_cell 2) /\
    (forall k, k <> 1 -> SeriesFloat64.Value s' k = SeriesFloat64.Value s k) /\
    SeriesFloat64.NRows s' = SeriesFloat64.NRows s /\
    cap (SeriesFloat64.Values s') = cap (SeriesFloat64.Values s) /\
    SeriesFloat64.nilCount s'
    = SeriesFloat64.nilCount s - one_if isNaN old + one_if isNaN 2%float.
Proof.
  intros s.
  assert (Hv : @SeriesFloat64.valToPointer sample_deps (IFloat64 2) = Ok 2%float)
    by reflexivity.
  assert (Hr : 0 <= 1 < SeriesFloat64.NRows s) by (vm_compute; split; congruence).
  split; [exact Hv|]. split; [exact Hr|].
  exact (proj1 (Update_overwrites_one_row sample_deps) s 1 (IFloat64 2) 2%float Hv Hr).
Defined.

(** X8: a row outside the series is a panic, never an error value and
    never a silent no-op: [Value], [Remove], [Update] (whatever the
    value) and [Swap] with a different second row panic when the row is
    not in [0, N), and [Insert] (scalar or batch) panics when the row is
    not in [0, N].  Both variants. *)
Theorem rows_out_of_range_panic (D : Deps) :
  (forall (s : SeriesFloat64.SeriesFloat64) (row : Z),
      ~ (0 <= row < SeriesFloat64.NRows s) ->
      is_panic (SeriesFloat64.Value s row) = true /\
      is_panic (SeriesFloat64.Remove s row) = true /\
      (forall val, is_panic (SeriesFloat64.Update s row val) = true) /\
      (forall row2, row2 <> row ->
         is_panic (SeriesFloat64.Swap s row row2) = true /\
         is_panic (SeriesFloat64.Swap s row2 row) = true)) /\
  (forall (s : SeriesFloat64.SeriesFloat64) (row : Z) (val : iface),
      ~ (0 <= row <= SeriesFloat64.NRows s) ->
      is_panic (SeriesFloat64.Insert s row val) = true) /\
  (forall (s : SeriesInt64.SeriesInt64) (row : Z),
      ~ (0 <= row < SeriesInt64.NRows s) ->
      is_panic (SeriesInt64.Value s row) = true /\
      is_panic (SeriesInt64.Remove s row) = true /\
      (forall val, is_panic (SeriesInt64.Update s row val) = true) /\
      (forall row2, row2 <> row ->
         is_panic (SeriesInt64.Swap s row row2) = true /\
         is_panic (SeriesInt64.Swap s row2 row) = true)) /\
  (forall (s : SeriesInt64.SeriesInt64) (row : Z) (val : iface),
      ~ (0 <= row <= SeriesInt64.NRows s) ->
      is_panic (SeriesInt64.Insert s row val) = true).
Proof.
  split; [|split; [|split]].
  - intros s row Hr. now apply float_rows_out_of_range.
  - intros s row val Hr. now apply Insert_float_out_of_range.
  - intros s row Hr. now apply int_rows_out_of_range.
  - intros s row val Hr. now apply Insert_int_out_of_range.
Qed.

Lemma rows_out_of_range_panic_witness :
  let s := floats [1%float; 2%float] 0 in
  ~ (0 <= 2 < SeriesFloat64.NRows s) /\
  ~ (0 <= -1 <= SeriesFloat64.NRows s) /\
  is_panic (SeriesFloat64.Value s 2) = true /\
  is_panic (@SeriesFloat64.Remove sample_deps s 2) = true /\
  is_panic (@SeriesFloat64.Update sample_deps s 2 (IFloat64 1)) = true /\
  is_panic (SeriesFloat64.Swap s 2 0) = true /\
  is_panic (@SeriesFloat64.Insert sample_deps s (-1) INil) = true.
Proof.
  intros s.
  assert (H2 : ~ (0 <= 2 < SeriesFloat64.NRows s)) by (vm_compute; intros [_ H]; discriminate H).
  assert (Hm : ~ (0 <= -1 <= SeriesFloat64.NRows s)) by (intros [H _]; apply H; reflexivity).
  split; [exact H2|]. split; [exact Hm|].
  destruct (proj1 (rows_out_of_range_panic sample_deps) s 2 H2)
    as (Hv & Hrm & Hu & Hs).
  split; [exact Hv|]. split; [exact Hrm|]. split; [exact (Hu (IFloat64 1))|].
  split; [exact (proj1 (Hs 0 ltac:(discriminate)))|].
  exact (proj1 (proj2 (rows_out_of_range_panic sample_deps)) s (-1) INil Hm).
Defined.

(** ** Sort and Swap only move values around *)

Lemma count_absent_perm {A} (absent : A -> bool) (l l' : list A) :
  l ≡ₚ l' -> count_absent absent l = count_absent absent l'.
Proof.
  induction 1 as [|x l l' _ IH|x y l|l l' l'' _ IH1 _ IH2]; simpl; lia.
Qed.

Section sort_permutes.
Context {A : Type} (Less : list A -> nat -> nat -> bool).

Lemma sort_Swap_perm (l : list A) (i j : nat) : sort.Swap l i j ≡ₚ l.
Proof.
  unfold sort.Swap.
  destruct (l !! i) as [x|] eqn:Hi; [|done].
  destruct (l !! j) as [y|] eqn:Hj; [|done].
  now apply (Permutation_insert_swap l j i y x).
Qed.

Lemma foldl_perm {B} (f : list A -> B -> list A) (bs : list B) (l : list A) :
  (forall l b, f l b ≡ₚ l) -> foldl f l bs ≡ₚ l.
Proof.
  intros Hf. revert l. induction bs as [|b bs IH]; intros l; simpl; [done|].
  now rewrite IH.
Qed.

Lemma insertionSort_inner_perm (a j : nat) (l : list A) :
  sort.insertionSort_inner Less a j l ≡ₚ l.
Proof.
  revert l. induction j as [|j IH]; intros l; simpl; [done|].
  destruct ((a <? S j)%nat && Less l (S j) j); [|done].
  now rewrite IH, sort_Swap_perm.
Qed.

Lemma insertionSort_perm (l : list A) (a b : nat) :
  sort.insertionSort Less l a b ≡ₚ l.
Proof.
  unfold sort.insertionSort. apply foldl_perm.
  intros. apply insertionSort_inner_perm.
Qed.

Lemma swapRange_perm (l : list A) (a b n : nat) : sort.swapRange l a b n ≡ₚ l.
Proof.
  unfold sort.swapRange. apply foldl_perm. intros. apply sort_Swap_perm.
Qed.

Lemma rotate_loop_perm (fuel : nat) (l : list A) (m i j : nat) :
  sort.rotate_loop fuel l m i j ≡ₚ l.
Proof.
  revert l i j. induction fuel as [|fuel IH]; intros l i j; simpl; [done|].
  destruct (i =? j)%nat; [apply swapRange_perm|].
  destruct (j <? i)%nat; now rewrite IH, swapRange_perm.
Qed.

Lemma rotate_perm (l : list A) (a m b : nat) : sort.rotate l a m b ≡ₚ l.
Proof. apply rotate_loop_perm. Qed.

Lemma symMerge_perm (fuel : nat) (l : list A) (a m b : nat) :
  sort.symMerge Less fuel l a m b ≡ₚ l.
Proof.
  revert l a m b. induction fuel as [|fuel IH]; intros l a m b; simpl; [done|].
  destruct (m - a =? 1)%nat.
  { apply foldl_perm. intros. apply sort_Swap_perm. }
  destruct (b - m =? 1)%nat.
  { apply foldl_perm. intros. apply sort_Swap_perm. }
  destruct (((a + b) / 2 <? m)%nat);
    repeat match goal with
           | |- context [if ?c then _ else _] => destruct c
           end;
    rewrite ?IH, ?rotate_perm; done.
Qed.

Lemma stable_blocks_perm (fuel : nat) (l : list A) (a b n blockSize : nat) :
  (sort.stable_blocks Less fuel l a b n blockSize).1 ≡ₚ l.
Proof.
  revert l a b. induction fuel as [|fuel IH]; intros l a b; simpl; [done|].
  destruct (b <=? n)%nat; [|done]. now rewrite IH, insertionSort_perm.
Qed.

Lemma stable_merges_perm (fuel : nat) (l : list A) (a b n blockSize : nat) :
  (sort.stable_merges Less fuel l a b n blockSize).1 ≡ₚ l.
Proof.
  revert l a b. induction fuel as [|fuel IH]; intros l a b; simpl; [done|].
  destruct (b <=? n)%nat; [|done]. now rewrite IH, symMerge_perm.
Qed.

Lemma stable_rounds_perm (fuel : nat) (l : list A) (n blockSize : nat) :
  sort.stable_rounds Less fuel l n blockSize ≡ₚ l.
Proof.
  revert l blockSize. induction fuel as [|fuel IH]; intros l blockSize; simpl; [done|].
  destruct (blockSize <? n)%nat; [|done].
  pose proof (stable_merges_perm n l 0 (blockSize + (blockSize + 0)) n blockSize) as Hm.
  destruct (sort.stable_merges Less n l 0 (blockSize + (blockSize + 0)) n blockSize)
    as [l1 a1]. simpl in Hm.
  rewrite IH. destruct (a1 + blockSize <? n)%nat; [|done].
  now rewrite symMerge_perm.
Qed.

Lemma SliceStable_perm (l : list A) : sort.SliceStable Less l ≡ₚ l.
Proof.
  unfold sort.SliceStable, sort.stable.
  pose proof (stable_blocks_perm (length l) l 0 20 (length l) 20) as Hb.
  destruct (sort.stable_blocks Less (length l) l 0 20 (length l) 20) as [l1 a1].
  simpl in Hb. now rewrite stable_rounds_perm, insertionSort_perm.
Qed.

End sort_permutes.

(** X9: [Sort] only rearranges: whatever the options, the sorted storage
    is a permutation of the old one, so no value is lost, invented or
    changed; the row count, the capacity, the name, the formatter,
    [nilCount] and the number of absent slots are what they were.  Both
    variants, for every length (the merge rounds included). *)
Theorem Sort_rearranges_only :
  (forall (s : SeriesFloat64.SeriesFloat64) (options : list Options),
      elems (SeriesFloat64.Values (SeriesFloat64.Sort s options))
        ≡ₚ elems (SeriesFloat64.Values s) /\
      SeriesFloat64.NRows (SeriesFloat64.Sort s options) = SeriesFloat64.NRows s /\
      cap (SeriesFloat64.Values (SeriesFloat64.Sort s options))
      = cap (SeriesFloat64.Values s) /\
      SeriesFloat64.name (SeriesFloat64.Sort s options) = SeriesFloat64.name s /\
      SeriesFloat64.valFormatter (SeriesFloat64.Sort s options)
      = SeriesFloat64.valFormatter s /\
      SeriesFloat64.nilCount (SeriesFloat64.Sort s options) = SeriesFloat64.nilCount s /\
      SeriesFloat64.absent_slots (SeriesFloat64.Sort s options)
      = SeriesFloat64.absent_slots s) /\
  (forall (s : SeriesInt64.SeriesInt64) (options : list Options),
      elems (SeriesInt64.values (SeriesInt64.Sort s options))
        ≡ₚ elems (SeriesInt64.values s) /\
      SeriesInt64.NRows (SeriesInt64.Sort s options) = SeriesInt64.NRows s /\
      cap (SeriesInt64.values (SeriesInt64.Sort s options))
      = cap (SeriesInt64.values s) /\
      SeriesInt64.name (SeriesInt64.Sort s options) = SeriesInt64.name s /\
      SeriesInt64.valFormatter (SeriesInt64.Sort s options)
      = SeriesInt64.valFormatter s /\
      SeriesInt64.nilCount (SeriesInt64.Sort s options) = SeriesInt64.nilCount s /\
      SeriesInt64.absent_slots (SeriesInt64.Sort s options)
      = SeriesInt64.absent_slots s).
Proof.
  split; intros s options.
  - assert (Hp : elems (SeriesFloat64.Values (SeriesFloat64.Sort s options))
                   ≡ₚ elems (SeriesFloat64.Values s)) by apply SliceStable_perm.
    split; [exact Hp|].
    split; [unfold SeriesFloat64.NRows, len; now rewrite Hp|].
    repeat split. unfold SeriesFloat64.absent_slots.
    now apply count_absent_perm.
  - assert (Hp : elems (SeriesInt64.values (SeriesInt64.Sort s options))
                   ≡ₚ elems (SeriesInt64.values s)) by apply SliceStable_perm.
    split; [exact Hp|].
    split; [unfold SeriesInt64.NRows, len; now rewrite Hp|].
    repeat split. unfold SeriesInt64.absent_slots.
    now apply count_absent_perm.
Qed.

(** ** The invariant along every run without Prepend *)

Section steps_preserve.
Context `{D : Deps}.



End steps_preserve.



(** ** A range that does not resolve *)

(** X10: on a series with rows, when [Limits] rejects the range with an
    error, [Copy] and [Table] panic with that error, while
    [SimpleExponentialSmoothing] hands the same error back to its caller. *)
Theorem unresolved_range_panics_or_returns (D : Deps) :
  (forall (s : SeriesFloat64.SeriesFloat64) (r : list Range) (e : string),
      0 < SeriesFloat64.NRows s ->
      Limits (first_range r) (SeriesFloat64.NRows s) = Error e ->
      SeriesFloat64.Copy s r = Panic e /\
      SeriesFloat64.Table s r = Panic e /\
      (forall ctx α m, forecast.SimpleExponentialSmoothing ctx s α m r = Error e)) /\
  (forall (s : SeriesInt64.SeriesInt64) (r : list Range) (e : string),
      0 < SeriesInt64.NRows s ->
      Limits (first_range r) (SeriesInt64.NRows s) = Error e ->
      SeriesInt64.Copy s r = Panic e /\
      SeriesInt64.Table s r = Panic e).
Proof.
  split.
  - intros s r e Hn HL. unfold SeriesFloat64.NRows in *.
    split; [|split].
    + unfold SeriesFloat64.Copy.
      destruct (Z.eqb_spec (len (SeriesFloat64.Values s)) 0); [lia|].
      now rewrite first_range_index, bind_Ok, HL.
    + unfold SeriesFloat64.Table.
      destruct (Z.ltb_spec 0 (len (SeriesFloat64.Values s))); [|lia].
      now rewrite first_range_index, bind_Ok, HL.
    + intros ctx α m. unfold forecast.SimpleExponentialSmoothing.
      destruct (Z.eqb_spec (len (SeriesFloat64.Values s)) 0); [lia|].
      now rewrite first_range_index, bind_Ok, HL.
  - intros s r e Hn HL. unfold SeriesInt64.NRows in *. split.
    + unfold SeriesInt64.Copy.
      destruct (Z.eqb_spec (len (SeriesInt64.values s)) 0); [lia|].
      now rewrite first_range_index, bind_Ok, HL.
    + unfold SeriesInt64.Table.
      destruct (Z.ltb_spec 0 (len (SeriesInt64.values s))); [|lia].
      now rewrite first_range_index, bind_Ok, HL.
Qed.

Lemma unresolved_range_panics_or_returns_witness :
  let s := floats [1%float; 2%float] 0 in
  let r := [Build_Range (Some 1) (Some 5)] in
  0 < SeriesFloat64.NRows s /\
  @Limits sample_deps (first_range r) (SeriesFloat64.NRows s) = Error "invalid range" /\
  @SeriesFloat64.Copy sample_deps s r = Panic "invalid range" /\
  @SeriesFloat64.Table sample_deps s r = Panic "invalid range" /\
  @forecast.SimpleExponentialSmoothing sample_deps background s 0.5 2 r
  = Error "invalid range".
Proof.
  intros s r.
  assert (Hn : 0 < SeriesFloat64.NRows s) by reflexivity.
  assert (HL : @Limits sample_deps (first_range r) (SeriesFloat64.NRows s)
               = Error "invalid range") by reflexivity.
  split; [exact Hn|]. split; [exact HL|].
  destruct (proj1 (unresolved_range_panics_or_returns sample_deps) s r _ Hn HL)
    as (Hc & Ht & Hs).
  split; [exact Hc|]. split; [exact Ht|]. exact (Hs background 0.5%float 2).
Defined.

(** ** Validation and cancellation of the forecast *)

(** X11: once the range has resolved to rows [start..end], the forecast
    checks its arguments in a fixed order and before it looks at the
    context: fewer than two rows in the range give the error "no values
    in series range"; otherwise m <= 0 gives "m must be greater than 0";
    otherwise α below 0 or above 1 gives "α must be between [0,1]". *)
Theorem SimpleExponentialSmoothing_validation (D : Deps) :
  forall (ctx : forecast.Ctx) (s : SeriesFloat64.SeriesFloat64) (α : float)
         (m : Z) (r : list Range) (start end_ : Z),
    0 < SeriesFloat64.NRows s ->
    Limits (first_range r) (SeriesFloat64.NRows s) = Ok (start, end_) ->
    (end_ - start < 1 ->
       forecast.SimpleExponentialSmoothing ctx s α m r
       = Error "no values in series range") /\
    (1 <= end_ - start -> m <= 0 ->
       forecast.SimpleExponentialSmoothing ctx s α m r
       = Error "m must be greater than 0") /\
    (1 <= end_ - start -> 0 < m ->
       (α <? 0)%float = true \/ (1 <? α)%float = true ->
       forecast.SimpleExponentialSmoothing ctx s α m r
       = Error "α must be between [0,1]").
Proof.
  intros ctx s α m r start end_ Hn HL.
  unfold forecast.SimpleExponentialSmoothing, SeriesFloat64.NRows in *.
  destruct (Z.eqb_spec (len (SeriesFloat64.Values s)) 0); [lia|].
  rewrite first_range_index, bind_Ok, HL, bind_Ok.
  split; [|split].
  - intros H. now destruct (Z.ltb_spec (end_ - start) 1); [|lia].
  - intros H Hm. destruct (Z.ltb_spec (end_ - start) 1); [lia|].
    now destruct (Z.leb_spec m 0); [|lia].
  - intros H Hm Hα. destruct (Z.ltb_spec (end_ - start) 1); [lia|].
    destruct (Z.leb_spec m 0); [lia|].
    now destruct Hα as [-> | ->]; [|rewrite orb_true_r].
Qed.

Lemma SimpleExponentialSmoothing_validation_witness :
  let s := floats [1%float; 2%float; 3%float] 0 in
  0 < SeriesFloat64.NRows s /\
  Limits_spec (first_range [Build_Range (Some 1) (Some 1)]) (SeriesFloat64.NRows s)
  = Ok (1, 1) /\
  Limits_spec (first_range []) (SeriesFloat64.NRows s) = Ok (0, 2) /\
  ((1.5 <? 0)%float = true \/ (1 <? 1.5)%float = true) /\
  @forecast.SimpleExponentialSmoothing sample_deps background s 0.5 2
    [Build_Range (Some 1) (Some 1)] = Error "no values in series range" /\
  @forecast.SimpleExponentialSmoothing sample_deps background s 0.5 0 []
  = Error "m must be greater than 0" /\
  @forecast.SimpleExponentialSmoothing sample_deps background s 1.5 2 []
  = Error "α must be between [0,1]".
Proof.
  intros s.
  assert (Hn : 0 < SeriesFloat64.NRows s) by reflexivity.
  assert (H1 : Limits_spec (first_range [Build_Range (Some 1) (Some 1)])
                 (SeriesFloat64.NRows s) = Ok (1, 1)) by reflexivity.
  assert (H2 : Limits_spec (first_range []) (SeriesFloat64.NRows s) = Ok (0, 2))
    by reflexivity.
  split; [exact Hn|]. split; [exact H1|]. split; [exact H2|].
  split; [right; reflexivity|].
  split; [|split].
  - apply (proj1 (SimpleExponentialSmoothing_validation sample_deps background s
                    0.5%float 2 _ 1 1 Hn H1)). lia.
  - apply (proj1 (proj2 (SimpleExponentialSmoothing_validation sample_deps background s
                    0.5%float 0 _ 0 2 Hn H2))); lia.
  - apply (proj2 (proj2 (SimpleExponentialSmoothing_validation sample_deps background s
                    1.5%float 2 _ 0 2 Hn H2))); [lia|lia|now right].
Defined.

Section cancelled.
Context `{D : Deps} (ctx : forecast.Ctx) (Values : list float) (α : float).
Context (k : nat) (err : string).
Hypothesis before : forall j, (j < k)%nat -> ctx j = None.
Hypothesis at_k : ctx k = Some err.

(** The historical loop stops with the error at the poll that finds the
    context cancelled, and runs through when that poll comes later. *)
Lemma level_cancelled (start : Z) (rows : list Z) :
  Forall (fun i => 0 <= i < Z.of_nat (length Values)) rows ->
  forall (polls : nat) (st : float),
    (polls <= k)%nat ->
    ((k < polls + length rows)%nat ->
       forecast.SimpleExponentialSmoothing_level ctx Values α start rows polls st
       = Error err) /\
    ((polls + length rows <= k)%nat ->
       exists st',
         forecast.SimpleExponentialSmoothing_level ctx Values α start rows polls st
         = Ok (st', (polls + length rows)%nat)).
Proof.
  induction 1 as [|i rows Hi _ IH]; intros polls st Hp; simpl.
  - split; [lia|]. intros _. exists st. f_equal. f_equal. lia.
  - destruct (index_in_range Values i Hi) as (x & Ex & _).
    destruct (Nat.eq_dec polls k) as [->|Hne].
    + rewrite at_k. split; [done|lia].
    + rewrite before by lia. rewrite Ex, bind_Ok.
      destruct (IH (S polls) (if i =? start then x else (α * x + (1 - α) * st)%float))
        as [IH1 IH2]; [lia|].
      split.
      * intros Hk. apply IH1. lia.
      * intros Hk. destruct IH2 as (st' & ->); [lia|].
        exists st'. f_equal. f_equal. lia.
Qed.

Lemma forecast_cancelled (end_ : Z) :
  0 <= end_ < Z.of_nat (length Values) ->
  forall (m polls : nat) (st : float) (forecast : slice float),
    (polls <= k)%nat -> (k < polls + m)%nat ->
    forecast.SimpleExponentialSmoothing_forecast ctx Values α end_ m polls st forecast
    = Error err.
Proof.
  intros He. destruct (index_in_range Values end_ He) as (x & Ex & _).
  induction m as [|m IH]; intros polls st forecast Hp Hk; simpl; [lia|].
  destruct (Nat.eq_dec polls k) as [->|Hne].
  - now rewrite at_k.
  - rewrite before by lia. rewrite Ex, bind_Ok. apply IH; lia.
Qed.

End cancelled.

(** X12: the forecast allocates its result before it looks at the
    context, then polls the context once before every historical row and
    once before every forecast step.  With m a number of elements the
    run time grants, when the poll number k (from 0) is the first to find
    the context cancelled and k is below the number of rows in the range
    plus m, the forecast returns the context's error instead of a series.
    With m beyond what the run time grants the forecast panics in [make],
    whatever the context says. *)
Theorem SimpleExponentialSmoothing_cancelled (D : Deps) :
  (forall (ctx : forecast.Ctx) (s : SeriesFloat64.SeriesFloat64) (α : float)
          (m : Z) (r : list Range) (start end_ : Z) (k : nat) (err : string),
      Limits (first_range r) (SeriesFloat64.NRows s) = Ok (start, end_) ->
      0 <= start -> start < end_ -> end_ < SeriesFloat64.NRows s ->
      (α <? 0)%float = false -> (1 <? α)%float = false ->
      1 <= m -> m <= maxElems ->
      (forall j, (j < k)%nat -> ctx j = None) ->
      ctx k = Some err ->
      Z.of_nat k < (end_ + 1 - start) + m ->
      forecast.SimpleExponentialSmoothing ctx s α m r = Error err) /\
  (forall (ctx : forecast.Ctx) (s : SeriesFloat64.SeriesFloat64) (α : float)
          (m : Z) (r : list Range) (start end_ : Z),
      0 < SeriesFloat64.NRows s ->
      Limits (first_range r) (SeriesFloat64.NRows s) = Ok (start, end_) ->
      start < end_ ->
      (α <? 0)%float = false -> (1 <? α)%float = false ->
      0 <= maxElems -> maxElems < m ->
      forecast.SimpleExponentialSmoothing ctx s α m r
      = Panic "runtime error: makeslice: cap out of range").
Proof.
  split.
  - intros ctx s α m r start end_ k err HL Hs Hse He Hα0 Hα1 Hm Hmax Hbefore Hk Hlt.
    unfold forecast.SimpleExponentialSmoothing, SeriesFloat64.NRows, len in *.
    destruct (Z.eqb_spec (Z.of_nat (length (elems (SeriesFloat64.Values s)))) 0);
      [lia|].
    rewrite first_range_index, bind_Ok, HL, bind_Ok.
    destruct (Z.ltb_spec (end_ - start) 1); [lia|].
    destruct (Z.leb_spec m 0); [lia|].
    rewrite Hα0, Hα1. cbn [orb]. rewrite make_Ok, bind_Ok by lia.
    assert (Hrows : Forall (fun i => 0 <= i < Z.of_nat (length (elems (SeriesFloat64.Values s))))
                           (seqZ start (end_ + 1 - start))).
    { apply Forall_seqZ. intros j Hj. lia. }
    destruct (level_cancelled ctx (elems (SeriesFloat64.Values s)) α k err Hbefore Hk
                start _ Hrows 0%nat 0%float) as [Hin Hout]; [lia|].
    rewrite length_seqZ in Hin, Hout.
    destruct (Nat.lt_ge_cases k (0 + Z.to_nat (end_ + 1 - start))) as [Hc|Hc].
    + now rewrite Hin.
    + destruct (Hout Hc) as (st' & ->). rewrite bind_Ok.
      rewrite (forecast_cancelled ctx _ α k err Hbefore Hk end_); [reflexivity|lia|lia|lia].
  - intros ctx s α m r start end_ Hn HL Hse Hα0 Hα1 Hm Hmax.
    now apply (forecast_refused ctx s α m r start end_).
Qed.

Lemma SimpleExponentialSmoothing_cancelled_witness :
  let s := floats [10%float; 12%float; 13%float] 0 in
  let ctx : forecast.Ctx := fun j => if (j <? 4)%nat then None else Some "context canceled" in
  Limits_spec (first_range []) (SeriesFloat64.NRows s) = Ok (0, 2) /\
  (0.5 <? 0)%float = false /\ (1 <? 0.5)%float = false /\
  2 <= @maxElems sample_deps /\
  (forall j, (j < 4)%nat -> ctx j = None) /\
  ctx 4%nat = Some "context canceled" /\
  @forecast.SimpleExponentialSmoothing sample_deps ctx s 0.5 2 []
  = Error "context canceled" /\
  @maxElems sample_deps < 2 ^ 62 /\
  @forecast.SimpleExponentialSmoothing sample_deps (fun _ => Some "context canceled")
    s 0.5 (2 ^ 62) []
  = Panic "runtime error: makeslice: cap out of range".
Proof.
  intros s ctx.
  assert (HL : Limits_spec (first_range []) (SeriesFloat64.NRows s) = Ok (0, 2))
    by reflexivity.
  assert (H0 : (0.5 <? 0)%float = false) by reflexivity.
  assert (H1 : (1 <? 0.5)%float = false) by reflexivity.
  assert (Hmax : 2 <= @maxElems sample_deps) by (vm_compute; discriminate).
  assert (Hb : forall j, (j < 4)%nat -> ctx j = None).
  { intros j Hj. unfold ctx. now destruct (Nat.ltb_spec j 4); [|lia]. }
  assert (Hk : ctx 4%nat = Some "context canceled") by reflexivity.
  assert (Hbig : @maxElems sample_deps < 2 ^ 62) by reflexivity.
  split; [exact HL|]. split; [exact H0|]. split; [exact H1|]. split; [exact Hmax|].
  split; [exact Hb|]. split; [exact Hk|]. split; [|split; [exact Hbig|]].
  - refine (proj1 (SimpleExponentialSmoothing_cancelled sample_deps) ctx s 0.5%float
              2 [] 0 2 4%nat _ HL _ _ _ H0 H1 _ Hmax Hb Hk _).
    + lia.
    + lia.
    + reflexivity.
    + lia.
    + reflexivity.
  - refine (proj2 (SimpleExponentialSmoothing_cancelled sample_deps)
              (fun _ => Some "context canceled") s 0.5%float (2 ^ 62) [] 0 2
              _ HL _ H0 H1 _ Hbig).
    + reflexivity.
    + lia.
    + lia.
Defined.

Lemma forecast_loop_length `{D : Deps} (ctx : forecast.Ctx) (Values : list float)
    (α : float) (end_ : Z) (m : nat) :
  forall (polls : nat) (st : float) (forecast forecast' : slice float),
    forecast.SimpleExponentialSmoothing_forecast ctx Values α end_ m polls st forecast
    = Ok forecast' ->
    length (elems forecast') = (length (elems forecast) + m)%nat.
Proof.
  induction m as [|m IH]; intros polls st forecast forecast' H; simpl in H.
  - injection H as <-. lia.
  - destruct (ctx polls); [discriminate|]. step_Ok H as x Ex.
    apply IH in H. rewrite H. cbn [elems append]. rewrite length_app. simpl. lia.
Qed.

(** *** Absent values in the history *)

Lemma isNaN_spec (x : float) : isNaN x = true <-> Prim2SF x = S754_nan.
Proof.
  unfold isNaN, is_nan. rewrite negb_true_iff, FloatAxioms.eqb_spec. unfold SFeqb.
  destruct (Prim2SF x) as [sx|sx| |sx mx ex]; simpl.
  - destruct sx; split; discriminate.
  - destruct sx; split; discriminate.
  - split; reflexivity.
  - change (PosDef.Pos.compare_cont Eq mx mx) with (Pos.compare mx mx).
    rewrite Z.compare_refl, Pos.compare_refl. destruct sx; split; discriminate.
Qed.

Lemma isNaN_mul_r (x y : float) : isNaN y = true -> isNaN (x * y) = true.
Proof.
  rewrite !isNaN_spec, mul_spec. intros ->. unfold SF64mul, SFmul.
  now destruct (Prim2SF x).
Qed.

Lemma isNaN_add_l (x y : float) : isNaN x = true -> isNaN (x + y) = true.
Proof. rewrite !isNaN_spec, add_spec. intros ->. reflexivity. Qed.

Lemma isNaN_add_r (x y : float) : isNaN y = true -> isNaN (x + y) = true.
Proof.
  rewrite !isNaN_spec, add_spec. intros ->. unfold SF64add, SFadd.
  now destruct (Prim2SF x).
Qed.

(** One step of the smoothing is absent as soon as the value or the level
    it starts from is. *)
Lemma isNaN_smoothing_step (α x st : float) :
  isNaN x = true \/ isNaN st = true ->
  isNaN (α * x + (1 - α) * st) = true.
Proof.
  intros [Hx|Hs].
  - apply isNaN_add_l, isNaN_mul_r, Hx.
  - apply isNaN_add_r, isNaN_mul_r, Hs.
Qed.

Lemma count_absent_all {A} (absent : A -> bool) (l : list A) :
  Forall (fun x => absent x = true) l ->
  count_absent absent l = Z.of_nat (length l).
Proof.
  induction 1 as [|x l Hx _ IH]; [reflexivity|].
  cbn [count_absent length]. rewrite Hx, IH. lia.
Qed.

Section absent_history.
Context `{D : Deps} (ctx : forecast.Ctx) (Values : list float) (α : float).

(** The historical loop, over the rows from [a] on: the level it returns
    is absent when one of these rows is, or when the level it is given is
    absent and the start row is behind. *)
Lemma level_absent (start : Z) (k : nat) :
  forall (a : Z) (polls polls' : nat) (st st' : float),
    forecast.SimpleExponentialSmoothing_level ctx Values α start
      (seqZ a (Z.of_nat k)) polls st = Ok (st', polls') ->
    (isNaN st = true /\ start < a) \/
    (exists i x, a <= i < a + Z.of_nat k /\ start <= a /\ 0 <= i /\
                 Values !! Z.to_nat i = Some x /\ isNaN x = true) ->
    isNaN st' = true.
Proof.
  induction k as [|k IH]; intros a polls polls' st st' H Hnan.
  - cbn in H. injection H as <- <-.
    destruct Hnan as [[Hst _]|(i & x & Hi & _)]; [done|lia].
  - rewrite seqZ_cons in H by lia.
    replace (Z.pred (Z.of_nat (S k))) with (Z.of_nat k) in H by lia.
    cbn [forecast.SimpleExponentialSmoothing_level] in H.
    destruct (ctx polls); [discriminate|]. step_Ok H as xt Ext.
    apply index_Ok_inv in Ext as [Ha Lxt].
    apply IH in H; [done|].
    destruct Hnan as [[Hst Hsa]|(i & x & Hi & Hsa & Hi0 & Lx & Hx)].
    + left. split; [|lia]. destruct (Z.eqb_spec a start); [lia|].
      apply isNaN_smoothing_step. now right.
    + destruct (decide (i = a)) as [->|Hne].
      * left. split; [|lia]. assert (xt = x) as -> by congruence.
        destruct (Z.eqb_spec a start); [done|].
        apply isNaN_smoothing_step. now left.
      * right. exists i, x. repeat split; (lia || done).
Qed.

(** The forecast loop appends absent values only, once the level is absent. *)
Lemma forecast_absent (end_ : Z) (m : nat) :
  forall (polls : nat) (st : float) (forecast forecast' : slice float),
    forecast.SimpleExponentialSmoothing_forecast ctx Values α end_ m polls st forecast
    = Ok forecast' ->
    isNaN st = true ->
    Forall (fun y => isNaN y = true) (elems forecast) ->
    Forall (fun y => isNaN y = true) (elems forecast').
Proof.
  induction m as [|m IH]; intros polls st forecast forecast' H Hst Hf; simpl in H.
  - now injection H as <-.
  - destruct (ctx polls); [discriminate|]. step_Ok H as x Ex.
    assert (Hst' : isNaN (α * x + (1 - α) * st) = true)
      by (apply isNaN_smoothing_step; now right).
    apply IH in H; [done|done|].
    cbn [elems append]. apply Forall_app. split; [done|]. now repeat constructor.
Qed.

End absent_history.

(** X13: a series that the forecast returns is named "forecast", has the
    default formatter, exactly m rows with 1 <= m, and a [nilCount] of 0
    whatever it holds.  When a row of the range is absent in the history,
    every one of the m forecasts is absent, and the series returned still
    has a [nilCount] of 0 and answers false to [ContainsNil]. *)
Theorem forecast_series_shape (D : Deps) :
  (forall (ctx : forecast.Ctx) (s fdf : SeriesFloat64.SeriesFloat64)
          (α : float) (m : Z) (r : list Range),
      forecast.SimpleExponentialSmoothing ctx s α m r = Ok fdf ->
      SeriesFloat64.name fdf = "forecast" /\
      SeriesFloat64.valFormatter fdf = DefaultValueFormatter /\
      SeriesFloat64.nilCount fdf = 0 /\
      SeriesFloat64.NRows fdf = m /\ 1 <= m) /\
  (forall (ctx : forecast.Ctx) (s fdf : SeriesFloat64.SeriesFloat64)
          (α : float) (m : Z) (r : list Range) (start end_ i : Z) (x : float),
      forecast.SimpleExponentialSmoothing ctx s α m r = Ok fdf ->
      Limits (first_range r) (SeriesFloat64.NRows s) = Ok (start, end_) ->
      start <= i <= end_ ->
      elems (SeriesFloat64.Values s) !! Z.to_nat i = Some x ->
      isNaN x = true ->
      Forall (fun y => isNaN y = true) (elems (SeriesFloat64.Values fdf)) /\
      SeriesFloat64.absent_slots fdf = m /\
      SeriesFloat64.nilCount fdf = 0 /\
      SeriesFloat64.ContainsNil fdf = false).
Proof.
  assert (Hshape : forall (ctx : forecast.Ctx) (s fdf : SeriesFloat64.SeriesFloat64)
            (α : float) (m : Z) (r : list Range),
            forecast.SimpleExponentialSmoothing ctx s α m r = Ok fdf ->
            SeriesFloat64.name fdf = "forecast" /\
            SeriesFloat64.valFormatter fdf = DefaultValueFormatter /\
            SeriesFloat64.nilCount fdf = 0 /\
            SeriesFloat64.NRows fdf = m /\ 1 <= m).
  { intros ctx s fdf α m r H.
    unfold forecast.SimpleExponentialSmoothing in H.
    destruct (len (SeriesFloat64.Values s) =? 0); [discriminate|].
    step_Ok H as r0 Er. step_Ok H as lim El. destruct lim as [start end_].
    destruct (end_ - start <? 1); [discriminate|].
    destruct (Z.leb_spec m 0); [discriminate|].
    destruct ((α <? 0)%float || (1 <? α)%float); [discriminate|].
    step_Ok H as fc0 Em. apply make_Ok_inv in Em as (_ & _ & Hmax & ->).
    step_Ok H as lv Elv. destruct lv as [st polls].
    step_Ok H as fc Efc. apply forecast_loop_length in Efc.
    rewrite NewSeriesFloat64_without_rows, bind_Ok in H by lia.
    injection H as <-.
    repeat split; try lia.
    unfold SeriesFloat64.NRows, len. cbn [SeriesFloat64.with_Values SeriesFloat64.Values].
    rewrite Efc. simpl. lia. }
  split; [exact Hshape|].
  intros ctx s fdf α m r start end_ i x H HL Hi Lx Hx.
  destruct (Hshape ctx s fdf α m r H) as (_ & _ & Hc & Hrows & Hm).
  assert (Hall : Forall (fun y => isNaN y = true) (elems (SeriesFloat64.Values fdf))).
  { unfold forecast.SimpleExponentialSmoothing, SeriesFloat64.NRows in *.
    destruct (len (SeriesFloat64.Values s) =? 0); [discriminate|].
    rewrite first_range_index, bind_Ok, HL, bind_Ok in H.
    destruct (Z.ltb_spec (end_ - start) 1); [discriminate|].
    destruct (Z.leb_spec m 0); [discriminate|].
    destruct ((α <? 0)%float || (1 <? α)%float); [discriminate|].
    step_Ok H as fc0 Em. apply make_Ok_inv in Em as (_ & _ & Hmax & ->).
    step_Ok H as lv Elv. destruct lv as [st polls].
    step_Ok H as fc Efc.
    rewrite NewSeriesFloat64_without_rows, bind_Ok in H by lia.
    injection H as <-. cbn [SeriesFloat64.with_Values SeriesFloat64.Values].
    assert (Hst : isNaN st = true).
    { assert (Hstart : 0 <= start).
      { replace (end_ + 1 - start) with (Z.of_nat (Z.to_nat (end_ + 1 - start)))
          in Elv by lia.
        destruct (Z.to_nat (end_ + 1 - start)) as [|k] eqn:Ek; [lia|].
        rewrite seqZ_cons in Elv by lia.
        cbn [forecast.SimpleExponentialSmoothing_level] in Elv.
        destruct (ctx 0%nat); [discriminate|]. step_Ok Elv as xt Ext.
        apply index_Ok_inv in Ext. lia. }
      replace (end_ + 1 - start) with (Z.of_nat (Z.to_nat (end_ + 1 - start)))
        in Elv by lia.
      apply (level_absent ctx _ α start _ start _ _ _ _ Elv).
      right. exists i, x. repeat split; (lia || done). }
    apply (forecast_absent ctx _ α end_ _ _ _ _ _ Efc Hst). constructor. }
  split; [exact Hall|]. split.
  - unfold SeriesFloat64.absent_slots. rewrite (count_absent_all _ _ Hall).
    exact Hrows.
  - split; [exact Hc|]. unfold SeriesFloat64.ContainsNil. now rewrite Hc.
Qed.

Lemma forecast_series_shape_witness :
  let s := floats [1%float; nan; 3%float] 1 in
  exists fdf,
    @forecast.SimpleExponentialSmoothing sample_deps background s 0.5 3 [] = Ok fdf /\
    Limits_spec (first_range []) (SeriesFloat64.NRows s) = Ok (0, 2) /\
    0 <= 1 <= 2 /\
    elems (SeriesFloat64.Values s) !! Z.to_nat 1 = Some nan /\
    isNaN nan = true /\
    SeriesFloat64.name fdf = "forecast" /\
    SeriesFloat64.NRows fdf = 3 /\
    Forall (fun y => isNaN y = true) (elems (SeriesFloat64.Values fdf)) /\
    SeriesFloat64.absent_slots fdf = 3 /\
    SeriesFloat64.nilCount fdf = 0 /\
    SeriesFloat64.ContainsNil fdf = false.
Proof.
  intros s.
  destruct (@forecast.SimpleExponentialSmoothing sample_deps background s 0.5 3 [])
    as [fdf| |] eqn:H; [|discriminate H|discriminate H].
  assert (HL : Limits_spec (first_range []) (SeriesFloat64.NRows s) = Ok (0, 2))
    by reflexivity.
  assert (Hi : 0 <= 1 <= 2) by lia.
  assert (Lx : elems (SeriesFloat64.Values s) !! Z.to_nat 1 = Some nan) by reflexivity.
  assert (Hx : isNaN nan = true) by reflexivity.
  destruct (proj1 (forecast_series_shape sample_deps) background s fdf 0.5%float 3 [] H)
    as (Hn & _ & _ & Hr & _).
  destruct (proj2 (forecast_series_shape sample_deps) background s fdf 0.5%float 3 []
              0 2 1 nan H HL Hi Lx Hx) as (Hall & Ha & Hc & Hcn).
  exists fdf. split; [reflexivity|]. split; [exact HL|]. split; [exact Hi|].
  split; [exact Lx|]. split; [exact Hx|]. split; [exact Hn|]. split; [exact Hr|].
  split; [exact Hall|]. split; [exact Ha|]. split; [exact Hc|exact Hcn].
Defined.

(** ** The comparators as an order *)

Lemma SFcompare_antisym (x y : spec_float) :
  SFcompare y x = CompOpp <$> SFcompare x y.
Proof.
  destruct x as [sx|sx| |sx mx ex], y as [sy|sy| |sy my ey]; simpl.
  16: { change (PosDef.Pos.compare_cont Eq mx my) with (Pos.compare mx my).
        change (PosDef.Pos.compare_cont Eq my mx) with (Pos.compare my mx).
        rewrite (Z.compare_antisym ex ey), (Pos.compare_antisym mx my).
        destruct sx, sy; simpl; try reflexivity;
          destruct (ex ?= ey); simpl; try reflexivity;
          destruct (mx ?= my)%positive; reflexivity. }
  all: try destruct sx; try destruct sy; reflexivity.
Qed.

Lemma float_eqb_sym (x y : float) : (x =? y)%float = (y =? x)%float.
Proof.
  rewrite !FloatAxioms.eqb_spec. unfold SFeqb.
  rewrite (SFcompare_antisym (Prim2SF x) (Prim2SF y)).
  now destruct (SFcompare (Prim2SF x) (Prim2SF y)) as [[]|].
Qed.

Lemma float_ltb_asym (x y : float) :
  (x <? y)%float = true -> (y <? x)%float = false.
Proof.
  rewrite !ltb_spec. unfold SFltb.
  rewrite (SFcompare_antisym (Prim2SF x) (Prim2SF y)).
  now destruct (SFcompare (Prim2SF x) (Prim2SF y)) as [[]|].
Qed.

Lemma float_eqb_not_ltb (x y : float) :
  (x =? y)%float = true -> (x <? y)%float = false /\ (y <? x)%float = false.
Proof.
  rewrite FloatAxioms.eqb_spec, !ltb_spec. unfold SFeqb, SFltb.
  rewrite (SFcompare_antisym (Prim2SF x) (Prim2SF y)).
  now destruct (SFcompare (Prim2SF x) (Prim2SF y)) as [[]|].
Qed.

(** X14: [IsEqualFunc] does not depend on the order of its arguments,
    panics included; [IsLessThanFunc] holds in both directions only
    between two absence markers; and two present values that
    [IsEqualFunc] calls equal are not less than one another.  Both
    variants. *)
Theorem comparators_agree :
  (forall a b, SeriesFloat64.IsEqualFunc a b = SeriesFloat64.IsEqualFunc b a) /\
  (forall a b,
      SeriesFloat64.IsLessThanFunc a b = Ok true ->
      SeriesFloat64.IsLessThanFunc b a = Ok true -> a = INil /\ b = INil) /\
  (forall a b,
      a <> INil -> SeriesFloat64.IsEqualFunc a b = Ok true ->
      SeriesFloat64.IsLessThanFunc a b = Ok false /\
      SeriesFloat64.IsLessThanFunc b a = Ok false) /\
  (forall a b, SeriesInt64.IsEqualFunc a b = SeriesInt64.IsEqualFunc b a) /\
  (forall a b,
      SeriesInt64.IsLessThanFunc a b = Ok true ->
      SeriesInt64.IsLessThanFunc b a = Ok true -> a = INil /\ b = INil) /\
  (forall a b,
      a <> INil -> SeriesInt64.IsEqualFunc a b = Ok true ->
      SeriesInt64.IsLessThanFunc a b = Ok false /\
      SeriesInt64.IsLessThanFunc b a = Ok false).
Proof.
  split; [|split; [|split; [|split; [|split]]]].
  - intros a b. destruct a, b; try reflexivity.
    simpl. now rewrite float_eqb_sym.
  - intros a b Hab Hba. destruct a, b; try discriminate; try done.
    simpl in *. injection Hab as Hab. injection Hba as Hba.
    apply float_ltb_asym in Hab. congruence.
  - intros a b Ha H. destruct a, b; try discriminate; try done.
    simpl in *. injection H as H.
    destruct (float_eqb_not_ltb _ _ H) as [-> ->]. now split.
  - intros a b. destruct a, b; try reflexivity.
    simpl. now rewrite Z.eqb_sym.
  - intros a b Hab Hba. destruct a, b; try discriminate; try done.
    simpl in *. injection Hab as Hab. injection Hba as Hba.
    apply Z.ltb_lt in Hab. apply Z.ltb_lt in Hba. lia.
  - intros a b Ha H. destruct a, b; try discriminate; try done.
    simpl in *. injection H as H. apply Z.eqb_eq in H as ->.
    rewrite Z.ltb_irrefl. now split.
Qed.

Lemma comparators_agree_witness :
  SeriesInt64.IsLessThanFunc INil INil = Ok true /\
  IInt64 3 <> INil /\
  SeriesInt64.IsEqualFunc (IInt64 3) (IInt64 3) = Ok true /\
  SeriesInt64.IsLessThanFunc (IInt64 3) (IInt64 3) = Ok false.
Proof.
  assert (Hn : IInt64 3 <> INil) by discriminate.
  assert (He : SeriesInt64.IsEqualFunc (IInt64 3) (IInt64 3) = Ok true) by reflexivity.
  split; [reflexivity|]. split; [exact Hn|]. split; [exact He|].
  destruct comparators_agree as (_ & _ & _ & _ & _ & H).
  exact (proj1 (H (IInt64 3) (IInt64 3) Hn He)).
Defined.

(** ** ContainsNil *)

Lemma count_absent_positive {A} (absent : A -> bool) (l : list A) :
  0 < count_absent absent l <-> exists i x, l !! i = Some x /\ absent x = true.
Proof.
  induction l as [|y l IH]; simpl.
  - split; [lia|]. now intros (i & x & H & _).
  - pose proof (count_absent_nonneg absent l) as Hnn. split.
    + intros H. destruct (absent y) eqn:Hy.
      * now exists 0%nat, y.
      * destruct (proj1 IH) as (i & x & Hx & Ha); [lia|]. now exists (S i), x.
    + intros (i & x & Hx & Ha). destruct i as [|i].
      * injection Hx as ->. rewrite Ha. lia.
      * assert (0 < count_absent absent l) by (apply IH; eauto).
        destruct (absent y); lia.
Qed.

(** X15: on a series whose [nilCount] is exact, [ContainsNil] says
    whether some row reads as the absence marker: it is true exactly
    when [Value] returns nil for some row.  Both variants. *)
Theorem ContainsNil_finds_absent_rows :
  (forall s : SeriesFloat64.SeriesFloat64,
      counts_floats s ->
      (SeriesFloat64.ContainsNil s = true
       <-> exists row, SeriesFloat64.Value s row = Ok INil)) /\
  (forall s : SeriesInt64.SeriesInt64,
      counts_ints s ->
      (SeriesInt64.ContainsNil s = true
       <-> exists row, SeriesInt64.Value s row = Ok INil)).
Proof.
  split; intros s Hs.
  - unfold SeriesFloat64.ContainsNil. rewrite Z.ltb_lt, Hs.
    unfold SeriesFloat64.absent_slots. rewrite count_absent_positive. split.
    + intros (i & x & Hx & Ha). exists (Z.of_nat i).
      rewrite Value_float_cell, (index_lookup _ _ x), bind_Ok;
        [|lia|now rewrite Nat2Z.id].
      unfold float_cell. now rewrite Ha.
    + intros (row & H). rewrite Value_float_cell in H.
      step_Ok H as x Ex. apply index_Ok_inv in Ex as [_ Lx].
      exists (Z.to_nat row), x. split; [exact Lx|].
      unfold float_cell in H. now destruct (isNaN x).
  - unfold SeriesInt64.ContainsNil. rewrite Z.ltb_lt, Hs.
    unfold SeriesInt64.absent_slots. rewrite count_absent_positive. split.
    + intros (i & x & Hx & Ha). exists (Z.of_nat i).
      rewrite Value_int_cell, (index_lookup _ _ x), bind_Ok;
        [|lia|now rewrite Nat2Z.id].
      now destruct x.
    + intros (row & H). rewrite Value_int_cell in H.
      step_Ok H as x Ex. apply index_Ok_inv in Ex as [_ Lx].
      exists (Z.to_nat row), x. split; [exact Lx|].
      now destruct x.
Qed.

Lemma ContainsNil_finds_absent_rows_witness :
  let s := floats [1%float; nan] 1 in
  counts_floats s /\
  (SeriesFloat64.ContainsNil s = true
   <-> exists row, SeriesFloat64.Value s row = Ok INil).
Proof.
  intros s.
  assert (Hs : counts_floats s) by reflexivity.
  split; [exact Hs|].
  exact (proj1 ContainsNil_finds_absent_rows s Hs).
Defined.

(** ** Table on a range that resolves *)

Section table_rows.
Context `{D : Deps}.

Lemma ValueString_float_in_range (s : SeriesFloat64.SeriesFloat64) (row : Z) :
  0 <= row < SeriesFloat64.NRows s ->
  exists v, SeriesFloat64.ValueString s row = Ok v.
Proof.
  intros Hr. destruct (index_in_range (elems (SeriesFloat64.Values s)) row Hr)
    as (x & Ex & _).
  unfold SeriesFloat64.ValueString. rewrite Value_float_cell, Ex, !bind_Ok. eauto.
Qed.

Lemma ValueString_int_in_range (s : SeriesInt64.SeriesInt64) (row : Z) :
  0 <= row < SeriesInt64.NRows s ->
  exists v, SeriesInt64.ValueString s row = Ok v.
Proof.
  intros Hr. destruct (index_in_range (elems (SeriesInt64.values s)) row Hr)
    as (x & Ex & _).
  unfold SeriesInt64.ValueString. rewrite Value_int_cell, Ex, !bind_Ok. eauto.
Qed.

(** The loop over the rows of [Table], for any way of reading a row that
    succeeds on these rows. *)
Lemma table_lines (read : Z -> outcome string) (rows : list Z) :
  Forall (fun row => exists v, read row = Ok v) rows ->
  exists data,
    mapM (fun row => v ← read row; Ok [Sprintf_d row +:+ ":"; v]) rows = Ok data /\
    Forall2 (fun row line => exists v, read row = Ok v /\ line = [Sprintf_d row +:+ ":"; v])
            rows data.
Proof.
  induction 1 as [|row rows [v Hv] _ (data & Hm & Hf)].
  - exists []. split; [reflexivity|constructor].
  - exists ([Sprintf_d row +:+ ":"; v] :: data). split.
    + cbn [mapM]. rewrite Hv, bind_Ok, bind_Ok.
      change (mapM (fun row => v ← read row; Ok [Sprintf_d row +:+ ":"; v]) rows ≫=
              (fun k => mret ([Sprintf_d row +:+ ":"; v] :: k))
              = Ok ([Sprintf_d row +:+ ":"; v] :: data)).
      now rewrite Hm.
    + constructor; [eauto|exact Hf].
Qed.

End table_rows.

(** X16: on a range that resolves to rows within the series, [Table]
    does not panic; what it hands to the table writer is the header (an
    empty cell and the name), one line per row of the range in rising
    order, each made of the row number followed by a colon and of the
    [ValueString] of that row, and the footer (the size and the type). *)
Theorem Table_lists_the_rows_of_the_range (D : Deps) :
  (forall (s : SeriesFloat64.SeriesFloat64) (r : list Range) (start end_ : Z),
      0 < SeriesFloat64.NRows s ->
      Limits (first_range r) (SeriesFloat64.NRows s) = Ok (start, end_) ->
      0 <= start -> end_ < SeriesFloat64.NRows s ->
      exists data,
        SeriesFloat64.Table s r
        = Ok (Render (Build_table [""; SeriesFloat64.name s] data
                        [Sprintf_d (SeriesFloat64.NRows s) +:+ "x" +:+ Sprintf_d 1;
                         "float64"])) /\
        Forall2 (fun row line =>
                   exists v, SeriesFloat64.ValueString s row = Ok v /\
                             line = [Sprintf_d row +:+ ":"; v])
                (seqZ start (end_ + 1 - start)) data) /\
  (forall (s : SeriesInt64.SeriesInt64) (r : list Range) (start end_ : Z),
      0 < SeriesInt64.NRows s ->
      Limits (first_range r) (SeriesInt64.NRows s) = Ok (start, end_) ->
      0 <= start -> end_ < SeriesInt64.NRows s ->
      exists data,
        SeriesInt64.Table s r
        = Ok (Render (Build_table [""; SeriesInt64.name s] data
                        [Sprintf_d (SeriesInt64.NRows s) +:+ "x" +:+ Sprintf_d 1;
                         "int64"])) /\
        Forall2 (fun row line =>
                   exists v, SeriesInt64.ValueString s row = Ok v /\
                             line = [Sprintf_d row +:+ ":"; v])
                (seqZ start (end_ + 1 - start)) data).
Proof.
  split.
  - intros s r start end_ Hn HL Hs He.
    destruct (table_lines (SeriesFloat64.ValueString s) (seqZ start (end_ + 1 - start)))
      as (data & Hm & Hf).
    { apply Forall_seqZ. intros j Hj. apply ValueString_float_in_range. lia. }
    exists data. split; [|exact Hf].
    unfold SeriesFloat64.Table, SeriesFloat64.NRows in *.
    destruct (Z.ltb_spec 0 (len (SeriesFloat64.Values s))); [|lia].
    now rewrite first_range_index, bind_Ok, HL, Hm, bind_Ok.
  - intros s r start end_ Hn HL Hs He.
    destruct (table_lines (SeriesInt64.ValueString s) (seqZ start (end_ + 1 - start)))
      as (data & Hm & Hf).
    { apply Forall_seqZ. intros j Hj. apply ValueString_int_in_range. lia. }
    exists data. split; [|exact Hf].
    unfold SeriesInt64.Table, SeriesInt64.NRows in *.
    destruct (Z.ltb_spec 0 (len (SeriesInt64.values s))); [|lia].
    now rewrite first_range_index, bind_Ok, HL, Hm, bind_Ok.
Qed.

Lemma Table_lists_the_rows_of_the_range_witness :
  let s := ints [Some 4; None; Some 6] 1 in
  let r := [Build_Range (Some 1) None] in
  0 < SeriesInt64.NRows s /\
  @Limits sample_deps (first_range r) (SeriesInt64.NRows s) = Ok (1, 2) /\
  exists data,
    @SeriesInt64.Table sample_deps s r
    = Ok (@Render sample_deps
            (Build_table [""; "x"] data
               [Sprintf_d (SeriesInt64.NRows s) +:+ "x" +:+ Sprintf_d 1; "int64"])) /\
    Forall2 (fun row line =>
               exists v, SeriesInt64.ValueString s row = Ok v /\
                         line = [Sprintf_d row +:+ ":"; v])
            (seqZ 1 (2 + 1 - 1)) data.
Proof.
  intros s r.
  assert (Hn : 0 < SeriesInt64.NRows s) by reflexivity.
  assert (HL : @Limits sample_deps (first_range r) (SeriesInt64.NRows s) = Ok (1, 2))
    by reflexivity.
  split; [exact Hn|]. split; [exact HL|].
  refine (proj2 (Table_lists_the_rows_of_the_range sample_deps) s r 1 2 Hn HL _ _).
  - lia.
  - reflexivity.
Defined.

(** ** What the constructors build *)

Section constructors_build.
Context `{D : Deps}.

Lemma NewSeriesFloat64_vals_forward (size : Z) (vals : list iface) (xs : list float) :
  Forall2 (fun v x => SeriesFloat64.valToPointer v = Ok x) vals xs ->
  forall (stored : list float) (s : SeriesFloat64.SeriesFloat64),
    elems (SeriesFloat64.Values s)
    = stored ++ replicate (Z.to_nat size - length stored) 0%float ->
    exists s',
      SeriesFloat64.NewSeriesFloat64_vals size (Z.of_nat (length stored)) vals s = Ok s' /\
      elems (SeriesFloat64.Values s')
      = (stored ++ xs) ++ replicate (Z.to_nat size - length (stored ++ xs)) 0%float /\
      SeriesFloat64.name s' = SeriesFloat64.name s /\
      SeriesFloat64.valFormatter s' = SeriesFloat64.valFormatter s.
Proof.
  induction 1 as [|v x vals xs Hv _ IH]; intros stored s Hel; simpl.
  - exists s. rewrite app_nil_r. now repeat split.
  - rewrite Hv, bind_Ok.
    set (s1 := if isNaN x
               then SeriesFloat64.with_nilCount s (SeriesFloat64.nilCount s + 1)
               else s).
    assert (Hs1 : SeriesFloat64.Values s1 = SeriesFloat64.Values s /\
                  SeriesFloat64.name s1 = SeriesFloat64.name s /\
                  SeriesFloat64.valFormatter s1 = SeriesFloat64.valFormatter s)
      by (unfold s1; now destruct (isNaN x)).
    destruct Hs1 as (Hvals & Hname & Hfmt).
    assert (Hnext : exists s2,
      (if Z.of_nat (length stored) <? size
       then l ← store (elems (SeriesFloat64.Values s1)) (Z.of_nat (length stored)) x;
            Ok (SeriesFloat64.with_Values s1 (Slice l (cap (SeriesFloat64.Values s1))))
       else Ok (SeriesFloat64.with_Values s1 (append (SeriesFloat64.Values s1) [x])))
      = Ok s2 /\
      elems (SeriesFloat64.Values s2)
      = (stored ++ [x]) ++ replicate (Z.to_nat size - length (stored ++ [x])) 0%float /\
      SeriesFloat64.name s2 = SeriesFloat64.name s /\
      SeriesFloat64.valFormatter s2 = SeriesFloat64.valFormatter s).
    { rewrite Hvals, Hel.
      destruct (Z.ltb_spec (Z.of_nat (length stored)) size) as [Hlt|Hge].
      - rewrite store_in_range
          by (rewrite length_app, length_replicate; lia).
        rewrite bind_Ok. eexists. split; [reflexivity|].
        cbn [SeriesFloat64.with_Values SeriesFloat64.Values elems
             SeriesFloat64.name SeriesFloat64.valFormatter].
        split; [|done]. rewrite Nat2Z.id.
        replace (Z.to_nat size - length stored)%nat
          with (S (Z.to_nat size - length (stored ++ [x])))
          by (rewrite length_app; cbn [length]; lia).
        cbn [replicate].
        replace (length stored) with (length stored + 0)%nat at 1 by lia.
        rewrite insert_app_r. cbn [insert list_insert].
        now rewrite (cons_middle x), app_assoc.
      - eexists. split; [reflexivity|].
        cbn [SeriesFloat64.with_Values SeriesFloat64.Values elems append
             SeriesFloat64.name SeriesFloat64.valFormatter].
        split; [|done]. rewrite ?Hel.
        replace (Z.to_nat size - length stored)%nat with 0%nat by lia.
        replace (Z.to_nat size - length (stored ++ [x]))%nat with 0%nat
          by (rewrite length_app; cbn [length]; lia).
        cbn [replicate]. now rewrite !app_nil_r. }
    destruct Hnext as (s2 & -> & Hel2 & Hname2 & Hfmt2). rewrite bind_Ok.
    replace (Z.of_nat (length stored) + 1)
      with (Z.of_nat (length (stored ++ [x])))
      by (rewrite length_app; cbn [length]; lia).
    destruct (IH (stored ++ [x]) s2 Hel2) as (s' & Hrun & Hel' & Hname' & Hfmt').
    exists s'. split; [exact Hrun|].
    rewrite <- (app_assoc stored [x] xs) in Hel'. cbn [app] in Hel'.
    split; [exact Hel'|]. split; congruence.
Qed.

Lemma NewSeriesInt64_vals_forward (size : Z) (vals : list iface) (xs : list (option Z)) :
  Forall2 (fun v x => SeriesInt64.valToPointer v = Ok x) vals xs ->
  forall (stored : list (option Z)) (s : SeriesInt64.SeriesInt64),
    elems (SeriesInt64.values s)
    = stored ++ replicate (Z.to_nat size - length stored) None ->
    exists s',
      SeriesInt64.NewSeriesInt64_vals size (Z.of_nat (length stored)) vals s = Ok s' /\
      elems (SeriesInt64.values s')
      = (stored ++ xs) ++ replicate (Z.to_nat size - length (stored ++ xs)) None /\
      SeriesInt64.name s' = SeriesInt64.name s /\
      SeriesInt64.valFormatter s' = SeriesInt64.valFormatter s.
Proof.
  induction 1 as [|v x vals xs Hv _ IH]; intros stored s Hel; simpl.
  - exists s. rewrite app_nil_r. now repeat split.
  - rewrite Hv, bind_Ok.
    set (s1 := if SeriesInt64.isNil x
               then SeriesInt64.with_nilCount s (SeriesInt64.nilCount s + 1)
               else s).
    assert (Hs1 : SeriesInt64.values s1 = SeriesInt64.values s /\
                  SeriesInt64.name s1 = SeriesInt64.name s /\
                  SeriesInt64.valFormatter s1 = SeriesInt64.valFormatter s)
      by (unfold s1; now destruct (SeriesInt64.isNil x)).
    destruct Hs1 as (Hvals & Hname & Hfmt).
    assert (Hnext : exists s2,
      (if Z.of_nat (length stored) <? size
       then l ← store (elems (SeriesInt64.values s1)) (Z.of_nat (length stored)) x;
            Ok (SeriesInt64.with_values s1 (Slice l (cap (SeriesInt64.values s1))))
       else Ok (SeriesInt64.with_values s1 (append (SeriesInt64.values s1) [x])))
      = Ok s2 /\
      elems (SeriesInt64.values s2)
      = (stored ++ [x]) ++ replicate (Z.to_nat size - length (stored ++ [x])) None /\
      SeriesInt64.name s2 = SeriesInt64.name s /\
      SeriesInt64.valFormatter s2 = SeriesInt64.valFormatter s).
    { rewrite Hvals, Hel.
      destruct (Z.ltb_spec (Z.of_nat (length stored)) size) as [Hlt|Hge].
      - rewrite store_in_range
          by (rewrite length_app, length_replicate; lia).
        rewrite bind_Ok. eexists. split; [reflexivity|].
        cbn [SeriesInt64.with_values SeriesInt64.values elems
             SeriesInt64.name SeriesInt64.valFormatter].
        split; [|done]. rewrite Nat2Z.id.
        replace (Z.to_nat size - length stored)%nat
          with (S (Z.to_nat size - length (stored ++ [x])))
          by (rewrite length_app; cbn [length]; lia).
        cbn [replicate].
        replace (length stored) with (length stored + 0)%nat at 1 by lia.
        rewrite insert_app_r. cbn [insert list_insert].
        now rewrite (cons_middle x), app_assoc.
      - eexists. split; [reflexivity|].
        cbn [SeriesInt64.with_values SeriesInt64.values elems append
             SeriesInt64.name SeriesInt64.valFormatter].
        split; [|done]. rewrite ?Hel.
        replace (Z.to_nat size - length stored)%nat with 0%nat by lia.
        replace (Z.to_nat size - length (stored ++ [x]))%nat with 0%nat
          by (rewrite length_app; cbn [length]; lia).
        cbn [replicate]. now rewrite !app_nil_r. }
    destruct Hnext as (s2 & -> & Hel2 & Hname2 & Hfmt2). rewrite bind_Ok.
    replace (Z.of_nat (length stored) + 1)
      with (Z.of_nat (length (stored ++ [x])))
      by (rewrite length_app; cbn [length]; lia).
    destruct (IH (stored ++ [x]) s2 Hel2) as (s' & Hrun & Hel' & Hname' & Hfmt').
    exists s'. split; [exact Hrun|].
    rewrite <- (app_assoc stored [x] xs) in Hel'. cbn [app] in Hel'.
    split; [exact Hel'|]. split; congruence.
Qed.

Lemma NewSeriesFloat64_builds (name : string) (init : option SeriesInit)
    (vals : list iface) (xs : list float) :
  0 <= init_size init -> init_capacity init <= maxElems ->
  Forall2 (fun v x => SeriesFloat64.valToPointer v = Ok x) vals xs ->
  exists s, SeriesFloat64.NewSeriesFloat64 name init vals = Ok s /\
    elems (SeriesFloat64.Values s)
    = xs ++ replicate (Z.to_nat (init_size init) - length xs) nan /\
    SeriesFloat64.name s = name /\
    SeriesFloat64.valFormatter s = DefaultValueFormatter.
Proof.
  intros Hsize Hmax Hvals. unfold SeriesFloat64.NewSeriesFloat64.
  fold (init_size init). fold (init_capacity init).
  set (capacity := init_capacity init) in *.
  assert (Hcap : init_size init <= capacity).
  { unfold capacity, init_capacity, init_size. destruct init as [i|]; [|lia].
    destruct (Z.ltb_spec (Capacity i) (Size i)); lia. }
  rewrite make_Ok, bind_Ok by lia.
  destruct (NewSeriesFloat64_vals_forward (init_size init) vals xs Hvals []
              (SeriesFloat64.mk DefaultValueFormatter name
                 (Slice (replicate (Z.to_nat (init_size init)) 0%float)
                        (Z.to_nat capacity)) 0))
    as (s1 & Hrun & Hel & Hname & Hfmt).
  { cbn. f_equal. lia. }
  cbn [length] in Hrun. change (Z.of_nat 0) with 0 in Hrun.
  rewrite Hrun, bind_Ok. cbn [app] in Hel.
  pose proof (Forall2_length _ _ _ Hvals) as Hlen.
  destruct (Z.ltb_spec (Z.of_nat (length vals)) (init_size init)) as [Hlt|Hge].
  - rewrite Hel.
    replace (Z.of_nat (length vals)) with (Z.of_nat (length xs)) by lia.
    replace (init_size init - Z.of_nat (length xs))
      with (Z.of_nat (Z.to_nat (init_size init) - length xs)) by lia.
    rewrite fill_cells, bind_Ok. eexists. split; [reflexivity|].
    now repeat split.
  - exists s1. split; [reflexivity|]. rewrite Hel.
    replace (Z.to_nat (init_size init) - length xs)%nat with 0%nat by lia.
    now repeat split.
Qed.

Lemma NewSeriesInt64_builds (name : string) (init : option SeriesInit)
    (vals : list iface) (xs : list (option Z)) :
  0 <= init_size init -> init_capacity init <= maxElems ->
  Forall2 (fun v x => SeriesInt64.valToPointer v = Ok x) vals xs ->
  exists s, SeriesInt64.NewSeriesInt64 name init vals = Ok s /\
    elems (SeriesInt64.values s)
    = xs ++ replicate (Z.to_nat (init_size init) - length xs) None /\
    SeriesInt64.name s = name /\
    SeriesInt64.valFormatter s = DefaultValueFormatter.
Proof.
  intros Hsize Hmax Hvals. unfold SeriesInt64.NewSeriesInt64.
  fold (init_size init). fold (init_capacity init).
  set (capacity := init_capacity init) in *.
  assert (Hcap : init_size init <= capacity).
  { unfold capacity, init_capacity, init_size. destruct init as [i|]; [|lia].
    destruct (Z.ltb_spec (Capacity i) (Size i)); lia. }
  rewrite make_Ok, bind_Ok by lia.
  destruct (NewSeriesInt64_vals_forward (init_size init) vals xs Hvals []
              (SeriesInt64.mk DefaultValueFormatter name
                 (Slice (replicate (Z.to_nat (init_size init)) None)
                        (Z.to_nat capacity)) 0))
    as (s1 & Hrun & Hel & Hname & Hfmt).
  { cbn. f_equal. lia. }
  cbn [length] in Hrun. change (Z.of_nat 0) with 0 in Hrun.
  rewrite Hrun, bind_Ok. cbn [app] in Hel.
  destruct (Z.ltb_spec (Z.of_nat (length vals)) (init_size init)) as [Hlt|Hge].
  - eexists. split; [reflexivity|]. now repeat split.
  - exists s1. split; [reflexivity|]. now repeat split.
Qed.

Lemma NewSeries_refused (name : string) (init : option SeriesInit)
    (vals : list iface) :
  init_size init < 0 \/ maxElems < init_capacity init ->
  is_panic (SeriesFloat64.NewSeriesFloat64 name init vals) = true /\
  is_panic (SeriesInt64.NewSeriesInt64 name init vals) = true.
Proof.
  intros Hsize.
  unfold SeriesFloat64.NewSeriesFloat64, SeriesInt64.NewSeriesInt64.
  fold (init_size init). fold (init_capacity init).
  assert (Hm : forall {A} (zero : A),
            is_panic (make zero (init_size init) (init_capacity init)) = true).
  { intros A zero. apply make_too_large. lia. }
  split.
  - specialize (Hm _ 0%float).
    now destruct (make 0%float (init_size init) (init_capacity init)).
  - specialize (Hm _ (@None Z)).
    now destruct (make (@None Z) (init_size init) (init_capacity init)).
Qed.

End constructors_build.

(** X17: a constructor given a size that is not negative, a capacity
    that the run time grants and values it can convert returns a series
    that holds the values in order, followed by absent rows up to the
    size when the values are fewer; it has max(size, number of values)
    rows, the name given, the default formatter, and a [nilCount] equal
    to its absent slots.  A negative size, or a capacity beyond what the
    run time grants, is a panic.  Both variants. *)
Theorem constructors_build_the_rows (D : Deps) :
  (forall (name : string) (init : option SeriesInit) (vals : list iface)
          (xs : list float),
      0 <= init_size init -> init_capacity init <= maxElems ->
      Forall2 (fun v x => SeriesFloat64.valToPointer v = Ok x) vals xs ->
      exists s, SeriesFloat64.NewSeriesFloat64 name init vals = Ok s /\
        elems (SeriesFloat64.Values s)
        = xs ++ replicate (Z.to_nat (init_size init) - length xs) nan /\
        SeriesFloat64.NRows s = Z.max (init_size init) (Z.of_nat (length vals)) /\
        SeriesFloat64.name s = name /\
        SeriesFloat64.valFormatter s = DefaultValueFormatter /\
        counts_floats s) /\
  (forall (name : string) (init : option SeriesInit) (vals : list iface)
          (xs : list (option Z)),
      0 <= init_size init -> init_capacity init <= maxElems ->
      Forall2 (fun v x => SeriesInt64.valToPointer v = Ok x) vals xs ->
      exists s, SeriesInt64.NewSeriesInt64 name init vals = Ok s /\
        elems (SeriesInt64.values s)
        = xs ++ replicate (Z.to_nat (init_size init) - length xs) None /\
        SeriesInt64.NRows s = Z.max (init_size init) (Z.of_nat (length vals)) /\
        SeriesInt64.name s = name /\
        SeriesInt64.valFormatter s = DefaultValueFormatter /\
        counts_ints s) /\
  (forall (name : string) (init : option SeriesInit) (vals : list iface),
      init_size init < 0 \/ maxElems < init_capacity init ->
      is_panic (SeriesFloat64.NewSeriesFloat64 name init vals) = true /\
      is_panic (SeriesInt64.NewSeriesInt64 name init vals) = true).
Proof.
  split; [|split].
  - intros name init vals xs Hsize Hmax Hvals.
    destruct (NewSeriesFloat64_builds name init vals xs Hsize Hmax Hvals)
      as (s & Hnew & Hel & Hname & Hfmt).
    pose proof (Forall2_length _ _ _ Hvals) as Hlen.
    exists s. split; [exact Hnew|]. split; [exact Hel|].
    split; [|split; [exact Hname|split; [exact Hfmt|]]].
    + unfold SeriesFloat64.NRows, len. rewrite Hel, length_app, length_replicate. lia.
    + eapply NewSeriesFloat64_counts; eauto.
  - intros name init vals xs Hsize Hmax Hvals.
    destruct (NewSeriesInt64_builds name init vals xs Hsize Hmax Hvals)
      as (s & Hnew & Hel & Hname & Hfmt).
    pose proof (Forall2_length _ _ _ Hvals) as Hlen.
    exists s. split; [exact Hnew|]. split; [exact Hel|].
    split; [|split; [exact Hname|split; [exact Hfmt|]]].
    + unfold SeriesInt64.NRows, len. rewrite Hel, length_app, length_replicate. lia.
    + eapply NewSeriesInt64_counts; eauto.
  - intros name init vals Hsize. now apply NewSeries_refused.
Qed.

Lemma constructors_build_the_rows_witness :
  let init := Some (Build_SeriesInit 3 0) in
  let vals := [IFloat64 1; INil] in
  let huge := Some (Build_SeriesInit (2 ^ 62) 0) in
  0 <= init_size init /\
  init_capacity init <= @maxElems sample_deps /\
  Forall2 (fun v x => @SeriesFloat64.valToPointer sample_deps v = Ok x)
          vals [1%float; nan] /\
  (exists s, @SeriesFloat64.NewSeriesFloat64 sample_deps "x" init vals = Ok s /\
     elems (SeriesFloat64.Values s) = [1%float; nan; nan] /\
     SeriesFloat64.NRows s = 3 /\
     counts_floats s) /\
  (init_size huge < 0 \/ @maxElems sample_deps < init_capacity huge) /\
  is_panic (@SeriesFloat64.NewSeriesFloat64 sample_deps "x" huge vals) = true /\
  is_panic (@SeriesInt64.NewSeriesInt64 sample_deps "x" huge vals) = true.
Proof.
  intros init vals huge.
  assert (Hsize : 0 <= init_size init) by (vm_compute; discriminate).
  assert (Hmax : init_capacity init <= @maxElems sample_deps)
    by (vm_compute; discriminate).
  assert (Hvals : Forall2 (fun v x => @SeriesFloat64.valToPointer sample_deps v = Ok x)
                          vals [1%float; nan])
    by (repeat constructor).
  assert (Hhuge : init_size huge < 0 \/ @maxElems sample_deps < init_capacity huge)
    by (right; reflexivity).
  split; [exact Hsize|]. split; [exact Hmax|]. split; [exact Hvals|].
  split; [|split; [exact Hhuge|]].
  - destruct (proj1 (constructors_build_the_rows sample_deps) "x" init vals _
                Hsize Hmax Hvals) as (s & H1 & H2 & H3 & _ & _ & H4).
    exists s. split; [exact H1|]. split; [exact H2|]. split; [exact H3|exact H4].
  - exact (proj2 (proj2 (constructors_build_the_rows sample_deps)) "x" huge vals Hhuge).
Defined.

(** ** Copy of every row *)

Lemma window_whole {A} (l : list A) :
  window l 0 (Z.of_nat (length l) - 1) = l.
Proof.
  unfold window. change (Z.to_nat 0) with 0%nat. rewrite drop_0.
  apply take_ge. lia.
Qed.

(** X18: when the range resolves to every row of a series with rows,
    [Copy] returns a series with the same values in the same order and
    the same name, formatter and [nilCount].  Its capacity covers its
    length and is the one [append] picks for that length starting from a
    slice without capacity: it depends on the number of rows alone, not
    on the capacity of the source.  The copy counts its absent slots
    exactly when the source does.  Both variants. *)
Theorem Copy_of_every_row (D : Deps) :
  (forall (s : SeriesFloat64.SeriesFloat64) (r : list Range),
      slice_wf (SeriesFloat64.Values s) ->
      0 < SeriesFloat64.NRows s ->
      Limits (first_range r) (SeriesFloat64.NRows s)
      = Ok (0, SeriesFloat64.NRows s - 1) ->
      exists c, SeriesFloat64.Copy s r = Ok c /\
        elems (SeriesFloat64.Values c) = elems (SeriesFloat64.Values s) /\
        slice_wf (SeriesFloat64.Values c) /\
        cap (SeriesFloat64.Values c)
        = Nat.max (length (elems (SeriesFloat64.Values s)))
                  (growslice 0 (length (elems (SeriesFloat64.Values s)))) /\
        SeriesFloat64.name c = SeriesFloat64.name s /\
        SeriesFloat64.valFormatter c = SeriesFloat64.valFormatter s /\
        SeriesFloat64.nilCount c = SeriesFloat64.nilCount s /\
        (counts_floats c <-> counts_floats s)) /\
  (forall (s : SeriesInt64.SeriesInt64) (r : list Range),
      slice_wf (SeriesInt64.values s) ->
      0 < SeriesInt64.NRows s ->
      Limits (first_range r) (SeriesInt64.NRows s)
      = Ok (0, SeriesInt64.NRows s - 1) ->
      exists c, SeriesInt64.Copy s r = Ok c /\
        elems (SeriesInt64.values c) = elems (SeriesInt64.values s) /\
        slice_wf (SeriesInt64.values c) /\
        cap (SeriesInt64.values c)
        = Nat.max (length (elems (SeriesInt64.values s)))
                  (growslice 0 (length (elems (SeriesInt64.values s)))) /\
        SeriesInt64.name c = SeriesInt64.name s /\
        SeriesInt64.valFormatter c = SeriesInt64.valFormatter s /\
        SeriesInt64.nilCount c = SeriesInt64.nilCount s /\
        (counts_ints c <-> counts_ints s)).
Proof.
  split.
  - intros s r Hwf Hn HL.
    rewrite (Copy_float_range s r 0 (SeriesFloat64.NRows s - 1) Hwf HL) by lia.
    unfold SeriesFloat64.NRows, len in *. rewrite window_whole.
    eexists. split; [reflexivity|].
    cbn [SeriesFloat64.Values SeriesFloat64.name SeriesFloat64.valFormatter
         SeriesFloat64.nilCount elems append app].
    split; [reflexivity|]. split; [|split; [|repeat split; done]].
    + unfold slice_wf. cbn [elems cap append app length].
      destruct (Nat.leb_spec (0 + length (elems (SeriesFloat64.Values s))) 0); lia.
    + cbn [elems cap append app length Nat.add].
      destruct (Nat.leb_spec (length (elems (SeriesFloat64.Values s))) 0); [lia|].
      reflexivity.
  - intros s r Hwf Hn HL.
    rewrite (Copy_int_range s r 0 (SeriesInt64.NRows s - 1) Hwf HL) by lia.
    unfold SeriesInt64.NRows, len in *. rewrite window_whole.
    eexists. split; [reflexivity|].
    cbn [SeriesInt64.values SeriesInt64.name SeriesInt64.valFormatter
         SeriesInt64.nilCount elems append app].
    split; [reflexivity|]. split; [|split; [|repeat split; done]].
    + unfold slice_wf. cbn [elems cap append app length].
      destruct (Nat.leb_spec (0 + length (elems (SeriesInt64.values s))) 0); lia.
    + cbn [elems cap append app length Nat.add].
      destruct (Nat.leb_spec (length (elems (SeriesInt64.values s))) 0); [lia|].
      reflexivity.
Qed.

Lemma Copy_of_every_row_witness :
  let s := SeriesFloat64.mk sample_formatter "x"
             (Slice [1%float; nan; 3%float] 8) 1 in
  slice_wf (SeriesFloat64.Values s) /\
  0 < SeriesFloat64.NRows s /\
  @Limits sample_deps (first_range []) (SeriesFloat64.NRows s)
  = Ok (0, SeriesFloat64.NRows s - 1) /\
  exists c, @SeriesFloat64.Copy sample_deps s [] = Ok c /\
    elems (SeriesFloat64.Values c) = [1%float; nan; 3%float] /\
    cap (SeriesFloat64.Values c) = 3%nat /\
    SeriesFloat64.nilCount c = 1.
Proof.
  intros s.
  assert (Hwf : slice_wf (SeriesFloat64.Values s)) by (vm_compute; lia).
  assert (Hn : 0 < SeriesFloat64.NRows s) by reflexivity.
  assert (HL : @Limits sample_deps (first_range []) (SeriesFloat64.NRows s)
               = Ok (0, SeriesFloat64.NRows s - 1)) by reflexivity.
  split; [exact Hwf|]. split; [exact Hn|]. split; [exact HL|].
  destruct (proj1 (Copy_of_every_row sample_deps) s [] Hwf Hn HL)
    as (c & H1 & H2 & _ & H3 & _ & _ & H4 & _).
  exists c. split; [exact H1|]. split; [exact H2|]. split; [exact H3|exact H4].
Defined.

(** ** String *)

Section string_rows.
Context {A : Type} (text : A -> string) (l : list A).

Variable add_row : string -> Z -> outcome string.
Hypothesis add_row_reads : forall out row,
  add_row out row
  = (v ← (index l row ≫= fun x => Ok (text x)); Ok (out +:+ v +:+ " ")).

Lemma string_add_row out row x :
  0 <= row -> l !! Z.to_nat row = Some x ->
  add_row out row = Ok (String_add out (text x)).
Proof.
  intros Hr Hx.
  now rewrite add_row_reads, (index_lookup l row x Hr Hx), !bind_Ok.
Qed.

(** The loop over every row. *)
Lemma string_every_row (ts : list A) :
  forall (a : nat) (out : string),
    drop a l = ts ->
    foldlM add_row out (seqZ (Z.of_nat a) (Z.of_nat (length ts)))
    = Ok (foldl String_add out (text <$> ts)).
Proof.
  induction ts as [|x ts IH]; intros a out Hd.
  - reflexivity.
  - assert (Hx : l !! a = Some x).
    { rewrite <- (Nat.add_0_r a), <- lookup_drop, Hd. reflexivity. }
    assert (Hts : drop (S a) l = ts).
    { rewrite (drop_S l x a Hx) in Hd. congruence. }
    rewrite seqZ_cons by (cbn [length]; lia).
    cbn [foldlM fmap list_fmap foldl].
    rewrite (string_add_row out (Z.of_nat a) x); [|lia|now rewrite Nat2Z.id].
    rewrite bind_Ok.
    replace (Z.succ (Z.of_nat a)) with (Z.of_nat (S a)) by lia.
    replace (Z.pred (Z.of_nat (length (x :: ts)))) with (Z.of_nat (length ts))
      by (cbn [length]; lia).
    apply IH, Hts.
Qed.

(** The loop over the first three and the last three rows. *)
Lemma string_six_rows (out : string) :
  let count := Z.of_nat (length l) in
  6 < count ->
  foldlM (fun out '(j, row) =>
            let out := if (j =? 3)%nat then out +:+ "... " else out in
            add_row out row)
         out (imap (fun j row => (j, row))
                   [0; 1; 2; count - 3; count - 2; count - 1])
  = Ok (foldl String_add
          (foldl String_add out (text <$> take 3 l) +:+ "... ")
          (text <$> drop (length l - 3) l)).
Proof.
  intros count Hn. subst count.
  assert (Hhead : length (take 3 l) = 3%nat) by (rewrite length_take; lia).
  assert (Htail : length (drop (length l - 3) l) = 3%nat)
    by (rewrite length_drop; lia).
  destruct (take 3 l) as [|x0 [|x1 [|x2 [|? ?]]]] eqn:Eh; try discriminate Hhead.
  destruct (drop (length l - 3) l) as [|y3 [|y2 [|y1 [|? ?]]]] eqn:Et;
    try discriminate Htail.
  assert (H0 : l !! 0%nat = Some x0).
  { rewrite <- (lookup_take_lt l 3 0) by lia. now rewrite Eh. }
  assert (H1 : l !! 1%nat = Some x1).
  { rewrite <- (lookup_take_lt l 3 1) by lia. now rewrite Eh. }
  assert (H2 : l !! 2%nat = Some x2).
  { rewrite <- (lookup_take_lt l 3 2) by lia. now rewrite Eh. }
  assert (H3 : l !! (length l - 3 + 0)%nat = Some y3).
  { rewrite <- lookup_drop, Et. reflexivity. }
  assert (H4 : l !! (length l - 3 + 1)%nat = Some y2).
  { rewrite <- lookup_drop, Et. reflexivity. }
  assert (H5 : l !! (length l - 3 + 2)%nat = Some y1).
  { rewrite <- lookup_drop, Et. reflexivity. }
  change (imap (fun j row => (j, row))
            [0; 1; 2; Z.of_nat (length l) - 3; Z.of_nat (length l) - 2;
             Z.of_nat (length l) - 1])
    with [(0%nat, 0); (1%nat, 1); (2%nat, 2);
          (3%nat, Z.of_nat (length l) - 3); (4%nat, Z.of_nat (length l) - 2);
          (5%nat, Z.of_nat (length l) - 1)].
  cbn [foldlM Nat.eqb fmap list_fmap foldl]. cbv zeta.
  rewrite (string_add_row _ 0 x0) by (try lia; exact H0). rewrite bind_Ok.
  rewrite (string_add_row _ 1 x1) by (try lia; exact H1). rewrite bind_Ok.
  rewrite (string_add_row _ 2 x2) by (try lia; exact H2). rewrite bind_Ok.
  rewrite (string_add_row _ (Z.of_nat (length l) - 3) y3);
    [|lia|replace (Z.to_nat (Z.of_nat (length l) - 3))
        with (length l - 3 + 0)%nat by lia; exact H3].
  rewrite bind_Ok.
  rewrite (string_add_row _ (Z.of_nat (length l) - 2) y2);
    [|lia|replace (Z.to_nat (Z.of_nat (length l) - 2))
        with (length l - 3 + 1)%nat by lia; exact H4].
  rewrite bind_Ok.
  rewrite (string_add_row _ (Z.of_nat (length l) - 1) y1);
    [|lia|replace (Z.to_nat (Z.of_nat (length l) - 1))
        with (length l - 3 + 2)%nat by lia; exact H5].
  rewrite bind_Ok. reflexivity.
Qed.

End string_rows.

Section string_of_series.
Context `{Deps}.

Lemma String_row_float (s : SeriesFloat64.SeriesFloat64) (out : string) (row : Z) :
  SeriesFloat64.String_row s out row
  = (v ← (index (elems (SeriesFloat64.Values s)) row ≫=
          fun x => Ok (SeriesFloat64.valFormatter s (float_cell x)));
     Ok (out +:+ v +:+ " ")).
Proof.
  unfold SeriesFloat64.String_row, SeriesFloat64.ValueString.
  rewrite Value_float_cell.
  now destruct (index (elems (SeriesFloat64.Values s)) row).
Qed.

Lemma String_row_int (s : SeriesInt64.SeriesInt64) (out : string) (row : Z) :
  SeriesInt64.String_row s out row
  = (v ← (index (elems (SeriesInt64.values s)) row ≫=
          fun x => Ok (SeriesInt64.valFormatter s (int_cell x)));
     Ok (out +:+ v +:+ " ")).
Proof.
  unfold SeriesInt64.String_row, SeriesInt64.ValueString.
  rewrite Value_int_cell.
  now destruct (index (elems (SeriesInt64.values s)) row).
Qed.

End string_of_series.

(** X19: [String] never panics.  With at most six rows it gives an
    opening bracket and a space, the text of every row in order, each
    followed by a space, and a closing bracket; with more than six rows
    it gives the first three rows, three dots and a space,
    and the last three rows.  The text of a row is the formatter of the
    series applied to its value, nil for an absent one.  Both variants. *)
Theorem String_shows_six_rows_at_most (D : Deps) :
  (forall s : SeriesFloat64.SeriesFloat64,
      let texts := (fun x => SeriesFloat64.valFormatter s (float_cell x))
                   <$> elems (SeriesFloat64.Values s) in
      SeriesFloat64.String s
      = Ok ((if 6 <? SeriesFloat64.NRows s
             then foldl String_add
                    (foldl String_add "[ " (take 3 texts) +:+ "... ")
                    (drop (length texts - 3) texts)
             else foldl String_add "[ " texts) +:+ "]")) /\
  (forall s : SeriesInt64.SeriesInt64,
      let texts := (fun x => SeriesInt64.valFormatter s (int_cell x))
                   <$> elems (SeriesInt64.values s) in
      SeriesInt64.String s
      = Ok ((if 6 <? SeriesInt64.NRows s
             then foldl String_add
                    (foldl String_add "[ " (take 3 texts) +:+ "... ")
                    (drop (length texts - 3) texts)
             else foldl String_add "[ " texts) +:+ "]")).
Proof.
  split.
  - intros s texts. subst texts.
    unfold SeriesFloat64.String, SeriesFloat64.NRows, len.
    rewrite length_fmap, <- fmap_take, <- fmap_drop.
    destruct (Z.ltb_spec 6 (Z.of_nat (length (elems (SeriesFloat64.Values s)))))
      as [Hn|Hn].
    + pose proof (string_six_rows _ _ _ (String_row_float s) "[ " Hn) as Hsix.
      cbv zeta in Hsix. now rewrite Hsix.
    + pose proof (string_every_row _ _ _ (String_row_float s) _ 0%nat "[ " eq_refl)
        as Hall.
      change (Z.of_nat 0) with 0 in Hall. rewrite drop_0 in Hall.
      now rewrite Hall.
  - intros s texts. subst texts.
    unfold SeriesInt64.String, SeriesInt64.NRows, len.
    rewrite length_fmap, <- fmap_take, <- fmap_drop.
    destruct (Z.ltb_spec 6 (Z.of_nat (length (elems (SeriesInt64.values s)))))
      as [Hn|Hn].
    + pose proof (string_six_rows _ _ _ (String_row_int s) "[ " Hn) as Hsix.
      cbv zeta in Hsix. now rewrite Hsix.
    + pose proof (string_every_row _ _ _ (String_row_int s) _ 0%nat "[ " eq_refl)
        as Hall.
      change (Z.of_nat 0) with 0 in Hall. rewrite drop_0 in Hall.
      now rewrite Hall.
Qed.

(** ** Sort leaves the rows in order *)

Section ordered_lists.
Context {A : Type} (le : A -> A -> Prop).
Implicit Types (l p q s : list A) (x y : A).

Lemma ordered_app l1 l2 :
  ordered le (l1 ++ l2)
  <-> ordered le l1 /\ ordered le l2 /\ Forall (fun x => Forall (le x) l2) l1.
Proof.
  induction l1 as [|x l1 IH]; cbn [app].
  - split; [intros H; repeat split; [constructor|done|constructor]|tauto].
  - split.
    + intros H. inversion H as [|? ? Hx Hl]; subst.
      apply IH in Hl as (H1 & H2 & H3). apply Forall_app in Hx as [Hx1 Hx2].
      repeat split; [constructor; done|done|constructor; done].
    + intros (H1 & H2 & H3). inversion H1 as [|? ? Hx Hl]; subst.
      inversion H3 as [|? ? Hx2 H3']; subst.
      constructor; [apply Forall_app; done|apply IH; done].
Qed.

Lemma ordered_singleton x : ordered le [x].
Proof. repeat constructor. Qed.

Lemma ordered_lookup l (i j : nat) x y :
  ordered le l -> (i < j)%nat -> l !! i = Some x -> l !! j = Some y -> le x y.
Proof.
  intros Hl. revert i j. induction Hl as [|z l Hz Hl IH]; intros i j Hij Hi Hj.
  - discriminate Hi.
  - destruct j as [|j]; [lia|]. destruct i as [|i].
    + injection Hi as ->. cbn in Hj.
      rewrite Forall_forall in Hz. apply Hz. eapply list_elem_of_lookup_2, Hj.
    + cbn in Hi, Hj. apply (IH i j); [lia|done..].
Qed.

End ordered_lists.

Lemma ordered_take {A} (le : A -> A -> Prop) (l : list A) (k : nat) :
  ordered le l -> ordered le (take k l).
Proof. rewrite <- (take_drop k l) at 1. intros H. now apply ordered_app in H. Qed.

Lemma ordered_drop {A} (le : A -> A -> Prop) (l : list A) (k : nat) :
  ordered le l -> ordered le (drop k l).
Proof. rewrite <- (take_drop k l) at 1. intros H. now apply ordered_app in H. Qed.

Lemma ordered_take_drop {A} (le : A -> A -> Prop) (l : list A) (k : nat) :
  ordered le l -> Forall (fun x => Forall (le x) (drop k l)) (take k l).
Proof. rewrite <- (take_drop k l) at 1. intros H. now apply ordered_app in H. Qed.

Section swaps.
Context {A : Type}.
Implicit Types (l p q s : list A) (x y : A).

Lemma sort_Swap_sym l (i j : nat) : sort.Swap l i j = sort.Swap l j i.
Proof.
  unfold sort.Swap. destruct (decide (i = j)) as [->|Hij]; [done|].
  destruct (l !! i) as [x|] eqn:Ei, (l !! j) as [y|] eqn:Ej; try done.
  now apply list_insert_insert_ne.
Qed.

Lemma sort_Swap_cells p x q y s :
  sort.Swap (p ++ x :: q ++ y :: s) (length p) (length p + S (length q))
  = p ++ y :: q ++ x :: s.
Proof.
  unfold sort.Swap.
  rewrite list_lookup_middle by done.
  rewrite lookup_app_r by lia.
  replace (length p + S (length q) - length p)%nat with (S (length q)) by lia.
  change ((x :: q ++ y :: s) !! S (length q)) with ((q ++ y :: s) !! length q).
  rewrite list_lookup_middle by done.
  rewrite insert_app_r.
  change (<[S (length q) := x]> (x :: q ++ y :: s))
    with (x :: <[length q := x]> (q ++ y :: s)).
  rewrite <- (Nat.add_0_r (length q)) at 1. rewrite insert_app_r.
  rewrite <- (Nat.add_0_r (length p)) at 1. rewrite insert_app_r.
  reflexivity.
Qed.

Lemma sort_Swap_adjacent p x y s :
  sort.Swap (p ++ x :: y :: s) (length p) (length p + 1) = p ++ y :: x :: s.
Proof. apply (sort_Swap_cells p x [] y s). Qed.

(** [for k := a; k < i-1; k++ { data.Swap(k, k+1) }] carries the element
    at [a] to the right. *)
Lemma bubble_right q : forall p x s,
  foldl (fun l k => sort.Swap l k (k + 1)) (p ++ x :: q ++ s)
        (seq (length p) (length q))
  = p ++ q ++ x :: s.
Proof.
  induction q as [|y q IH]; intros p x s; [reflexivity|].
  cbn [length seq foldl app]. rewrite sort_Swap_adjacent.
  replace (p ++ y :: x :: q ++ s) with ((p ++ [y]) ++ x :: q ++ s)
    by now rewrite <- app_assoc.
  replace (S (length p)) with (length (p ++ [y]))
    by (rewrite length_app; cbn; lia).
  rewrite IH. now rewrite <- app_assoc.
Qed.

(** [for k := m; k > i; k-- { data.Swap(k, k-1) }] carries the element at
    [m] to the left. *)
Lemma bubble_left q : forall p y s,
  foldl (fun l k => sort.Swap l k (k - 1)) (p ++ q ++ y :: s)
        (rev (seq (length p + 1) (length q)))
  = p ++ y :: q ++ s.
Proof.
  induction q as [|z q IH] using rev_ind; intros p y s; [reflexivity|].
  rewrite length_app. cbn [length]. rewrite seq_app, rev_app_distr.
  cbn [seq rev app foldl].
  replace (length p + 1 + length q - 1)%nat with (length (p ++ q))
    by (rewrite length_app; lia).
  replace (length p + 1 + length q)%nat with (length (p ++ q) + 1)%nat
    by (rewrite length_app; lia).
  rewrite sort_Swap_sym.
  replace (p ++ (q ++ [z]) ++ y :: s) with ((p ++ q) ++ z :: y :: s)
    by now rewrite <- !app_assoc.
  rewrite sort_Swap_adjacent. rewrite <- app_assoc.
  rewrite (IH p y (z :: s)). now rewrite <- app_assoc.
Qed.

(** [swapRange] exchanges two blocks of the same length. *)
Lemma swapRange_blocks (n : nat) : forall p U q V s,
  length U = n -> length V = n ->
  sort.swapRange (p ++ U ++ q ++ V ++ s) (length p)
                 (length p + n + length q) n
  = p ++ V ++ q ++ U ++ s.
Proof.
  unfold sort.swapRange.
  induction n as [|n IH]; intros p U q V s HU HV.
  - destruct U, V; try discriminate. reflexivity.
  - destruct U as [|u U _] using rev_ind; [discriminate|].
    destruct V as [|v V _] using rev_ind; [discriminate|].
    rewrite length_app in HU, HV. cbn [length] in HU, HV.
    rewrite seq_S, foldl_app. cbn [foldl Nat.add].
    replace (p ++ (U ++ [u]) ++ q ++ (V ++ [v]) ++ s)
      with (p ++ U ++ (u :: q) ++ V ++ (v :: s))
      by now rewrite <- !app_assoc.
    assert (E := IH p U (u :: q) V (v :: s) ltac:(lia) ltac:(lia)).
    cbn [length] in E.
    replace (length p + S n + length q)%nat
      with (length p + n + S (length q))%nat by lia.
    rewrite E.
    replace (p ++ V ++ (u :: q) ++ U ++ v :: s)
      with ((p ++ V) ++ u :: (q ++ U) ++ v :: s)
      by now rewrite <- !app_assoc.
    replace (length p + n + S (length q) + n)%nat
      with (length p + n + S (length (q ++ U)))%nat
      by (rewrite !length_app; lia).
    replace (length p + n)%nat with (length (p ++ V))
      by (rewrite length_app; lia).
    rewrite sort_Swap_cells. now rewrite <- !app_assoc.
Qed.

End swaps.

Section rotations.
Context {A : Type}.
Implicit Types (l p q s U V : list A).

Lemma rotate_loop_blocks (fuel : nat) : forall p U V s,
  U <> [] -> V <> [] -> (length U + length V <= fuel)%nat ->
  sort.rotate_loop fuel (p ++ U ++ V ++ s) (length p + length U)
                   (length U) (length V)
  = p ++ V ++ U ++ s.
Proof.
  induction fuel as [|fuel IH]; intros p U V s HU HV Hf.
  - destruct U; [done|]. cbn [length] in Hf. lia.
  - assert (0 < length U)%nat by (destruct U; [done|cbn; lia]).
    assert (0 < length V)%nat by (destruct V; [done|cbn; lia]).
    cbn [sort.rotate_loop].
    replace (length p + length U - length U)%nat with (length p) by lia.
    destruct (Nat.eqb_spec (length U) (length V)) as [E|E].
    + pose proof (swapRange_blocks (length U) p U [] V s eq_refl (eq_sym E)) as R.
      cbn [length app] in R. rewrite Nat.add_0_r in R. exact R.
    + destruct (Nat.ltb_spec (length V) (length U)) as [Hlt|Hge].
      * rewrite <- (take_drop (length V) U) at 1.
        rewrite <- (app_assoc (take (length V) U)).
        pose proof (swapRange_blocks (length V) p (take (length V) U)
                      (drop (length V) U) V s) as R.
        rewrite length_drop in R.
        replace (length p + length V + (length U - length V))%nat
          with (length p + length U)%nat in R by lia.
        rewrite R by (rewrite ?length_take; lia). clear R.
        pose proof (IH (p ++ V) (drop (length V) U) (take (length V) U) s) as R.
        rewrite length_app, length_drop, length_take in R.
        replace (length p + length V + (length U - length V))%nat
          with (length p + length U)%nat in R by lia.
        replace (length V `min` length U)%nat with (length V) in R by lia.
        rewrite <- !app_assoc in R. rewrite R.
        -- rewrite (app_assoc (take _ _)). now rewrite take_drop.
        -- intros E0. apply (f_equal length) in E0.
           rewrite length_drop in E0. cbn in E0. lia.
        -- intros E0. apply (f_equal length) in E0.
           rewrite length_take in E0. cbn in E0. lia.
        -- lia.
      * set (d := (length V - length U)%nat).
        rewrite <- (take_drop d V) at 1.
        rewrite <- (app_assoc (take d V)).
        pose proof (swapRange_blocks (length U) p U (take d V) (drop d V) s) as R.
        rewrite length_take in R.
        replace (length p + length U + d `min` length V)%nat
          with (length p + length U + length V - length U)%nat in R by lia.
        rewrite R by (rewrite ?length_drop; lia). clear R.
        pose proof (IH p (drop d V) (take d V) (U ++ s)) as R.
        rewrite length_drop, length_take in R.
        replace (length V - d)%nat with (length U) in R by lia.
        replace (d `min` length V)%nat with d in R by lia.
        rewrite R.
        -- rewrite (app_assoc (take _ _)). now rewrite take_drop.
        -- intros E0. apply (f_equal length) in E0.
           rewrite length_drop in E0. cbn in E0. lia.
        -- intros E0. apply (f_equal length) in E0.
           rewrite length_take in E0. cbn in E0. lia.
        -- lia.
Qed.

Lemma rotate_blocks p U V s :
  U <> [] -> V <> [] ->
  sort.rotate (p ++ U ++ V ++ s) (length p) (length p + length U)
              (length p + length U + length V)
  = p ++ V ++ U ++ s.
Proof.
  intros HU HV. unfold sort.rotate.
  replace (length p + length U - length p)%nat with (length U) by lia.
  replace (length p + length U + length V - (length p + length U))%nat
    with (length V) by lia.
  apply rotate_loop_blocks; [done..|lia].
Qed.

(** The binary search of [symMerge]: between the bounds it was given, it
    stops at a row whose left neighbour satisfies the test and which
    itself does not. *)
Lemma search_bounds (c : nat -> bool) (lo hi : nat) (fuel : nat) :
  forall i j : nat,
    (i <= j)%nat -> (j - i <= fuel)%nat ->
    ((lo < i)%nat -> c (i - 1)%nat = true) ->
    ((j < hi)%nat -> c j = false) ->
    (i <= sort.search fuel c i j <= j)%nat /\
    ((lo < sort.search fuel c i j)%nat ->
       c (sort.search fuel c i j - 1)%nat = true) /\
    ((sort.search fuel c i j < hi)%nat -> c (sort.search fuel c i j) = false).
Proof.
  induction fuel as [|fuel IH]; intros i j Hij Hf Hi Hj.
  - cbn [sort.search]. assert (i = j) as -> by lia. repeat split; (lia || done).
  - cbn [sort.search]. destruct (Nat.ltb_spec i j) as [Hlt|Hge].
    + pose proof (Nat.div_mod_eq (i + j) 2) as Hd.
      pose proof (Nat.mod_upper_bound (i + j) 2 ltac:(lia)) as Hm.
      cbv zeta. destruct (c ((i + j) / 2)%nat) eqn:Ec.
      * destruct (IH ((i + j) / 2 + 1)%nat j) as (H1 & H2 & H3);
          [lia|lia| |done|].
        { intros _. now replace ((i + j) / 2 + 1 - 1)%nat with ((i + j) / 2)%nat by lia. }
        repeat split; (lia || done).
      * destruct (IH i ((i + j) / 2)%nat) as (H1 & H2 & H3);
          [lia|lia|done| |].
        { intros _. exact Ec. }
        repeat split; (lia || done).
    + assert (i = j) as -> by lia. repeat split; (lia || done).
Qed.

End rotations.

Section segments.
Context {A : Type}.
Implicit Types (l p q s L R : list A).

Lemma lookup_segment p L t (k : nat) :
  (k < length L)%nat -> (p ++ L ++ t) !! (length p + k)%nat = L !! k.
Proof.
  intros Hk. rewrite lookup_app_r by lia.
  replace (length p + k - length p)%nat with k by lia.
  now rewrite lookup_app_l.
Qed.

Lemma lookup_segment_2 p L R s (k : nat) :
  (k < length R)%nat ->
  (p ++ L ++ R ++ s) !! (length p + length L + k)%nat = R !! k.
Proof.
  intros Hk. rewrite (app_assoc p L).
  replace (length p + length L)%nat with (length (p ++ L))
    by now rewrite length_app.
  now apply lookup_segment.
Qed.

Lemma last_take_lookup L (k : nat) :
  (0 < k <= length L)%nat -> last (take k L) = L !! (k - 1)%nat.
Proof.
  intros Hk. rewrite last_lookup, length_take.
  replace (k `min` length L)%nat with k by lia.
  replace (Nat.pred k) with (k - 1)%nat by lia.
  apply lookup_take_lt. lia.
Qed.

Lemma head_drop_lookup L (k : nat) : head (drop k L) = L !! k.
Proof. rewrite head_lookup, lookup_drop. f_equal. lia. Qed.

Lemma nonempty_length l : l <> [] <-> (0 < length l)%nat.
Proof. destruct l; cbn; split; (done || lia). Qed.

End segments.

Section ordering.
Context {A : Type} (le : A -> A -> Prop) (less : A -> A -> bool)
        (Less : list A -> nat -> nat -> bool).
Hypothesis Less_reads : forall l (i j : nat) x y,
  l !! i = Some x -> l !! j = Some y -> Less l i j = less x y.
Hypothesis le_trans : forall x y z, le x y -> le y z -> le x z.
Hypothesis less_true : forall x y, less x y = true -> le x y.
Hypothesis less_false : forall x y, less x y = false -> le y x.
Implicit Types (l p q r s L R : list A) (x y : A).

Lemma ordering_refl x : le x x.
Proof. destruct (less x x) eqn:E; [now apply less_true|now apply less_false]. Qed.

(** Two ordered blocks that meet in order are in order throughout. *)
Lemma ordered_cross X Y :
  ordered le X -> ordered le Y ->
  (forall w w', last X = Some w -> head Y = Some w' -> le w w') ->
  Forall (fun x => Forall (le x) Y) X.
Proof.
  intros HX HY Hm.
  destruct Y as [|w' Y]; [apply Forall_forall; intros; constructor|].
  destruct X as [|w X _] using rev_ind; [constructor|].
  specialize (Hm w w' (last_snoc _ _) eq_refl).
  apply ordered_app in HX as (_ & _ & HXw).
  inversion HY as [|? ? Hw' _]; subst.
  assert (Hall : Forall (le w) (w' :: Y)).
  { constructor; [done|]. eapply Forall_impl; [exact Hw'|].
    intros y Hy. now apply (le_trans _ w'). }
  apply Forall_app. split; [|repeat constructor; inversion Hall; done].
  eapply Forall_impl; [exact HXw|]. intros x Hx.
  inversion Hx as [|? ? Hxw _]; subst.
  eapply Forall_impl; [exact Hall|]. intros y Hy. now apply (le_trans _ w).
Qed.

Lemma ordered_join X Y :
  ordered le X -> ordered le Y ->
  (forall w w', last X = Some w -> head Y = Some w' -> le w w') ->
  ordered le (X ++ Y).
Proof.
  intros HX HY Hm. apply ordered_app. repeat split; [done..|].
  now apply ordered_cross.
Qed.

Lemma ordered_perm_cross X Y X' Y' :
  X' ≡ₚ X -> Y' ≡ₚ Y ->
  Forall (fun x => Forall (le x) Y) X -> Forall (fun x => Forall (le x) Y') X'.
Proof.
  intros HX HY H. rewrite HX. eapply Forall_impl; [exact H|].
  intros x Hx. now rewrite HY.
Qed.

(** The inner loop of [insertionSort] puts one more element in place. *)
Lemma insertionSort_inner_sorts q : forall p e s,
  ordered le q ->
  exists r,
    sort.insertionSort_inner Less (length p) (length p + length q)
                             (p ++ q ++ e :: s)
    = p ++ r ++ s /\
    r ≡ₚ q ++ [e] /\ ordered le r.
Proof.
  induction q as [|y q IH] using rev_ind; intros p e s Hq.
  - exists [e]. rewrite Nat.add_0_r. split; [|split; [done|apply ordered_singleton]].
    cbn [app length]. destruct (length p) as [|k]; [done|].
    cbn [sort.insertionSort_inner]. now rewrite Nat.ltb_irrefl.
  - rewrite length_app. cbn [length].
    replace (length p + (length q + 1))%nat with (S (length p + length q)) by lia.
    cbn [sort.insertionSort_inner].
    destruct (Nat.ltb_spec (length p) (S (length p + length q))) as [_|]; [|lia].
    cbn [andb].
    assert (Hl : p ++ (q ++ [y]) ++ e :: s = (p ++ q) ++ y :: e :: s)
      by now rewrite <- !app_assoc.
    rewrite Hl.
    assert (Ey : ((p ++ q) ++ y :: e :: s) !! (length p + length q)%nat = Some y).
    { apply list_lookup_middle. now rewrite length_app. }
    assert (Ee : ((p ++ q) ++ y :: e :: s) !! S (length p + length q) = Some e).
    { replace ((p ++ q) ++ y :: e :: s) with ((p ++ q ++ [y]) ++ e :: s)
        by now rewrite <- !app_assoc.
      apply list_lookup_middle. rewrite !length_app. cbn. lia. }
    rewrite (Less_reads _ _ _ _ _ Ee Ey).
    apply ordered_app in Hq as (Hq1 & _ & Hq2).
    destruct (less e y) eqn:Eless.
    + rewrite sort_Swap_sym.
      assert (ES : sort.Swap ((p ++ q) ++ y :: e :: s) (length p + length q)
                     (S (length p + length q))
                   = (p ++ q) ++ e :: y :: s).
      { rewrite <- (sort_Swap_adjacent (p ++ q) y e s), length_app.
        f_equal. lia. }
      rewrite ES, <- app_assoc.
      destruct (IH p e (y :: s) Hq1) as (r & Hr & Hp & Ho).
      exists (r ++ [y]). rewrite Hr, <- !app_assoc. split; [done|]. split.
      * rewrite Hp, <- !app_assoc. apply Permutation_app_head, Permutation_swap.
      * apply ordered_app. repeat split; [done|apply ordered_singleton|].
        rewrite Hp. apply Forall_app. split; [done|].
        repeat constructor. now apply less_true.
    + exists (q ++ [y] ++ [e]). rewrite <- !app_assoc. split; [done|].
      split; [done|].
      apply ordered_app. repeat split; [done| |].
      * constructor; [repeat constructor; now apply less_false|apply ordered_singleton].
      * eapply Forall_impl; [exact Hq2|]. intros x Hx.
        inversion Hx as [|? ? Hxy _]; subst.
        repeat constructor; [done|].
        apply (le_trans _ y); [done|now apply less_false].
Qed.

Lemma insertionSort_loop rest : forall p r s,
  ordered le r ->
  exists r',
    foldl (fun l i => sort.insertionSort_inner Less (length p) i l)
          (p ++ r ++ rest ++ s) (seq (length p + length r) (length rest))
    = p ++ r' ++ s /\
    r' ≡ₚ r ++ rest /\ ordered le r'.
Proof.
  induction rest as [|e rest IH]; intros p r s Hr.
  - exists r. rewrite app_nil_r. done.
  - cbn [length seq foldl app].
    destruct (insertionSort_inner_sorts r p e (rest ++ s) Hr) as (r1 & E1 & P1 & O1).
    rewrite E1.
    destruct (IH p r1 s O1) as (r' & E' & P' & O').
    exists r'. split; [|split; [|done]].
    + rewrite <- E'. f_equal. f_equal.
      apply Permutation_length in P1. rewrite length_app in P1. cbn in P1. lia.
    + rewrite P', P1, <- app_assoc. done.
Qed.

(** [insertionSort(data, a, b)] orders the rows [a .. b-1] and leaves the
    others alone. *)
Lemma insertionSort_sorts p q s :
  exists r,
    sort.insertionSort Less (p ++ q ++ s) (length p) (length p + length q)
    = p ++ r ++ s /\
    r ≡ₚ q /\ ordered le r.
Proof.
  unfold sort.insertionSort. destruct q as [|x rest].
  - exists []. cbn [length]. rewrite Nat.add_0_r.
    replace (length p - (length p + 1))%nat with 0%nat by lia.
    split; [done|split; [done|constructor]].
  - cbn [length].
    replace (length p + S (length rest) - (length p + 1))%nat
      with (length rest) by lia.
    destruct (insertionSort_loop rest p [x] s (ordered_singleton le x))
      as (r & E & P & O).
    exists r. cbn [length app] in E |- *. rewrite E. done.
Qed.


Lemma Forall_cross_app {B} (P : B -> B -> Prop) (X1 X2 Y1 Y2 : list B) :
  Forall (fun u => Forall (P u) Y1) X1 -> Forall (fun u => Forall (P u) Y2) X1 ->
  Forall (fun u => Forall (P u) Y1) X2 -> Forall (fun u => Forall (P u) Y2) X2 ->
  Forall (fun u => Forall (P u) (Y1 ++ Y2)) (X1 ++ X2).
Proof.
  intros H11 H12 H21 H22. apply Forall_app. split.
  - apply Forall_forall. intros u Hu. apply Forall_app.
    rewrite Forall_forall in H11, H12. auto.
  - apply Forall_forall. intros u Hu. apply Forall_app.
    rewrite Forall_forall in H21, H22. auto.
Qed.

Lemma ordered_app_nil X Y :
  ordered le X -> ordered le Y -> X = [] \/ Y = [] -> ordered le (X ++ Y).
Proof. intros HX HY [-> | ->]; [done|now rewrite app_nil_r]. Qed.

(** The general step of [symMerge], with its local variables named. *)
Lemma symMerge_general (fuel : nat) l (a m b mid n start0 r start end_ : nat) l1 l2 :
  (m - a)%nat <> 1%nat -> (b - m)%nat <> 1%nat ->
  mid = ((a + b) / 2)%nat -> n = (mid + m)%nat ->
  start0 = (if (mid <? m)%nat then (n - b)%nat else a) ->
  r = (if (mid <? m)%nat then mid else m) ->
  start = sort.search (r - start0)
            (fun c => negb (Less l (n - 1 - c) c)) start0 r ->
  end_ = (n - start)%nat ->
  l1 = (if (start <? m)%nat && (m <? end_)%nat
        then sort.rotate l start m end_ else l) ->
  l2 = (if (a <? start)%nat && (start <? mid)%nat
        then sort.symMerge Less fuel l1 a start mid else l1) ->
  sort.symMerge Less (S fuel) l a m b
  = if (mid <? end_)%nat && (end_ <? b)%nat
    then sort.symMerge Less fuel l2 mid end_ b else l2.
Proof.
  intros N1 N2 -> -> -> -> -> -> -> ->. cbn [sort.symMerge].
  destruct (Nat.eqb_spec (m - a) 1) as [|_]; [done|].
  destruct (Nat.eqb_spec (b - m) 1) as [|_]; [done|].
  now destruct ((a + b) / 2 <? m)%nat.
Qed.

(** [symMerge] merges two adjoining ordered blocks. *)
Lemma symMerge_merges (fuel : nat) : forall p L R s,
  L <> [] -> R <> [] -> ordered le L -> ordered le R ->
  (length L + length R <= fuel)%nat ->
  exists r,
    sort.symMerge Less fuel (p ++ L ++ R ++ s) (length p)
                  (length p + length L) (length p + length L + length R)
    = p ++ r ++ s /\
    r ≡ₚ L ++ R /\ ordered le r.
Proof.
  induction fuel as [|fuel IH]; intros p L R s HL HR OL OR Hf.
  - apply nonempty_length in HL. lia.
  - apply nonempty_length in HL, HR.
    destruct (Nat.eqb_spec (length L) 1) as [E1|N1].
    + (* one row on the left: it is carried to its place on the right *)
      cbn [sort.symMerge].
      replace (length p + length L - length p)%nat with (length L) by lia.
      replace (length p + length L + length R - (length p + length L))%nat
        with (length R) by lia.
      destruct (Nat.eqb_spec (length L) 1) as [_|]; [|done].
      destruct L as [|x [|? ?]]; try discriminate E1. clear E1 HL OL.
      cbn [length app] in *.
      set (l := p ++ x :: R ++ s).
      set (c := fun h : nat => Less l h (length p)).
      destruct (search_bounds c (length p + 1) (length p + 1 + length R)
                  (length R) (length p + 1) (length p + 1 + length R))
        as (Hi1 & Hi2 & Hi3); [lia|lia|lia|lia|].
      set (i := sort.search (length R) c (length p + 1)
                            (length p + 1 + length R)) in *.
      set (k := (i - (length p + 1))%nat).
      assert (Hx : l !! length p = Some x) by now apply list_lookup_middle.
      assert (HR' : forall j : nat, (j < length R)%nat ->
                l !! (length p + 1 + j)%nat = R !! j).
      { intros j Hj. apply (lookup_segment_2 p [x] R s j Hj). }
      exists (take k R ++ x :: drop k R). split; [|split].
      * subst l. rewrite <- (take_drop k R) at 1. rewrite <- app_assoc.
        replace (i - 1 - length p)%nat with (length (take k R))
          by (rewrite length_take; lia).
        rewrite bubble_right. now rewrite <- app_assoc.
      * now rewrite <- Permutation_middle, take_drop.
      * apply ordered_join; [now apply ordered_take| |].
        -- apply (ordered_join [x]);
             [apply ordered_singleton|now apply ordered_drop|].
           intros w w' [= <-] Hw'. rewrite head_drop_lookup in Hw'.
           assert (Hk : (k < length R)%nat) by (eapply lookup_lt_Some, Hw').
           apply less_false. rewrite <- (Less_reads l i (length p)); [|
             replace i with (length p + 1 + k)%nat by lia;
             now rewrite HR'|done].
           apply Hi3. lia.
        -- intros w w' Hw [= <-].
           destruct (decide (k = 0)%nat) as [->|Hk0]; [discriminate Hw|].
           rewrite last_take_lookup in Hw by lia.
           apply less_true. rewrite <- (Less_reads l (i - 1) (length p)); [|
             replace (i - 1)%nat with (length p + 1 + (k - 1))%nat by lia;
             rewrite HR' by lia; done|done].
           apply Hi2. lia.
    + destruct (Nat.eqb_spec (length R) 1) as [E2|N2].
      * (* one row on the right: it is carried to its place on the left *)
        cbn [sort.symMerge].
        replace (length p + length L - length p)%nat with (length L) by lia.
        destruct (Nat.eqb_spec (length L) 1) as [|_]; [done|].
        replace (length p + length L + length R - (length p + length L))%nat
          with (length R) by lia.
        destruct (Nat.eqb_spec (length R) 1) as [_|]; [|done].
        destruct R as [|y [|? ?]]; try discriminate E2. clear E2 HR OR.
        cbn [length app] in *.
        set (l := p ++ L ++ y :: s).
        set (c := fun h : nat => negb (Less l (length p + length L) h)).
        destruct (search_bounds c (length p) (length p + length L)
                    (length L) (length p) (length p + length L))
          as (Hi1 & Hi2 & Hi3); [lia|lia|lia|lia|].
        set (i := sort.search (length L) c (length p)
                              (length p + length L)) in *.
        set (k := (i - length p)%nat).
        assert (Hy : l !! (length p + length L)%nat = Some y).
        { unfold l. rewrite app_assoc. apply list_lookup_middle.
          now rewrite length_app. }
        assert (HL' : forall j : nat, (j < length L)%nat ->
                  l !! (length p + j)%nat = L !! j).
        { intros j Hj. apply (lookup_segment p L (y :: s) j Hj). }
        assert (El : l = (p ++ take k L) ++ drop k L ++ y :: s).
        { unfold l. rewrite <- app_assoc, (app_assoc (take _ _)).
          now rewrite take_drop. }
        exists (take k L ++ y :: drop k L). split; [|split].
        -- rewrite El at 1.
           replace (i + 1)%nat with (length (p ++ take k L) + 1)%nat
             by (rewrite length_app, length_take; lia).
           replace (length p + length L - i)%nat with (length (drop k L))
             by (rewrite length_drop; lia).
           rewrite bubble_left. now rewrite <- !app_assoc.
        -- rewrite <- Permutation_middle, take_drop.
           apply Permutation_cons_append.
        -- apply ordered_join; [now apply ordered_take| |].
           ++ apply (ordered_join [y]);
                [apply ordered_singleton|now apply ordered_drop|].
              intros w w' [= <-] Hw'. rewrite head_drop_lookup in Hw'.
              assert (Hk : (k < length L)%nat) by (eapply lookup_lt_Some, Hw').
              apply less_true.
              rewrite <- (Less_reads l (length p + length L) i); [|done|
                replace i with (length p + k)%nat by lia; now rewrite HL'].
              apply negb_false_iff, Hi3. lia.
           ++ intros w w' Hw [= <-].
              destruct (decide (k = 0)%nat) as [Hk0|Hk0];
                [rewrite Hk0 in Hw; discriminate Hw|].
              rewrite last_take_lookup in Hw by lia.
              apply less_false.
              rewrite <- (Less_reads l (length p + length L) (i - 1)); [|done|
                replace (i - 1)%nat with (length p + (k - 1))%nat by lia;
                rewrite HL' by lia; done].
              apply negb_true_iff, Hi2. lia.
      * (* the general step *)
        assert (H2L : (2 <= length L)%nat) by lia.
        assert (H2R : (2 <= length R)%nat) by lia.
        remember ((length p + (length p + length L + length R)) / 2)%nat
          as mid eqn:Emid.
        assert (Hmid : (2 * mid <= 2 * length p + length L + length R
                        < 2 * mid + 2)%nat).
        { pose proof (Nat.div_mod_eq
                        (length p + (length p + length L + length R)) 2) as Hd.
          pose proof (Nat.mod_upper_bound
                        (length p + (length p + length L + length R)) 2
                        ltac:(lia)) as Hm.
          rewrite <- Emid in Hd. lia. }
        set (a := length p) in *.
        set (m := (a + length L)%nat) in *.
        set (b := (m + length R)%nat) in *.
        set (n := (mid + m)%nat).
        set (start0 := if (mid <? m)%nat then (n - b)%nat else a).
        set (r := if (mid <? m)%nat then mid else m).
        assert (Hb : (a <= start0 <= r)%nat /\ (r <= m)%nat /\ (r <= mid)%nat /\
                     (n <= start0 + b)%nat /\ (r = mid \/ r = m) /\
                     (start0 = a \/ start0 = (n - b)%nat)).
        { unfold start0, r, n, b, m.
          destruct (Nat.ltb_spec mid (a + length L)); lia. }
        destruct Hb as (Hb1 & Hb2 & Hb3 & Hb4 & Hb5 & Hb6).
        set (l := p ++ L ++ R ++ s).
        set (c := fun c : nat => negb (Less l (n - 1 - c) c)).
        destruct (search_bounds c start0 r (r - start0) start0 r)
          as (Hs1 & Hs2 & Hs3); [lia|lia|lia|lia|].
        set (start := sort.search (r - start0) c start0 r) in *.
        set (end_ := (n - start)%nat).
        set (kL := (start - a)%nat).
        set (kR := (end_ - m)%nat).
        assert (HlL : forall j : nat, (j < length L)%nat ->
                  l !! (a + j)%nat = L !! j).
        { intros j Hj. apply (lookup_segment p L (R ++ s) j Hj). }
        assert (HlR : forall j : nat, (j < length R)%nat ->
                  l !! (m + j)%nat = R !! j).
        { intros j Hj. apply (lookup_segment_2 p L R s j Hj). }
        (* where the two blocks meet after the exchange *)
        assert (F1 : forall w w', last (take kL L) = Some w ->
                  head (drop kR R) = Some w' -> le w w').
        { intros w w' Hw Hw'. rewrite head_drop_lookup in Hw'.
          assert (kR < length R)%nat by (eapply lookup_lt_Some, Hw').
          destruct (decide (kL = 0)%nat) as [E0|E0];
            [rewrite E0 in Hw; discriminate Hw|].
          rewrite last_take_lookup in Hw by lia.
          apply less_false.
          rewrite <- (Less_reads l end_ (start - 1)); [| |].
          - apply negb_true_iff.
            replace end_ with (n - 1 - (start - 1))%nat by lia.
            apply Hs2. lia.
          - replace end_ with (m + kR)%nat by lia. now rewrite HlR.
          - replace (start - 1)%nat with (a + (kL - 1))%nat by lia.
            now rewrite HlL by lia. }
        assert (F2 : forall w w', last (take kR R) = Some w ->
                  head (drop kL L) = Some w' -> le w w').
        { intros w w' Hw Hw'. rewrite head_drop_lookup in Hw'.
          assert (kL < length L)%nat by (eapply lookup_lt_Some, Hw').
          destruct (decide (kR = 0)%nat) as [E0|E0];
            [rewrite E0 in Hw; discriminate Hw|].
          rewrite last_take_lookup in Hw by lia.
          apply less_true.
          rewrite <- (Less_reads l (n - 1 - start) start); [| |].
          - apply negb_false_iff. apply Hs3. lia.
          - replace (n - 1 - start)%nat with (m + (kR - 1))%nat by lia.
            now rewrite HlR by lia.
          - replace start with (a + kL)%nat by lia. now rewrite HlL. }
        set (L1 := take kL L) in *. set (L2 := drop kL L) in *.
        set (R1 := take kR R) in *. set (R2 := drop kR R) in *.
        assert (EL : L = L1 ++ L2) by (symmetry; apply take_drop).
        assert (ER : R = R1 ++ R2) by (symmetry; apply take_drop).
        assert (lenL1 : length L1 = kL) by (unfold L1; rewrite length_take; lia).
        assert (lenL2 : length L2 = (length L - kL)%nat)
          by (unfold L2; now rewrite length_drop).
        assert (lenR1 : length R1 = kR) by (unfold R1; rewrite length_take; lia).
        assert (lenR2 : length R2 = (length R - kR)%nat)
          by (unfold R2; now rewrite length_drop).
        assert (OL1 : ordered le L1) by now apply ordered_take.
        assert (OL2 : ordered le L2) by now apply ordered_drop.
        assert (OR1 : ordered le R1) by now apply ordered_take.
        assert (OR2 : ordered le R2) by now apply ordered_drop.
        (* the exchange of the two inner blocks *)
        assert (Erot : (if (start <? m)%nat && (m <? end_)%nat
                        then sort.rotate l start m end_ else l)
                       = p ++ L1 ++ R1 ++ L2 ++ R2 ++ s).
        { destruct (Nat.ltb_spec start m) as [Hsm|Hsm];
            [destruct (Nat.ltb_spec m end_) as [Hme|Hme]|]; cbn [andb].
          - unfold l. rewrite EL, ER, <- !app_assoc.
            rewrite (app_assoc p L1).
            replace start with (length (p ++ L1))
              by (rewrite length_app; lia).
            replace m with (length (p ++ L1) + length L2)%nat
              by (rewrite length_app; lia).
            replace end_ with (length (p ++ L1) + length L2 + length R1)%nat
              by (rewrite length_app; lia).
            rewrite rotate_blocks; [now rewrite <- !app_assoc| |];
              apply nonempty_length; lia.
          - assert (R1 = []) as -> by (apply length_zero_iff_nil; lia).
            unfold l. now rewrite EL, ER, <- !app_assoc.
          - assert (L2 = []) as -> by (apply length_zero_iff_nil; lia).
            unfold l. now rewrite EL, ER, <- !app_assoc. }
        (* the merge of the lower halves *)
        assert (Hlow : exists r1,
                  (if (a <? start)%nat && (start <? mid)%nat
                   then sort.symMerge Less fuel
                          (p ++ L1 ++ R1 ++ L2 ++ R2 ++ s) a start mid
                   else p ++ L1 ++ R1 ++ L2 ++ R2 ++ s)
                  = p ++ r1 ++ L2 ++ R2 ++ s /\
                  r1 ≡ₚ L1 ++ R1 /\ ordered le r1).
        { destruct (Nat.ltb_spec a start) as [Has|Has];
            [destruct (Nat.ltb_spec start mid) as [Hsm|Hsm]|]; cbn [andb].
          - replace start with (length p + length L1)%nat by (unfold a in *; lia).
            replace mid with (length p + length L1 + length R1)%nat
              by (unfold a in *; lia).
            apply (IH p L1 R1 (L2 ++ R2 ++ s)); [| |done|done|];
              [apply nonempty_length; lia..|lia].
          - exists (L1 ++ R1). rewrite <- !app_assoc. split; [done|].
            split; [done|]. apply ordered_app_nil; [done..|].
            right. apply length_zero_iff_nil. lia.
          - exists (L1 ++ R1). rewrite <- !app_assoc. split; [done|].
            split; [done|]. apply ordered_app_nil; [done..|].
            left. apply length_zero_iff_nil. lia. }
        destruct Hlow as (r1 & Er1 & Pr1 & Or1).
        assert (lenr1 : length r1 = (mid - a)%nat).
        { rewrite (Permutation_length Pr1), length_app. lia. }
        (* the merge of the upper halves *)
        assert (Hup : exists r2,
                  (if (mid <? end_)%nat && (end_ <? b)%nat
                   then sort.symMerge Less fuel
                          (p ++ r1 ++ L2 ++ R2 ++ s) mid end_ b
                   else p ++ r1 ++ L2 ++ R2 ++ s)
                  = p ++ r1 ++ r2 ++ s /\
                  r2 ≡ₚ L2 ++ R2 /\ ordered le r2).
        { destruct (Nat.ltb_spec mid end_) as [Hme|Hme];
            [destruct (Nat.ltb_spec end_ b) as [Heb|Heb]|]; cbn [andb].
          - rewrite (app_assoc p r1).
            replace mid with (length (p ++ r1))
              by (rewrite length_app; unfold a in *; lia).
            replace end_ with (length (p ++ r1) + length L2)%nat
              by (rewrite length_app; unfold a in *; lia).
            replace b with (length (p ++ r1) + length L2 + length R2)%nat
              by (rewrite length_app; unfold a in *; lia).
            destruct (IH (p ++ r1) L2 R2 s) as (r2 & E2 & P2 & O2);
              [apply nonempty_length; lia..|done|done|lia|].
            exists r2. rewrite E2, <- !app_assoc. done.
          - exists (L2 ++ R2). rewrite <- !app_assoc. split; [done|].
            split; [done|]. apply ordered_app_nil; [done..|].
            right. apply length_zero_iff_nil. lia.
          - exists (L2 ++ R2). rewrite <- !app_assoc. split; [done|].
            split; [done|]. apply ordered_app_nil; [done..|].
            left. apply length_zero_iff_nil. lia. }
        destruct Hup as (r2 & Er2 & Pr2 & Or2).
        exists (r1 ++ r2). split; [|split].
        -- rewrite (symMerge_general fuel l a m b mid n start0 r start end_
                      (p ++ L1 ++ R1 ++ L2 ++ R2 ++ s)
                      (p ++ r1 ++ L2 ++ R2 ++ s));
             [rewrite Er2; now rewrite <- !app_assoc|..];
             try (unfold m, b; lia); try done.
        -- rewrite Pr1, Pr2, EL, ER, <- !app_assoc.
           apply Permutation_app_head. rewrite !app_assoc.
           apply Permutation_app_tail. apply Permutation_app_comm.
        -- apply ordered_app. repeat split; [done..|].
           apply (ordered_perm_cross (L1 ++ R1) (L2 ++ R2)); [done..|].
           apply Forall_cross_app.
           ++ apply ordered_take_drop, OL.
           ++ now apply ordered_cross.
           ++ now apply ordered_cross.
           ++ apply ordered_take_drop, OR.
Qed.


Lemma full_chunks_app (bs : nat) F l :
  full_chunks le bs F -> chunks le bs l -> chunks le bs (F ++ l).
Proof.
  induction 1 as [|B F HB OB _ IH]; intros Hl; [done|].
  rewrite <- app_assoc. apply chunks_cons; auto.
Qed.

Lemma chunks_nil (bs : nat) : chunks le bs [].
Proof. apply chunks_last; [cbn; lia|constructor]. Qed.

Lemma chunks_small (bs : nat) l :
  chunks le bs l -> (length l <= bs)%nat -> ordered le l.
Proof.
  induction 1 as [B HB OB|B l HB OB Hl IH]; intros Hlen; [done|].
  rewrite length_app in Hlen.
  assert (l = []) as -> by (apply length_zero_iff_nil; lia).
  now rewrite app_nil_r.
Qed.

Lemma chunks_first (bs : nat) l :
  chunks le bs l -> (bs < length l)%nat ->
  exists B l', l = B ++ l' /\ length B = bs /\ ordered le B /\ chunks le bs l'.
Proof.
  destruct 1 as [B HB OB|B l HB OB Hl]; intros Hlen; [lia|].
  now exists B, l.
Qed.

(** The first loop of [stable]: insertion sort on full blocks. *)
Lemma stable_blocks_sorts (bs : nat) (fuel : nat) : forall done rest,
  (1 <= bs)%nat -> (length rest <= fuel)%nat ->
  exists full tail,
    sort.stable_blocks Less fuel (done ++ rest) (length done)
                       (length done + bs) (length done + length rest) bs
    = (done ++ full ++ tail, (length done + length full)%nat) /\
    full_chunks le bs full /\ (length tail < bs)%nat /\
    (length full + length tail = length rest)%nat.
Proof.
  induction fuel as [|fuel IH]; intros done rest Hbs Hf.
  - assert (rest = []) as -> by (apply length_zero_iff_nil; lia).
    exists [], []. cbn [sort.stable_blocks length app]. rewrite Nat.add_0_r.
    repeat split; [constructor|lia].
  - cbn [sort.stable_blocks].
    destruct (Nat.leb_spec (length done + bs) (length done + length rest))
      as [Hle|Hgt].
    + assert (Erest : done ++ rest = done ++ take bs rest ++ drop bs rest)
        by now rewrite take_drop.
      rewrite Erest.
      destruct (insertionSort_sorts done (take bs rest) (drop bs rest))
        as (B & EB & PB & OB).
      assert (HlenB : length B = bs).
      { rewrite (Permutation_length PB), length_take. lia. }
      rewrite length_take in EB.
      replace (bs `min` length rest)%nat with bs in EB by lia.
      rewrite EB.
      destruct (IH (done ++ B) (drop bs rest) Hbs) as (full & tail & E & HF & Ht & Hl).
      { rewrite length_drop. lia. }
      rewrite length_app, length_drop, HlenB in E.
      replace (length done + bs + (length rest - bs))%nat
        with (length done + length rest)%nat in E by lia.
      rewrite <- app_assoc in E. rewrite E.
      exists (B ++ full), tail. rewrite <- !app_assoc, !length_app.
      split; [f_equal; lia|]. split; [now apply full_chunks_cons|].
      rewrite length_drop in Hl. lia.
    + exists [], rest. cbn [length app]. rewrite Nat.add_0_r.
      repeat split; [constructor|lia].
Qed.

(** The inner loop of a round of [stable]: pairs of full blocks are merged. *)
Lemma stable_merges_sorts (bs n : nat) (fuel : nat) : forall done rest,
  (1 <= bs)%nat -> (length rest <= fuel)%nat ->
  n = (length done + length rest)%nat ->
  chunks le bs rest ->
  exists full tail,
    sort.stable_merges Less fuel (done ++ rest) (length done)
                       (length done + 2 * bs) n bs
    = (done ++ full ++ tail, (length done + length full)%nat) /\
    full_chunks le (2 * bs) full /\ chunks le bs tail /\
    (length tail < 2 * bs)%nat /\
    (length full + length tail = length rest)%nat.
Proof.
  induction fuel as [|fuel IH]; intros done rest Hbs Hf Hn Hc.
  - assert (rest = []) as -> by (apply length_zero_iff_nil; lia).
    exists [], []. cbn [sort.stable_merges length app]. rewrite Nat.add_0_r.
    repeat split; [constructor|apply chunks_nil|lia].
  - cbn [sort.stable_merges].
    destruct (Nat.leb_spec (length done + 2 * bs) n) as [Hle|Hgt].
    + destruct (chunks_first bs rest Hc) as (B1 & l1 & -> & HB1 & OB1 & Hc1);
        [lia|].
      rewrite length_app in Hn, Hf.
      destruct (decide (length l1 = bs)) as [Hl1|Hl1].
      * (* the second block is the last one *)
        assert (OB2 : ordered le l1) by (apply (chunks_small bs); [done|lia]).
        destruct (symMerge_merges n done B1 l1 []) as (r & Er & Pr & Or);
          [apply nonempty_length; lia..|done|done|lia|].
        rewrite !app_nil_r in Er.
        replace (length done + bs)%nat with (length done + length B1)%nat by lia.
        replace (length done + 2 * bs)%nat
          with (length done + length B1 + length l1)%nat by lia.
        rewrite Er.
        assert (Hr : length r = (2 * bs)%nat).
        { rewrite (Permutation_length Pr), length_app. lia. }
        destruct (IH (done ++ r) []) as (full & tail & E & HF & Ht & Hlt & Hl);
          [done|cbn; lia|rewrite !length_app; cbn; lia|apply chunks_nil|].
        rewrite app_nil_r, length_app in E.
        replace (length done + length B1 + length l1 + 2 * bs)%nat
          with (length done + length r + 2 * bs)%nat by lia.
        replace (length done + length B1 + length l1)%nat
          with (length done + length r)%nat by lia.
        rewrite E.
        exists (r ++ full), tail. rewrite <- !app_assoc, !length_app.
        split; [f_equal; lia|]. split; [now apply full_chunks_cons|].
        split; [done|]. split; [done|]. cbn [length] in Hl. lia.
      * destruct (chunks_first bs l1 Hc1) as (B2 & l2 & -> & HB2 & OB2 & Hc2);
          [lia|].
        rewrite length_app in Hn, Hf.
        destruct (symMerge_merges n done B1 B2 l2) as (r & Er & Pr & Or);
          [apply nonempty_length; lia..|done|done|lia|].
        replace (length done + bs)%nat with (length done + length B1)%nat by lia.
        replace (length done + 2 * bs)%nat
          with (length done + length B1 + length B2)%nat by lia.
        rewrite Er.
        assert (Hr : length r = (2 * bs)%nat).
        { rewrite (Permutation_length Pr), length_app. lia. }
        destruct (IH (done ++ r) l2) as (full & tail & E & HF & Ht & Hlt & Hl);
          [done|lia|rewrite !length_app; lia|done|].
        rewrite !length_app in E. rewrite <- !app_assoc in E.
        replace (length done + length B1 + length B2 + 2 * bs)%nat
          with (length done + length r + 2 * bs)%nat by lia.
        replace (length done + length B1 + length B2)%nat
          with (length done + length r)%nat by lia.
        rewrite E.
        exists (r ++ full), tail. rewrite <- !app_assoc, !length_app.
        split; [f_equal; lia|]. split; [now apply full_chunks_cons|].
        split; [done|]. split; [done|]. lia.
    + exists [], rest. cbn [length app]. rewrite Nat.add_0_r.
      repeat split; [constructor|done|lia].
Qed.


(** The rounds of [stable]: each one doubles the length of the ordered
    blocks, until one block holds every row. *)
Lemma stable_rounds_sorts (n : nat) (fuel : nat) : forall l (bs : nat),
  (1 <= bs)%nat -> chunks le bs l -> length l = n -> (n <= bs + fuel)%nat ->
  ordered le (sort.stable_rounds Less fuel l n bs).
Proof.
  induction fuel as [|fuel IH]; intros l bs Hbs Hc Hn Hf.
  - cbn [sort.stable_rounds]. apply (chunks_small bs); [done|lia].
  - cbn [sort.stable_rounds].
    destruct (Nat.ltb_spec bs n) as [Hlt|Hge];
      [|apply (chunks_small bs); [done|lia]].
    destruct (stable_merges_sorts bs n n [] l Hbs)
      as (full & tail & E & HF & Ht & Hlt2 & Hl); [lia|cbn; lia|done|].
    cbn [app length Nat.add] in E. rewrite E.
    assert (Hnext : exists l',
              (if (length full + bs <? n)%nat
               then sort.symMerge Less n (full ++ tail) (length full)
                                  (length full + bs) n
               else full ++ tail) = l' /\
              chunks le (2 * bs) l' /\ length l' = n).
    { destruct (Nat.ltb_spec (length full + bs) n) as [Hm|Hm].
      - destruct (chunks_first bs tail Ht) as (B1 & l1 & -> & HB1 & OB1 & Hc1);
          [lia|].
        rewrite length_app in Hlt2, Hl.
        assert (Ol1 : ordered le l1) by (apply (chunks_small bs); [done|lia]).
        destruct (symMerge_merges n full B1 l1 []) as (r & Er & Pr & Or);
          [apply nonempty_length; lia..|done|done|lia|].
        rewrite !app_nil_r in Er.
        replace (length full + bs)%nat with (length full + length B1)%nat by lia.
        exists (full ++ r).
        assert (Hr : length r = (length B1 + length l1)%nat).
        { rewrite (Permutation_length Pr), length_app. lia. }
        split; [rewrite <- Er; f_equal; lia|]. split; [|rewrite length_app; lia].
        apply full_chunks_app; [done|]. apply chunks_last; [lia|done].
      - exists (full ++ tail). split; [done|]. split; [|rewrite length_app; lia].
        apply full_chunks_app; [done|]. apply chunks_last; [lia|].
        apply (chunks_small bs); [done|lia]. }
    destruct Hnext as (l' & El' & Hc' & Hn').
    rewrite El'. apply IH; [lia|done|done|lia].
Qed.

(** [sort.SliceStable] leaves the rows in order. *)
Lemma SliceStable_sorts l : ordered le (sort.SliceStable Less l).
Proof.
  unfold sort.SliceStable, sort.stable.
  destruct (stable_blocks_sorts 20 (length l) [] l)
    as (full & tail & E & HF & Ht & Hl); [lia|lia|].
  cbn [app length Nat.add] in E. rewrite E.
  destruct (insertionSort_sorts full tail []) as (r & Er & Pr & Or).
  rewrite !app_nil_r in Er.
  replace (sort.insertionSort Less (full ++ tail) (length full) (length l))
    with (full ++ r) by (rewrite <- Er; f_equal; lia).
  apply stable_rounds_sorts; [lia| |rewrite length_app, (Permutation_length Pr); lia|lia].
  apply full_chunks_app; [done|].
  apply chunks_last; [rewrite (Permutation_length Pr); lia|done].
Qed.

End ordering.

(** ** The comparator of [Sort] is a total preorder on cells *)

Lemma SFleb_trans (x y z : spec_float) :
  SFleb x y = true -> SFleb y z = true -> SFleb x z = true.
Proof.
  unfold SFleb.
  destruct x as [sx|sx| |sx mx ex], y as [sy|sy| |sy my ey],
           z as [sz|sz| |sz mz ez]; simpl;
    try (destruct sx); try (destruct sy); try (destruct sz); simpl;
    try congruence;
    change (PosDef.Pos.compare_cont Eq mx my) with (Pos.compare mx my);
    change (PosDef.Pos.compare_cont Eq my mz) with (Pos.compare my mz);
    change (PosDef.Pos.compare_cont Eq mx mz) with (Pos.compare mx mz);
    destruct (Z.compare_spec ex ey), (Z.compare_spec ey ez),
             (Z.compare_spec ex ez); simpl; try congruence; try lia;
    destruct (Pos.compare_spec mx my), (Pos.compare_spec my mz),
             (Pos.compare_spec mx mz); simpl; try congruence; lia.
Qed.

Lemma float_leb_trans (x y z : float) :
  (x <=? y)%float = true -> (y <=? z)%float = true -> (x <=? z)%float = true.
Proof. rewrite !leb_spec. apply SFleb_trans. Qed.

Lemma float_ltb_leb (x y : float) :
  (x <? y)%float = true -> (x <=? y)%float = true.
Proof.
  rewrite ltb_spec, leb_spec. unfold SFltb, SFleb.
  now destruct (SFcompare (Prim2SF x) (Prim2SF y)) as [[]|].
Qed.

Lemma SFcompare_defined (x y : spec_float) :
  SFcompare x x = Some Eq -> SFcompare y y = Some Eq ->
  exists c, SFcompare x y = Some c.
Proof. destruct x, y; simpl; intros; (discriminate || eauto). Qed.

Lemma isNaN_compare (x : float) :
  isNaN x = false -> SFcompare (Prim2SF x) (Prim2SF x) = Some Eq.
Proof.
  unfold isNaN, is_nan. rewrite negb_false_iff, FloatAxioms.eqb_spec.
  unfold SFeqb. now destruct (SFcompare (Prim2SF x) (Prim2SF x)) as [[]|].
Qed.

(** Two present values are comparable. *)
Lemma float_leb_total (x y : float) :
  isNaN x = false -> isNaN y = false ->
  (x <? y)%float = false -> (y <=? x)%float = true.
Proof.
  intros Hx Hy. rewrite ltb_spec, leb_spec. unfold SFltb, SFleb.
  destruct (SFcompare_defined _ _ (isNaN_compare x Hx) (isNaN_compare y Hy))
    as [c Hc].
  rewrite (SFcompare_antisym (Prim2SF x) (Prim2SF y)), Hc.
  now destruct c.
Qed.

Lemma float_le_trans (x y z : float) :
  float_le x y -> float_le y z -> float_le x z.
Proof.
  intros [Hx|[Hy Hxy]] Hyz; [now left|].
  destruct Hyz as [Hy'|[Hz Hyz]]; [congruence|].
  right. split; [done|]. now apply (float_leb_trans x y z).
Qed.

Lemma int_le_trans (x y z : option Z) : int_le x y -> int_le y z -> int_le x z.
Proof. destruct x, y, z; cbn; (lia || tauto). Qed.

Lemma Sort_less_float_reads (desc : bool) (l : list float) (i j : nat) x y :
  l !! i = Some x -> l !! j = Some y ->
  SeriesFloat64.Sort_less desc l i j = SeriesFloat64.Sort_less desc [x; y] 0 1.
Proof. intros Hi Hj. unfold SeriesFloat64.Sort_less. now rewrite Hi, Hj. Qed.

Lemma Sort_less_int_reads (desc : bool) (l : list (option Z)) (i j : nat) x y :
  l !! i = Some x -> l !! j = Some y ->
  SeriesInt64.Sort_less desc l i j = SeriesInt64.Sort_less desc [x; y] 0 1.
Proof.
  intros Hi Hj. unfold SeriesInt64.Sort_less, SeriesInt64.Sort_less_at.
  now rewrite Hi, Hj.
Qed.

Lemma Sort_less_float_order (x y : float) :
  (SeriesFloat64.Sort_less false [x; y] 0 1 = true -> float_le x y) /\
  (SeriesFloat64.Sort_less false [x; y] 0 1 = false -> float_le y x).
Proof.
  unfold SeriesFloat64.Sort_less, float_le. cbn [lookup list_lookup default from_option id].
  cbv [default from_option id]. cbn [lookup list_lookup].
  destruct (isNaN x) eqn:Ex, (isNaN y) eqn:Ey; split; intros H;
    try discriminate H; auto.
  - right. split; [done|]. now apply float_ltb_leb.
  - right. split; [done|]. now apply float_leb_total.
Qed.

Lemma Sort_less_int_order (x y : option Z) :
  (SeriesInt64.Sort_less false [x; y] 0 1 = true -> int_le x y) /\
  (SeriesInt64.Sort_less false [x; y] 0 1 = false -> int_le y x).
Proof.
  unfold SeriesInt64.Sort_less, SeriesInt64.Sort_less_at, int_le.
  cbv [default from_option id]. cbn [lookup list_lookup].
  destruct x as [a|], y as [b|]; split; intros H; try discriminate H; auto.
  - apply Z.ltb_lt in H. lia.
  - apply Z.ltb_ge in H. lia.
Qed.

Lemma Sort_less_float_desc (x y : float) :
  SeriesFloat64.Sort_less true [x; y] 0 1
  = negb (SeriesFloat64.Sort_less false [x; y] 0 1).
Proof. reflexivity. Qed.

Lemma Sort_less_int_desc (x y : option Z) :
  SeriesInt64.Sort_less true [x; y] 0 1
  = negb (SeriesInt64.Sort_less false [x; y] 0 1).
Proof. reflexivity. Qed.

Lemma Sort_float_ordered (s : SeriesFloat64.SeriesFloat64) (options : list Options) :
  ordered (fun x y => if sort_descending options then float_le y x else float_le x y)
          (elems (SeriesFloat64.Values (SeriesFloat64.Sort s options))).
Proof.
  unfold SeriesFloat64.Sort.
  change (match options with [] => false | o :: _ => SortDesc o end)
    with (sort_descending options).
  cbn [SeriesFloat64.with_Values SeriesFloat64.Values elems].
  destruct (sort_descending options).
  - apply (SliceStable_sorts _ (fun x y => SeriesFloat64.Sort_less true [x; y] 0 1)).
    + intros. now apply Sort_less_float_reads.
    + intros x y z Hxy Hyz. exact (float_le_trans z y x Hyz Hxy).
    + intros x y H. rewrite Sort_less_float_desc in H.
      apply negb_true_iff in H. exact (proj2 (Sort_less_float_order x y) H).
    + intros x y H. rewrite Sort_less_float_desc in H.
      apply negb_false_iff in H. exact (proj1 (Sort_less_float_order x y) H).
  - apply (SliceStable_sorts _ (fun x y => SeriesFloat64.Sort_less false [x; y] 0 1)).
    + intros. now apply Sort_less_float_reads.
    + apply float_le_trans.
    + intros x y H. exact (proj1 (Sort_less_float_order x y) H).
    + intros x y H. exact (proj2 (Sort_less_float_order x y) H).
Qed.

Lemma Sort_int_ordered (s : SeriesInt64.SeriesInt64) (options : list Options) :
  ordered (fun x y => if sort_descending options then int_le y x else int_le x y)
          (elems (SeriesInt64.values (SeriesInt64.Sort s options))).
Proof.
  unfold SeriesInt64.Sort.
  change (match options with [] => false | o :: _ => SortDesc o end)
    with (sort_descending options).
  cbn [SeriesInt64.with_values SeriesInt64.values elems].
  destruct (sort_descending options).
  - apply (SliceStable_sorts _ (fun x y => SeriesInt64.Sort_less true [x; y] 0 1)).
    + intros. now apply Sort_less_int_reads.
    + intros x y z Hxy Hyz. exact (int_le_trans z y x Hyz Hxy).
    + intros x y H. rewrite Sort_less_int_desc in H.
      apply negb_true_iff in H. exact (proj2 (Sort_less_int_order x y) H).
    + intros x y H. rewrite Sort_less_int_desc in H.
      apply negb_false_iff in H. exact (proj1 (Sort_less_int_order x y) H).
  - apply (SliceStable_sorts _ (fun x y => SeriesInt64.Sort_less false [x; y] 0 1)).
    + intros. now apply Sort_less_int_reads.
    + apply int_le_trans.
    + intros x y H. exact (proj1 (Sort_less_int_order x y) H).
    + intros x y H. exact (proj2 (Sort_less_int_order x y) H).
Qed.

(** X20: [Sort] leaves the rows in order, for every series length and in
    both directions.  Ascending, of two rows the earlier one is absent or
    both are present and the earlier value is not the larger one: the
    absent rows come first and the values rise.  Descending it is the
    other way round: the values fall and the absent rows come last.  Both
    variants. *)
Theorem Sort_orders_the_rows :
  (forall (s : SeriesFloat64.SeriesFloat64) (options : list Options)
          (i j : nat) (x y : float),
      (i < j)%nat ->
      elems (SeriesFloat64.Values (SeriesFloat64.Sort s options)) !! i = Some x ->
      elems (SeriesFloat64.Values (SeriesFloat64.Sort s options)) !! j = Some y ->
      if sort_descending options then float_le y x else float_le x y) /\
  (forall (s : SeriesInt64.SeriesInt64) (options : list Options)
          (i j : nat) (x y : option Z),
      (i < j)%nat ->
      elems (SeriesInt64.values (SeriesInt64.Sort s options)) !! i = Some x ->
      elems (SeriesInt64.values (SeriesInt64.Sort s options)) !! j = Some y ->
      if sort_descending options then int_le y x else int_le x y).
Proof.
  split.
  - intros s options i j x y Hij Hi Hj.
    exact (ordered_lookup _ _ i j x y (Sort_float_ordered s options) Hij Hi Hj).
  - intros s options i j x y Hij Hi Hj.
    exact (ordered_lookup _ _ i j x y (Sort_int_ordered s options) Hij Hi Hj).
Qed.

Lemma Sort_orders_the_rows_witness :
  let s := floats [3%float; nan; 1%float; nan] 2 in
  (0 < 3)%nat /\
  elems (SeriesFloat64.Values (SeriesFloat64.Sort s descending)) !! 0%nat
  = Some 3%float /\
  elems (SeriesFloat64.Values (SeriesFloat64.Sort s descending)) !! 3%nat
  = Some nan /\
  float_le nan 3%float.
Proof.
  intros s.
  assert (H03 : (0 < 3)%nat) by lia.
  assert (H0 : elems (SeriesFloat64.Values (SeriesFloat64.Sort s descending)) !! 0%nat
               = Some 3%float) by (vm_compute; reflexivity).
  assert (H3 : elems (SeriesFloat64.Values (SeriesFloat64.Sort s descending)) !! 3%nat
               = Some nan) by (vm_compute; reflexivity).
  split; [exact H03|]. split; [exact H0|]. split; [exact H3|].
  exact (proj1 Sort_orders_the_rows s descending 0%nat 3%nat _ _ H03 H0 H3).
Defined.
